(** * GreenMove EV fleet charging optimizer

    A shallow embedding of [models.py], [optimizer.py] and [main.py], and
    the properties of the distance resolver, the greedy assignment engine,
    the fleet simulator and the broadcast coordinator.

    Conventions of the embedding.
    - A Python [float] is an IEEE-754 binary64 value ([spec_float] with
      [prec = 53], [emax = 1024]); arithmetic is round-to-nearest-even and
      comparisons are the IEEE ones, so [nan] and the infinities behave as
      they do in Python.
    - A Python [int] is a [Z].
    - A Python list of objects is a [list] of records; the position in the
      list stands for the identity of the object, and an attribute
      assignment is an [alter] at that position.  Distinct positions hold
      distinct objects.
    - Whatever the program obtains from outside (the routing providers, the
      C library's [cos] and [pow], the builtin [round], the order that
      [sorted] gives to keys with [nan], the random generator, the
      websocket writes) is read from an explicit oracle.
    - An exception that leaves a function is a [Raise] result. *)

From Stdlib Require Import ZArith String List Lia Bool Permutation Sorted.
From Stdlib Require Import Floats.SpecFloat.
From stdpp Require Import base option list strings.

Local Open Scope Z_scope.

(** ** Python exceptions and results *)

Inductive exn : Type :=
  | OverflowError
  | ValueError
  | TypeError.

Inductive result (A : Type) : Type :=
  | Ok (a : A)
  | Raise (e : exn).

Arguments Ok {A} & a.
Arguments Raise {A} e.

Global Instance result_ret : MRet result := fun A a => Ok a.

Global Instance result_bind : MBind result := fun A B k r =>
  match r with
  | Ok a => k a
  | Raise e => Raise e
  end.

Definition returns {A} (r : result A) : Prop := exists a, r = Ok a.

(** ** Python floats *)

Module PyFloat.

Definition float : Type := spec_float.

Definition prec : Z := 53.
Definition emax : Z := 1024.

Definition add : float -> float -> float := SFadd prec emax.
Definition sub : float -> float -> float := SFsub prec emax.
Definition mul : float -> float -> float := SFmul prec emax.
Definition div : float -> float -> float := SFdiv prec emax.
Definition ltb : float -> float -> bool := SFltb.
Definition abs : float -> float := SFabs.

(** [float(z)] for an [int] that a double holds exactly. *)
Definition of_Z (z : Z) : float := binary_normalize prec emax z 0 false.

(** The double nearest to the decimal literal [m / 10^k]. *)
Definition decimal (m : Z) (k : Z) : float := div (of_Z m) (of_Z (10 ^ k)).

(** [float("inf")] and [float("nan")]. *)
Definition inf : float := S754_infinity false.
Definition nan : float := S754_nan.

Definition is_nan (x : float) : bool :=
  match x with S754_nan => true | _ => false end.

Definition is_inf (x : float) : bool :=
  match x with S754_infinity _ => true | _ => false end.

Definition is_finite (x : float) : bool :=
  match x with S754_zero _ | S754_finite _ _ _ => true | _ => false end.

(** The C library's [pow (x, 2.0)].  It is exact where the square is a
    double; elsewhere it is one of the two doubles next to the square, the
    library's error being below one unit in the last place: the nearest
    one where [off] is false at the magnitude of [x], the other one where
    it is true. *)
Definition round_off (off : bool) (m : Z) (l : location) : Z :=
  match l with
  | loc_Exact => m
  | _ =>
      let nearest := round_nearest_even m l in
      if off then (if nearest =? m then m + 1 else m) else nearest
  end.

Definition faithful_round (off : bool) (sx : bool) (mx ex : Z) : float :=
  let '(mrs', e') := shr_fexp prec emax mx ex loc_Exact in
  let '(mrs'', e'') :=
    shr_fexp prec emax
      (round_off off (shr_m mrs') (loc_of_shr_record mrs')) e' loc_Exact in
  match shr_m mrs'' with
  | Z0 => S754_zero sx
  | Zpos m =>
      if e'' <=? emax - prec then S754_finite sx m e'' else S754_infinity sx
  | Zneg _ => S754_nan
  end.

Definition c_pow2 (off : float -> bool) (x : float) : float :=
  match x with
  | S754_nan => nan
  | S754_infinity _ => inf
  | S754_zero _ => S754_zero false
  | S754_finite _ m e =>
      faithful_round (off (S754_finite false m e)) false (Zpos (m * m)) (e + e)
  end.

Definition one : float := Eval vm_compute in of_Z 1.

(** [x ** 2] ([float_pow] of CPython with exponent [2.0]): [nan] and the
    infinities pass through without an error, zero gives [0.0] and a base
    of magnitude one gives [1.0]; for any other [x] the C library's
    [pow (fabs x, 2.0)] is called and a result that is infinite raises
    [OverflowError]. *)
Definition pow2 (off : float -> bool) (x : float) : result float :=
  match x with
  | S754_nan => Ok nan
  | S754_infinity _ => Ok inf
  | S754_zero _ => Ok (S754_zero false)
  | S754_finite _ _ _ =>
      if SFeqb (abs x) one then Ok one
      else
        let ix := c_pow2 off (abs x) in
        if is_inf ix then Raise OverflowError else Ok ix
  end.

(** The wrapper [math_1] of CPython's [mathmodule.c], with
    [can_overflow = 0]: the C function's result [r] on [x] is an error
    when it is [nan] for an [x] that is not, or infinite for a finite
    [x]. *)
Definition math_1 (r x : float) : result float :=
  if is_nan r && negb (is_nan x) then Raise ValueError
  else if is_inf r && is_finite x then Raise ValueError
  else Ok r.

(** [math.sqrt]. *)
Definition sqrt (x : float) : result float := math_1 (SFsqrt prec emax x) x.

(** [Py_MATH_PI] and [degToRad = Py_MATH_PI / 180.0]. *)
Definition PI : float := S754_finite false 7074237752028440 (-51).
Definition degToRad : float := Eval vm_compute in div PI (of_Z 180).

(** [math.radians]. *)
Definition radians (x : float) : float := mul x degToRad.

(** [math.cos]: the C [cos] is [nan] on [nan] and on the infinities
    (C99 Annex F) and is the library's [libm_cos] elsewhere. *)
Definition c_cos (libm_cos : float -> float) (x : float) : float :=
  if is_finite x then libm_cos x else nan.

Definition cos (libm_cos : float -> float) (x : float) : result float :=
  math_1 (c_cos libm_cos x) x.

End PyFloat.

Import PyFloat.

(** ** models.py *)

Record EV : Type := {
  ev_id : string;
  ev_battery : Z;                          (* percentage 0-100 *)
  ev_lat : float;
  ev_lon : float;
  ev_assigned_station : option string
}.

Record Station : Type := {
  st_id : string;
  st_lat : float;
  st_lon : float;
  st_capacity : Z;                         (* number of chargers *)
  st_occupied : Z
}.

Record FleetData : Type := {
  evs : list EV;
  stations : list Station
}.

(** Attribute assignments. *)

Definition set_assigned_station (v : option string) (ev : EV) : EV :=
  {| ev_id := ev_id ev; ev_battery := ev_battery ev; ev_lat := ev_lat ev;
     ev_lon := ev_lon ev; ev_assigned_station := v |}.

Definition set_occupied (v : Z) (s : Station) : Station :=
  {| st_id := st_id s; st_lat := st_lat s; st_lon := st_lon s;
     st_capacity := st_capacity s; st_occupied := v |}.

(** ** The outside world *)

(** The Python object that [json()] gives for the JSON value at the path
    of the distance: a [float] for a number ([int] and [bool] behave as
    the number they stand for), a [str] for a string, [None] for [null].
    A JSON object there behaves as [None] does, it has neither [<] nor
    [round]; a JSON array there is not part of the model. *)
Inductive json : Type :=
  | JNumber (d : spec_float)
  | JString (s : string)
  | JNull.

Coercion JNumber : spec_float >-> json.

(** What the two routing providers answer to one distance query.  [None]
    stands for any exception raised inside the [try] block (time-out,
    connection error, a status that [raise_for_status] rejects, a body that
    is not JSON or lacks the path to the distance); [Some v] is the value
    found at that path, a number or not. *)
Record reply : Type := {
  osrm : option json;
  ors : option json
}.

(** The HTTP requests a distance query sends. *)
Inductive request : Type :=
  | GetOSRM (lon1 lat1 lon2 lat2 : float)
  | GetORS (api_key : string) (lon1 lat1 lon2 lat2 : float).

Record host : Type := {
  ORS_API_KEY : option string;             (* os.getenv("ORS_API_KEY") *)
  network : nat -> reply;                  (* answers to the n-th query *)
  libm_cos : float -> float;               (* C cos on finite arguments *)
  libm_pow_off : float -> bool;            (* where C pow misses the nearest *)
  round2 : float -> float;                 (* round(x, 2) *)
  list_sort : list float -> nat -> nat     (* where list.sort puts keys with nan *)
}.

(** Truth value of [ORS_API_KEY]: [None] and the empty string are false. *)
Definition truthy (k : option string) : option string :=
  match k with
  | Some EmptyString => None
  | other => other
  end.

(** What Python does with a value where it needs a number: [v < x] with a
    [float] [x] and [round(v, 2)] raise [TypeError] on a [str] and on
    [None]. *)
Definition number (v : json) : result float :=
  match v with
  | JNumber d => Ok d
  | _ => Raise TypeError
  end.

(** [a < b] between two such values. *)
Definition py_lt (a b : json) : result bool :=
  match a, b with
  | JNumber x, JNumber y => Ok (ltb x y)
  | JString x, JString y => Ok (String.ltb x y)
  | _, _ => Raise TypeError
  end.

(** ** optimizer.py: real_distance *)

(** Lines 43-45, the flat-earth fallback. *)
Definition flat_earth (cosine : float -> float) (pow_off : float -> bool)
    (lat1 lon1 lat2 lon2 : float) : result float :=
  let lat_diff_m := mul (sub lat1 lat2) (of_Z 111320) in
  c ← cos cosine (radians lat1);
  let lon_diff_m := mul (mul (sub lon1 lon2) (of_Z 111320)) c in
  a ← pow2 pow_off lat_diff_m;
  b ← pow2 pow_off lon_diff_m;
  sqrt (add a b).

(** [real_distance] on the [n]-th query: the requests it sends and what it
    returns or raises.  The value of a provider is returned as it is. *)
Definition real_distance_run (h : host) (n : nat) (ev : EV) (station : Station)
    : list request * result json :=
  let fallback :=
    d ← flat_earth (libm_cos h) (libm_pow_off h)
          (ev_lat ev) (ev_lon ev) (st_lat station) (st_lon station);
    Ok (JNumber d) in
  let get_osrm := GetOSRM (ev_lon ev) (ev_lat ev) (st_lon station) (st_lat station) in
  match osrm (network h n) with
  | Some v => ([get_osrm], Ok v)
  | None =>
      match truthy (ORS_API_KEY h) with
      | Some key =>
          let get_ors :=
            GetORS key (ev_lon ev) (ev_lat ev) (st_lon station) (st_lat station) in
          match ors (network h n) with
          | Some v => ([get_osrm; get_ors], Ok v)
          | None => ([get_osrm; get_ors], fallback)
          end
      | None => ([get_osrm], fallback)
      end
  end.

Definition real_distance (h : host) (n : nat) (ev : EV) (station : Station)
    : result json :=
  snd (real_distance_run h n ev station).

Definition requests_sent (h : host) (n : nat) (ev : EV) (station : Station)
    : list request :=
  fst (real_distance_run h n ev station).

(** ** Python's [sorted] *)

(** [sorted(l, key=key)], which compares keys with [<] only and is stable.
    The model is the stable insertion sort; on keys that [<] orders totally
    (every [int], every [float] but [nan]) a stable sort has one possible
    result, so it is the list Python builds. *)
Section PySorted.
Context {A K : Type} (lt : K -> K -> bool) (key : A -> K).

Fixpoint insert_sorted (x : A) (l : list A) : list A :=
  match l with
  | [] => [x]
  | y :: l' =>
      if lt (key y) (key x) then y :: insert_sorted x l' else x :: y :: l'
  end.

Definition py_sorted (l : list A) : list A := foldr insert_sorted [] l.
End PySorted.

(** The same [sorted] on keys whose [<] may raise: the first comparison
    that raises ends it. *)
Section PySortedRaising.
Context {A K : Type} (lt : K -> K -> result bool) (key : A -> K).

Fixpoint insert_sorted_r (x : A) (l : list A) : result (list A) :=
  match l with
  | [] => Ok [x]
  | y :: l' =>
      b ← lt (key y) (key x);
      if b : bool
      then l'' ← insert_sorted_r x l'; Ok (y :: l'')
      else Ok (x :: y :: l')
  end.

Fixpoint py_sorted_r (l : list A) : result (list A) :=
  match l with
  | [] => Ok []
  | x :: l' => sorted ← py_sorted_r l'; insert_sorted_r x sorted
  end.
End PySortedRaising.

(** [sorted] on the values the resolver gives as keys.  Among numbers one
    of which is [nan], [<] is no order and where an element goes depends
    on which comparisons [list.sort] makes; that is read from the host,
    as the rank [list_sort keys i] of the element at position [i], and
    elements of equal rank stay in their order, so that the result is a
    permutation whatever the ranks are.  On any other keys the result, or
    the [TypeError], is that of the stable sort. *)
Definition numbers (keys : list json) : option (list float) :=
  mapM (fun v => match v with JNumber d => Some d | _ => None end) keys.

Definition sorted_by_key {A : Type} (rank : list float -> nat -> nat)
    (l : list (json * A)) : result (list (json * A)) :=
  match numbers (map fst l) with
  | Some ds =>
      if existsb is_nan ds
      then Ok (map snd (py_sorted Nat.ltb fst (imap (fun i p => (rank ds i, p)) l)))
      else py_sorted_r py_lt fst l
  | None => py_sorted_r py_lt fst l
  end.

(** ** optimizer.py: assign_charging *)

(** One entry of the returned list, the dictionary with the keys ["ev"],
    ["station"] and ["distance_m"]. *)
Record Assignment : Type := {
  a_ev : string;
  a_station : string;
  a_distance_m : float
}.

(** The objects reachable from the arguments, the local [assignments] and
    the number of distance queries made so far. *)
Record state : Type := {
  s_evs : list EV;
  s_stations : list Station;
  s_assignments : list Assignment;
  s_clock : nat
}.

Definition has_capacity (station : Station) : bool :=
  st_occupied station <? st_capacity station.

(** Lines 66-71: the scan of the stations from position [j] on.
    [best_station] refers to a station by its position.  [best_dist] is a
    [float] throughout, [inf] at first and then a distance that passed
    [d < best_dist], which raises [TypeError] on a [d] that is not a
    number. *)
Fixpoint scan (h : host) (ev : EV) (rest : list Station) (j : nat) (clock : nat)
    (best_station : option (nat * Station)) (best_dist : float)
    : result (option (nat * Station) * float * nat) :=
  match rest with
  | [] => Ok (best_station, best_dist, clock)
  | station :: rest' =>
      if has_capacity station then
        v ← real_distance h clock ev station;
        d ← number v;
        if ltb d best_dist
        then scan h ev rest' (S j) (S clock) (Some (j, station)) d
        else scan h ev rest' (S j) (S clock) best_station best_dist
      else scan h ev rest' (S j) clock best_station best_dist
  end.

Definition occupy (station : Station) : Station :=
  set_occupied (st_occupied station + 1) station.

(** Lines 64-80: the body of the loop for the vehicle at position [i]. *)
Definition visit (h : host) (s : state) (i : nat) (ev : EV) : result state :=
  '(best_station, best_dist, clock) ←
    scan h ev (s_stations s) 0 (s_clock s) None inf;
  match best_station with
  | Some (j, station) =>
      Ok {| s_evs := alter (set_assigned_station (Some (st_id station))) i (s_evs s);
            s_stations := alter occupy j (s_stations s);
            s_assignments :=
              s_assignments s ++
                [ {| a_ev := ev_id ev; a_station := st_id station;
                     a_distance_m := round2 h best_dist |} ];
            s_clock := clock |}
  | None =>
      Ok {| s_evs := s_evs s; s_stations := s_stations s;
            s_assignments := s_assignments s; s_clock := clock |}
  end.

(** Line 63: the loop.  An exception stops it and leaves the objects as
    the vehicles visited before left them. *)
Fixpoint visit_all (h : host) (order : list (nat * EV)) (s : state)
    : state * option exn :=
  match order with
  | [] => (s, None)
  | (i, ev) :: rest =>
      match visit h s i ev with
      | Ok s' => visit_all h rest s'
      | Raise e => (s, Some e)
      end
  end.

(** Line 61: [evs_sorted], every vehicle with its position in [evs]. *)
Definition evs_sorted (evs : list EV) : list (nat * EV) :=
  py_sorted Z.ltb (fun p => ev_battery (snd p)) (imap pair evs).

(** Line 54: the state on entry, [clock] distance queries having been made
    before. *)
Definition initial (clock : nat) (evs : list EV) (stations : list Station) : state :=
  {| s_evs := evs; s_stations := stations; s_assignments := [];
     s_clock := clock |}.

(** [assign_charging evs stations]: the objects as it leaves them, and
    what it returns or raises.  The loop of lines 57-59 does nothing, a
    [Station] always has the attribute [occupied]. *)
Definition assign_charging (h : host) (clock : nat)
    (evs : list EV) (stations : list Station)
    : state * result (list Assignment) :=
  let '(s, raised) := visit_all h (evs_sorted evs) (initial clock evs stations) in
  (s, match raised with
      | None => Ok (s_assignments s)
      | Some e => Raise e
      end).

(** main.py, lines 117-121: the endpoint resets the counters and runs the
    assignment on the fleet. *)
Definition assign_charging_endpoint (h : host) (clock : nat) (fleet_data : FleetData)
    : state * result (list Assignment) :=
  assign_charging h clock (evs fleet_data)
    (map (set_occupied 0) (stations fleet_data)).

(** ** main.py: get_nearby_stations *)

Inductive nearby_response : Type :=
  | EVNotFound                             (* {"error": "EV not found"} *)
  | Nearby (ev : string) (battery : Z) (nearby_stations : list (string * float)).

(** [real_distance(ev, s)] for every [s] of a list, in turn. *)
Fixpoint query_all (h : host) (clock : nat) (ev : EV) (l : list Station)
    : result (list json) :=
  match l with
  | [] => Ok []
  | s :: rest =>
      v ← real_distance h clock ev s;
      vs ← query_all h (S clock) ev rest;
      Ok (v :: vs)
  end.

(** Lines 135-138: the entries of the answer, [round] of a new distance
    query for every station in turn. *)
Fixpoint nearby_stations (h : host) (clock : nat) (ev : EV) (l : list Station)
    : result (list (string * float)) :=
  match l with
  | [] => Ok []
  | s :: rest =>
      v ← real_distance h clock ev s;
      d ← number v;
      entries ← nearby_stations h (S clock) ev rest;
      Ok ((st_id s, round2 h d) :: entries)
  end.

(** Lines 128-139.  [sorted] first calls the key function on every
    station and then compares the keys; the comprehension then asks the
    resolver again for every station of the sorted list. *)
Definition get_nearby_stations (h : host) (clock : nat) (fleet_data : FleetData)
    (ev_id' : string) : result nearby_response :=
  match List.find (fun e => String.eqb (ev_id e) ev_id') (evs fleet_data) with
  | None => Ok EVNotFound
  | Some ev =>
      keys ← query_all h clock ev (stations fleet_data);
      sorted ← sorted_by_key (list_sort h) (zip keys (stations fleet_data));
      let stations_sorted := map snd sorted in
      entries ←
        nearby_stations h (clock + length (stations fleet_data)) ev stations_sorted;
      Ok (Nearby (ev_id ev) (ev_battery ev) entries)
  end.

(** ** main.py: simulate_ev_movement *)

(** The random generator: what the [k]-th call of [random()] returns, and
    the integer the [k]-th call of [_randbelow] draws from. *)
Record generator : Type := {
  random : nat -> float;
  entropy : nat -> Z
}.

(** [random.uniform(a, b)] is [a + (b - a) * random()]. *)
Definition uniform (g : generator) (k : nat) (a b : float) : float :=
  add a (mul (sub b a) (random g k)).

(** [random.randint(a, b)] is [a + _randbelow(b - a + 1)]. *)
Definition randint (g : generator) (k : nat) (a b : Z) : Z :=
  a + entropy g k mod (b - a + 1).

(** Lines 40-47, for one vehicle, at the [k]-th draw. *)
Definition drive (g : generator) (k : nat) (ev : EV) : EV :=
  let lat := add (ev_lat ev) (uniform g k (SFopp (decimal 5 4)) (decimal 5 4)) in
  let lon := add (ev_lon ev) (uniform g (k + 1) (SFopp (decimal 5 4)) (decimal 5 4)) in
  let battery := Z.max 0 (ev_battery ev - randint g (k + 2) 0 2) in
  if battery =? 0
  then {| ev_id := ev_id ev; ev_battery := 100; ev_lat := lat; ev_lon := lon;
          ev_assigned_station := None |}
  else {| ev_id := ev_id ev; ev_battery := battery; ev_lat := lat; ev_lon := lon;
          ev_assigned_station := ev_assigned_station ev |}.

Fixpoint simulate_ev_movement (g : generator) (k : nat) (evs : list EV) : list EV :=
  match evs with
  | [] => []
  | ev :: rest => drive g k ev :: simulate_ev_movement g (k + 3) rest
  end.

(** ** main.py: ConnectionManager *)

(** A websocket is known by its identity. *)
Definition WebSocket : Type := nat.

Record ConnectionManager : Type := {
  active_connections : list WebSocket
}.

(** [list.remove] where a missing element is ignored: line 61 tests for
    it, lines 71-74 catch the [ValueError]. *)
Fixpoint remove_first (websocket : WebSocket) (l : list WebSocket) : list WebSocket :=
  match l with
  | [] => []
  | w :: l' => if Nat.eqb w websocket then l' else w :: remove_first websocket l'
  end.

Definition connect (websocket : WebSocket) (m : ConnectionManager) : ConnectionManager :=
  {| active_connections := active_connections m ++ [websocket] |}.

Definition disconnect (websocket : WebSocket) (m : ConnectionManager) : ConnectionManager :=
  {| active_connections := remove_first websocket (active_connections m) |}.

(** Lines 66-74.  [wire k connection] tells whether the [k]-th
    [send_text] of the broadcast, on [connection], succeeds.  The loop
    runs over a copy of the registry; [delivered] collects the
    connections written to. *)
Fixpoint send_each (wire : nat -> WebSocket -> bool) (k : nat)
    (snapshot active delivered : list WebSocket)
    : list WebSocket * list WebSocket :=
  match snapshot with
  | [] => (active, delivered)
  | connection :: rest =>
      if wire k connection
      then send_each wire (S k) rest active (delivered ++ [connection])
      else send_each wire (S k) rest (remove_first connection active) delivered
  end.

Definition broadcast {M : Type} (wire : nat -> WebSocket -> bool) (message : M)
    (m : ConnectionManager) : ConnectionManager * list (WebSocket * M) :=
  let '(active, delivered) :=
    send_each wire 0 (active_connections m) (active_connections m) [] in
  ({| active_connections := active |},
   map (fun connection => (connection, message)) delivered).

(** Lines 81-86: the coroutine that sends the fleet to every observer.
    The payload stands for the JSON text of the fleet. *)
Definition broadcast_fleet (wire : nat -> WebSocket -> bool)
    (fleet : FleetData) (m : ConnectionManager)
    : ConnectionManager * list (WebSocket * FleetData) :=
  broadcast wire fleet m.

(** Lines 88-96: the job moves the fleet and hands [broadcast_fleet] to
    the event loop; what it does itself is the move. *)
Definition scheduled_job (g : generator) (k : nat) (fleet : FleetData) : FleetData :=
  {| evs := simulate_ev_movement g k (evs fleet); stations := stations fleet |}.

(** Lines 98-100: the scheduler runs the job [ticks] times. *)
Fixpoint run_scheduler (g : generator) (ticks k : nat) (fleet : FleetData)
    : FleetData :=
  match ticks with
  | O => fleet
  | S ticks' =>
      run_scheduler g ticks' (k + 3 * length (evs fleet)) (scheduled_job g k fleet)
  end.

(** ** The sample fleet of main.py *)

Definition mkEV (id : string) (battery : Z) (lat lon : float) : EV :=
  {| ev_id := id; ev_battery := battery; ev_lat := lat; ev_lon := lon;
     ev_assigned_station := None |}.

Definition mkStation (id : string) (lat lon : float) (capacity : Z) : Station :=
  {| st_id := id; st_lat := lat; st_lon := lon; st_capacity := capacity;
     st_occupied := 0 |}.

Definition fleet_data : FleetData :=
  {| evs :=
       [ mkEV "UNO" 30 (decimal 407128 4) (decimal (-740060) 4);
         mkEV "DUO-Y" 20 (decimal 407138 4) (decimal (-740050) 4);
         mkEV "LIVRO" 60 (decimal 407150 4) (decimal (-740070) 4);
         mkEV "DUO-S" 80 (decimal 407165 4) (decimal (-740085) 4);
         mkEV "UNO-2" 50 (decimal 407145 4) (decimal (-740040) 4) ];
     stations :=
       [ mkStation "Station-A" (decimal 407200 4) (decimal (-740100) 4) 2;
         mkStation "Station-B" (decimal 407300 4) (decimal (-740000) 4) 1;
         mkStation "Station-C" (decimal 407400 4) (decimal (-740020) 4) 2 ] |}.

(** ** Reference platform for the examples *)

(** [round(x, 2)]: the double nearest to the decimal with two places
    nearest to [x], ties to the even decimal. *)
Definition round_half_even (num den : Z) : Z :=
  let q := num / den in
  let r := num mod den in
  if (den <? 2 * r) || ((2 * r =? den) && Z.odd q) then q + 1 else q.

Definition round_2 (x : float) : float :=
  match x with
  | S754_finite s m e =>
      let q :=
        if 0 <=? e then Zpos m * 2 ^ e * 100
        else round_half_even (Zpos m * 100) (2 ^ (- e)) in
      if q <? 2 ^ 53
      then div (binary_normalize prec emax (cond_Zopp s q) 0 s) (of_Z 100)
      else x
  | _ => x
  end.

(** A cosine for latitudes: the Taylor polynomial of degree 12. *)
Definition poly_cos (x : float) : float :=
  let t := mul x x in
  let one := of_Z 1 in
  let step (n : Z) (r : float) := sub one (mul (div t (of_Z n)) r) in
  step 2 (step 12 (step 30 (step 56 (step 90 (step 132 one))))).

(** No provider answers and no key is set. *)
Definition offline : host :=
  {| ORS_API_KEY := None;
     network := fun _ => {| osrm := None; ors := None |};
     libm_cos := poly_cos;
     libm_pow_off := fun _ => false;
     round2 := round_2;
     list_sort := fun _ i => i |}.

(** The primary provider answers the [n]-th query with [route n]. *)
Definition online (route : nat -> float) : host :=
  {| ORS_API_KEY := None;
     network := fun n => {| osrm := Some (JNumber (route n)); ors := None |};
     libm_cos := poly_cos;
     libm_pow_off := fun _ => false;
     round2 := round_2;
     list_sort := fun _ i => i |}.


(** ** The formula of the specification *)

(** Section 4.1, step 3, evaluated in binary64 with the operations of the
    platform, the IEEE-754 arithmetic and square root and the C library's
    [cos] and [pow]: the Euclidean norm of the latitude delta times
    111320 and of the longitude delta times 111320 times the cosine of the
    origin latitude in radians. *)
Definition metres_per_degree : float := of_Z 111320.

Definition euclidean_norm (square : float -> float) (x y : float) : float :=
  SFsqrt prec emax (SFadd prec emax (square x) (square y)).

Definition flat_earth_formula (cosine square : float -> float)
    (origin destination : float * float) : float :=
  let lat_delta := SFsub prec emax (fst origin) (fst destination) in
  let lon_delta := SFsub prec emax (snd origin) (snd destination) in
  let origin_latitude :=
    SFmul prec emax (fst origin) (SFdiv prec emax PI (of_Z 180)) in
  euclidean_norm square
    (SFmul prec emax lat_delta metres_per_degree)
    (SFmul prec emax (SFmul prec emax lon_delta metres_per_degree)
       (cosine origin_latitude)).

(** A generator for the examples: [random()] is always 0.5, the [k]-th
    integer drawn from is [k]. *)
Definition sample_generator : generator :=
  {| random := fun _ => decimal 5 1; entropy := fun k => Z.of_nat k |}.


(** * Specification vocabulary *)

(** The number of distance queries the scan makes before it reaches
    position [k]. *)
Fixpoint queries_before (rest : list Station) (k : nat) : nat :=
  match k, rest with
  | S k', station :: rest' =>
      ((if has_capacity station then 1 else 0) + queries_before rest' k')%nat
  | _, _ => 0%nat
  end.

(** The distance the scan started at query [c] obtains for position [k]. *)
Definition observed (h : host) (ev : EV) (rest : list Station) (c k : nat)
    (station : Station) (d : float) : Prop :=
  rest !! k = Some station /\ has_capacity station = true /\
  real_distance h (c + queries_before rest k) ev station = Ok d.

(** What a turn does when it selects the station at position [j]. *)
Definition selected (h : host) (s : state) (i : nat) (ev : EV)
    (j : nat) (station : Station) (d : float) (s' : state) : Prop :=
  s_evs s' = alter (set_assigned_station (Some (st_id station))) i (s_evs s) /\
  s_stations s' = alter occupy j (s_stations s) /\
  s_assignments s' =
    s_assignments s ++
      [ {| a_ev := ev_id ev; a_station := st_id station;
           a_distance_m := round2 h d |} ].

(** What a turn does when it selects nothing. *)
Definition skipped (s s' : state) : Prop :=
  s_evs s' = s_evs s /\ s_stations s' = s_stations s /\
  s_assignments s' = s_assignments s.

(** A station keeps its identifier, place and capacity; its counter only
    grows, and not beyond the capacity. *)
Definition grows (station0 station : Station) : Prop :=
  st_id station = st_id station0 /\
  st_lat station = st_lat station0 /\
  st_lon station = st_lon station0 /\
  st_capacity station = st_capacity station0 /\
  st_occupied station0 <= st_occupied station /\
  st_occupied station <= Z.max (st_occupied station0) (st_capacity station0).

Definition total_capacity (stations : list Station) : Z :=
  foldr (fun station acc => st_capacity station + acc) 0 stations.

Definition total_occupied (stations : list Station) : Z :=
  foldr (fun station acc => st_occupied station + acc) 0 stations.

Definition within_capacity (station : Station) : Prop :=
  st_occupied station <= st_capacity station.

Definition place (station : Station) : float * float :=
  (st_lat station, st_lon station).

(** Whenever it is asked about a vehicle of [evs] and the place of a
    station of [stations], the resolver returns a number below [inf]. *)
Definition numeric (h : host) (evs : list EV) (stations : list Station) : Prop :=
  forall n ev station,
    ev ∈ evs -> place station ∈ map place stations ->
    exists d : float, real_distance h n ev station = Ok d /\ ltb d inf = true.

Definition free_chargers (stations : list Station) : Z :=
  total_capacity stations - total_occupied stations.

(** The number of vehicles of [order] that find a free charger. *)
Definition served (order : list (nat * EV)) (stations : list Station) : nat :=
  Z.to_nat (Z.min (Z.of_nat (length order)) (free_chargers stations)).

(** Vehicles are taken by ascending battery level, and in the order of
    [evs] between equal levels. *)
Definition served_before (p q : nat * EV) : Prop :=
  ev_battery (snd p) < ev_battery (snd q) \/
  (ev_battery (snd p) = ev_battery (snd q) /\ (fst p < fst q)%nat).

(** The connections of a snapshot whose write succeeds, the first write
    being the [k]-th. *)
Fixpoint succeeded (wire : nat -> WebSocket -> bool) (k : nat)
    (snapshot : list WebSocket) : list WebSocket :=
  match snapshot with
  | [] => []
  | connection :: rest =>
      if wire k connection
      then connection :: succeeded wire (S k) rest
      else succeeded wire (S k) rest
  end.

(** What a tick does to one vehicle when the generator draws [r]. *)
Definition drained (r : Z) (ev ev' : EV) : Prop :=
  ev_id ev' = ev_id ev /\
  (Z.max 0 (ev_battery ev - r) = 0 ->
   ev_battery ev' = 100 /\ ev_assigned_station ev' = None) /\
  (Z.max 0 (ev_battery ev - r) <> 0 ->
   ev_battery ev' = Z.max 0 (ev_battery ev - r) /\
   ev_assigned_station ev' = ev_assigned_station ev).

(** A [float] result as the Python object it is. *)
Definition as_json (r : result float) : result json :=
  d ← r; Ok (JNumber d).

(** The resolver returns a number. *)
Definition returns_number (r : result json) : Prop :=
  exists d : float, r = Ok (JNumber d).

(** [d] is what the resolver answered to some query about [ev] and
    [station]. *)
Definition answered (h : host) (ev : EV) (station : Station) (d : float) : Prop :=
  exists n, real_distance h n ev station = Ok d.

(** ** Bounded doubles *)

(** [x] is a zero or a finite double below [2^E] in magnitude: its
    mantissa has [digits] binary digits and [digits + e <= E].  Every
    double has an exponent of at least [-1074], that of the subnormals. *)
Definition finite_below (E : Z) (x : float) : Prop :=
  match x with
  | S754_zero _ => True
  | S754_finite _ m e => -1074 <= e /\ Zpos (digits2_pos m) + e <= E
  | _ => False
  end.

(** [x] is not a negative finite number. *)
Definition not_negative (x : float) : Prop :=
  match x with
  | S754_finite s _ _ => s = false
  | _ => True
  end.

(** ** Vocabulary of the further properties *)

(** A vehicle whose coordinates are finite doubles below [2^160] and for
    whose latitude the C library's cosine is a finite double below [2]. *)
Definition bounded_vehicle (h : host) (ev : EV) : Prop :=
  finite_below 160 (ev_lat ev) /\ finite_below 160 (ev_lon ev) /\
  finite_below 1 (libm_cos h (radians (ev_lat ev))).

Definition bounded_station (station : Station) : Prop :=
  finite_below 160 (st_lat station) /\ finite_below 160 (st_lon station).

(** Whatever a provider answers is a number below [inf]. *)
Definition finite_answers (h : host) : Prop :=
  forall n v,
    osrm (network h n) = Some v \/ ors (network h n) = Some v ->
    exists d : float, v = JNumber d /\ ltb d inf = true.

(** What a run may change of a vehicle: nothing but the station it is
    assigned to, and that only to the identifier of one of [stations]. *)
Definition reassigned (stations : list Station) (ev ev' : EV) : Prop :=
  ev_id ev' = ev_id ev /\ ev_battery ev' = ev_battery ev /\
  ev_lat ev' = ev_lat ev /\ ev_lon ev' = ev_lon ev /\
  (ev_assigned_station ev' = ev_assigned_station ev \/
   exists station,
     station ∈ stations /\ ev_assigned_station ev' = Some (st_id station)).

(** The record [r] shows in the vehicles [evs]: a vehicle with the
    record's identifier is assigned to the record's station. *)
Definition reflected (evs : list EV) (r : Assignment) : Prop :=
  exists i ev,
    evs !! i = Some ev /\ ev_id ev = a_ev r /\
    ev_assigned_station ev = Some (a_station r).

(** What the simulator may change of a vehicle besides its position and
    battery level: clear the station it is assigned to. *)
Definition kept_or_cleared (ev ev' : EV) : Prop :=
  ev_id ev' = ev_id ev /\
  (ev_assigned_station ev' = ev_assigned_station ev \/
   ev_assigned_station ev' = None).

(** Two vehicles that differ at most in the station they are assigned
    to, and two stations that differ at most in their counter. *)
Definition same_vehicle (ev ev' : EV) : Prop :=
  ev_id ev' = ev_id ev /\ ev_battery ev' = ev_battery ev /\
  ev_lat ev' = ev_lat ev /\ ev_lon ev' = ev_lon ev.

Definition same_station (station station' : Station) : Prop :=
  st_id station' = st_id station /\ st_lat station' = st_lat station /\
  st_lon station' = st_lon station /\ st_capacity station' = st_capacity station.

(** The resolver's answer about a vehicle and a station does not depend
    on when it is asked. *)
Definition timeless (h : host) : Prop :=
  forall n n' ev station,
    real_distance h n ev station = real_distance h n' ev station.

(** Two states of a run that agree on all that a later turn reads or
    returns. *)
Definition same_state (s t : state) : Prop :=
  Forall2 same_vehicle (s_evs s) (s_evs t) /\
  s_stations t = s_stations s /\ s_assignments t = s_assignments s.

(** The outcome of a scan without the number of queries. *)
Definition scan_choice (r : result (option (nat * Station) * float * nat))
    : result (option (nat * Station) * float) :=
  match r with
  | Ok (best_station, best_dist, _) => Ok (best_station, best_dist)
  | Raise e => Raise e
  end.

(** The counters count the records, and a record names a vehicle and a
    station of the run. *)
Definition accounted (evs : list EV) (stations : list Station) (s : state) : Prop :=
  Forall2 grows stations (s_stations s) /\
  total_occupied (s_stations s) =
    total_occupied stations + Z.of_nat (length (s_assignments s)) /\
  Forall (fun r => a_ev r ∈ map ev_id evs /\ a_station r ∈ map st_id stations)
    (s_assignments s).

(** The number of records that name the station [id]. *)
Definition assigned_to (id : string) (records : list Assignment) : Z :=
  Z.of_nat (length (List.filter (fun r => String.eqb (a_station r) id) records)).

(** The counter of a station counts the records that name it. *)
Definition counted (records : list Assignment) (station0 station : Station) : Prop :=
  st_occupied station =
    st_occupied station0 + assigned_to (st_id station0) records.

(** Two states of a run with the same stations, records and number of
    queries; the vehicles may differ. *)
Definition same_chargers (s t : state) : Prop :=
  s_stations t = s_stations s /\ s_assignments t = s_assignments s /\
  s_clock t = s_clock s.

(** * Properties *)

(** ** The order of floats *)

Lemma ltb_irrefl (x : float) : ltb x x = false.
Proof.
  destruct x as [s|s| |s m e]; try (destruct s; reflexivity); try reflexivity.
  unfold ltb, SFltb, SFcompare.
  rewrite Z.compare_refl, Pos.compare_cont_refl. destruct s; reflexivity.
Qed.

Lemma lex_lt_trans (e1 e2 e3 : Z) (m1 m2 m3 : positive) :
  match e1 ?= e2 with Lt => Lt | Gt => Gt | Eq => Pos.compare_cont Eq m1 m2 end = Lt ->
  match e2 ?= e3 with Lt => Lt | Gt => Gt | Eq => Pos.compare_cont Eq m2 m3 end = Lt ->
  match e1 ?= e3 with Lt => Lt | Gt => Gt | Eq => Pos.compare_cont Eq m1 m3 end = Lt.
Proof.
  change (Pos.compare_cont Eq) with Pos.compare.
  destruct (Z.compare_spec e1 e2), (Z.compare_spec e2 e3), (Z.compare_spec e1 e3);
    try lia; try discriminate; try reflexivity;
    rewrite ?Pos.compare_lt_iff; try lia.
Qed.

Lemma lex_gt_trans (e1 e2 e3 : Z) (m1 m2 m3 : positive) :
  match e1 ?= e2 with Lt => Gt | Gt => Lt | Eq => CompOpp (Pos.compare_cont Eq m1 m2) end = Lt ->
  match e2 ?= e3 with Lt => Gt | Gt => Lt | Eq => CompOpp (Pos.compare_cont Eq m2 m3) end = Lt ->
  match e1 ?= e3 with Lt => Gt | Gt => Lt | Eq => CompOpp (Pos.compare_cont Eq m1 m3) end = Lt.
Proof.
  change (Pos.compare_cont Eq) with Pos.compare.
  destruct (Z.compare_spec e1 e2), (Z.compare_spec e2 e3), (Z.compare_spec e1 e3);
    try lia; try discriminate; try reflexivity;
    destruct (Pos.compare_spec m1 m2), (Pos.compare_spec m2 m3), (Pos.compare_spec m1 m3);
    simpl; try lia; try discriminate; try reflexivity.
Qed.

Lemma ltb_trans (x y z : float) :
  ltb x y = true -> ltb y z = true -> ltb x z = true.
Proof.
  unfold ltb, SFltb.
  destruct x as [[]|[]| |[] mx ex], y as [[]|[]| |[] my ey], z as [[]|[]| |[] mz ez];
    simpl; intros H1 H2; try discriminate; try reflexivity.
  - destruct (match ex ?= ey with Lt => Gt | Gt => Lt | Eq => CompOpp (Pos.compare_cont Eq mx my) end) eqn:E1; try discriminate.
    destruct (match ey ?= ez with Lt => Gt | Gt => Lt | Eq => CompOpp (Pos.compare_cont Eq my mz) end) eqn:E2; try discriminate.
    rewrite (lex_gt_trans _ _ _ _ _ _ E1 E2). reflexivity.
  - destruct (match ex ?= ey with Lt => Lt | Gt => Gt | Eq => Pos.compare_cont Eq mx my end) eqn:E1; try discriminate.
    destruct (match ey ?= ez with Lt => Lt | Gt => Gt | Eq => Pos.compare_cont Eq my mz end) eqn:E2; try discriminate.
    rewrite (lex_lt_trans _ _ _ _ _ _ E1 E2). reflexivity.
Qed.

Lemma eqb_cases (x y : float) :
  SFeqb x y = true ->
  x = y \/ exists s1 s2, x = S754_zero s1 /\ y = S754_zero s2.
Proof.
  unfold SFeqb.
  destruct x as [sx|[]| |[] mx ex], y as [sy|[]| |[] my ey];
    simpl; intros H; try discriminate; eauto.
  all: destruct (Z.compare_spec ex ey); try discriminate; subst.
  all: change (Pos.compare_cont Eq) with Pos.compare in H.
  all: destruct (Pos.compare_spec mx my); try discriminate; subst; now left.
Qed.

Lemma eqb_ltb (x y z : float) :
  SFeqb x y = true -> ltb y z = true -> ltb x z = true.
Proof.
  intros H. destruct (eqb_cases _ _ H) as [->|(s1 & s2 & -> & ->)]; [easy|].
  destruct z as [[]|[]| |[] mz ez]; cbv; congruence.
Qed.

Lemma ltb_not_eqb (x y : float) : ltb x y = true -> SFeqb y x = false.
Proof.
  intros H. destruct (SFeqb y x) eqn:E; [|reflexivity].
  rewrite <- (ltb_irrefl y). symmetry. eapply eqb_ltb; eassumption.
Qed.

Lemma ltb_asym (x y : float) : ltb x y = true -> ltb y x = false.
Proof.
  intros H. destruct (ltb y x) eqn:E; [|reflexivity].
  rewrite <- (ltb_irrefl x). symmetry. eapply ltb_trans; eassumption.
Qed.




(** ** [sorted] is a stable sort *)

Section SortedFacts.
Context {A K : Type} (lt : K -> K -> bool) (key : A -> K).

Lemma insert_sorted_perm (x : A) (l : list A) :
  Permutation (x :: l) (insert_sorted lt key x l).
Proof.
  induction l as [|y l IH]; simpl; [reflexivity|].
  destruct (lt (key y) (key x)); [|reflexivity].
  rewrite perm_swap. now apply perm_skip.
Qed.

Lemma py_sorted_perm (l : list A) : Permutation l (py_sorted lt key l).
Proof.
  induction l as [|x l IH]; simpl; [reflexivity|].
  rewrite <- insert_sorted_perm. now apply perm_skip.
Qed.

Lemma py_sorted_length (l : list A) :
  length (py_sorted lt key l) = length l.
Proof. symmetry. apply Permutation_length, py_sorted_perm. Qed.

(** [orig] is the order of the input; [before] is the order of the
    output: by key, and by the original order between equal keys. *)
Context (orig : A -> A -> Prop) (good : K -> Prop).
Hypothesis lt_asym : forall a b, lt a b = true -> lt b a = false.
Hypothesis lt_cotrans :
  forall a b c, good b -> lt a c = true -> lt a b = true \/ lt b c = true.

Definition before (a b : A) : Prop :=
  lt (key a) (key b) = true \/ (lt (key b) (key a) = false /\ orig a b).

Lemma insert_sorted_before (x : A) (l : list A) :
  Forall (fun a => good (key a)) l ->
  Forall (orig x) l ->
  StronglySorted before l ->
  StronglySorted before (insert_sorted lt key x l).
Proof.
  induction l as [|y l IH]; simpl; intros Hg Ho Hs.
  - repeat constructor.
  - inversion Hg as [|? ? Hgy Hgl]; subst.
    inversion Ho as [|? ? Hoy Hol]; subst.
    inversion Hs as [|? ? Hsl Hby]; subst.
    destruct (lt (key y) (key x)) eqn:E.
    + constructor; [now apply IH|].
      rewrite <- insert_sorted_perm. constructor; [now left|assumption].
    + constructor; [assumption|]. constructor.
      * destruct (lt (key x) (key y)) eqn:E'; [now left|now right].
      * rewrite Forall_forall in Hby, Hol |- *. intros z Hz.
        destruct (lt (key x) (key z)) eqn:Exz; [now left|right].
        split; [|now apply Hol].
        destruct (lt (key z) (key x)) eqn:Ezx; [|reflexivity].
        destruct (lt_cotrans _ (key y) _ Hgy Ezx) as [Hzy|Hyx]; [|congruence].
        destruct (Hby z Hz) as [Hyz|[Hzy' _]]; [|congruence].
        apply lt_asym in Hyz. congruence.
Qed.

Lemma py_sorted_before (l : list A) :
  Forall (fun a => good (key a)) l ->
  StronglySorted orig l ->
  StronglySorted before (py_sorted lt key l).
Proof.
  induction l as [|x l IH]; simpl; intros Hg Hs; [constructor|].
  inversion Hg; subst. inversion Hs; subst.
  apply insert_sorted_before.
  - now rewrite <- py_sorted_perm.
  - now rewrite <- py_sorted_perm.
  - now apply IH.
Qed.
End SortedFacts.

(** ** The scan of the stations *)

Lemma observed_cons_S h ev st0 rest c k st d :
  observed h ev (st0 :: rest) c (S k) st d <->
  observed h ev rest (if has_capacity st0 then S c else c) k st d.
Proof.
  unfold observed. simpl.
  destruct (has_capacity st0); simpl;
    replace (c + S (queries_before rest k))%nat
      with (S (c + queries_before rest k))%nat by lia; tauto.
Qed.

Lemma observed_cons_0 h ev st0 rest c st d :
  observed h ev (st0 :: rest) c 0 st d <->
  st = st0 /\ has_capacity st0 = true /\ real_distance h c ev st0 = Ok d.
Proof.
  unfold observed. simpl. rewrite Nat.add_0_r.
  split; [intros ([= ->] & ? & ?)|intros (-> & ? & ?)]; auto.
Qed.

Lemma scan_spec h ev rest : forall j c best bd best' bd' c',
  scan h ev rest j c best bd = Ok (best', bd', c') ->
  c' = (c + queries_before rest (length rest))%nat /\
  ((best' = best /\ bd' = bd) \/
   (exists k station,
      best' = Some ((j + k)%nat, station) /\
      observed h ev rest c k station bd' /\
      ltb bd' bd = true /\
      forall k' station' d',
        (k' < k)%nat -> observed h ev rest c k' station' d' ->
        SFeqb d' bd' = false)) /\
  (forall k station d, observed h ev rest c k station d -> ltb d bd' = false).
Proof.
  induction rest as [|st0 rest IH]; simpl; intros j c best bd best' bd' c' H.
  - injection H as <- <- <-. split; [lia|]. split; [now left|].
    intros k st d (Hk & _). destruct k; discriminate.
  - destruct (has_capacity st0) eqn:Hcap.
    + destruct (real_distance h c ev st0) as [[d0| |]|e] eqn:Hd0;
        try discriminate.
      simpl in H. destruct (ltb d0 bd) eqn:Hlt.
      * apply IH in H as (Hc & HB & HC). split; [lia|]. split.
        -- right. destruct HB as [[-> ->]|(k & st & -> & Hobs & Hlt' & Hties)].
           ++ exists 0%nat, st0. rewrite Nat.add_0_r. split; [reflexivity|].
              split; [now apply observed_cons_0|]. split; [assumption|]. lia.
           ++ exists (S k), st. rewrite Nat.add_succ_r. split; [reflexivity|].
              split; [apply observed_cons_S; now rewrite Hcap|].
              split; [eapply ltb_trans; eassumption|].
              intros [|k'] st' d' Hk' Hobs'.
              ** apply observed_cons_0 in Hobs' as (-> & _ & Hd').
                 rewrite Hd0 in Hd'. injection Hd' as <-. now apply ltb_not_eqb.
              ** apply observed_cons_S in Hobs'. rewrite Hcap in Hobs'.
                 eapply Hties; [|eassumption]. lia.
        -- intros [|k] st d Hobs.
           ++ apply observed_cons_0 in Hobs as (-> & _ & Hd).
              rewrite Hd0 in Hd. injection Hd as <-.
              destruct HB as [[_ ->]|(_ & _ & _ & _ & Hlt' & _)];
                [apply ltb_irrefl|now apply ltb_asym].
           ++ apply observed_cons_S in Hobs. rewrite Hcap in Hobs. eauto.
      * apply IH in H as (Hc & HB & HC). split; [lia|]. split.
        -- destruct HB as [[-> ->]|(k & st & -> & Hobs & Hlt' & Hties)]; [now left|].
           right. exists (S k), st. rewrite Nat.add_succ_r. split; [reflexivity|].
           split; [apply observed_cons_S; now rewrite Hcap|].
           split; [assumption|].
           intros [|k'] st' d' Hk' Hobs'.
           ** apply observed_cons_0 in Hobs' as (-> & _ & Hd').
              rewrite Hd0 in Hd'. injection Hd' as <-.
              destruct (SFeqb d0 bd') eqn:E; [|reflexivity].
              rewrite (eqb_ltb _ _ _ E Hlt') in Hlt. discriminate.
           ** apply observed_cons_S in Hobs'. rewrite Hcap in Hobs'.
              eapply Hties; [|eassumption]. lia.
        -- intros [|k] st d Hobs.
           ++ apply observed_cons_0 in Hobs as (-> & _ & Hd).
              rewrite Hd0 in Hd. injection Hd as <-.
              destruct HB as [[_ ->]|(_ & _ & _ & _ & Hlt' & _)]; [assumption|].
              destruct (ltb d0 bd') eqn:E; [|reflexivity].
              rewrite (ltb_trans _ _ _ E Hlt') in Hlt. discriminate.
           ++ apply observed_cons_S in Hobs. rewrite Hcap in Hobs. eauto.
    + apply IH in H as (Hc & HB & HC). split; [lia|]. split.
      * destruct HB as [[-> ->]|(k & st & -> & Hobs & Hlt' & Hties)]; [now left|].
        right. exists (S k), st. rewrite Nat.add_succ_r. split; [reflexivity|].
        split; [apply observed_cons_S; now rewrite Hcap|].
        split; [assumption|].
        intros [|k'] st' d' Hk' Hobs'.
        -- apply observed_cons_0 in Hobs' as (-> & Hcap' & _). congruence.
        -- apply observed_cons_S in Hobs'. rewrite Hcap in Hobs'.
           eapply Hties; [|eassumption]. lia.
      * intros [|k] st d Hobs.
        -- apply observed_cons_0 in Hobs as (-> & Hcap' & _). congruence.
        -- apply observed_cons_S in Hobs. rewrite Hcap in Hobs. eauto.
Qed.

Lemma scan_returns h ev rest : forall j c best bd,
  (forall k station, rest !! k = Some station -> has_capacity station = true ->
     returns_number (real_distance h (c + queries_before rest k) ev station)) ->
  returns (scan h ev rest j c best bd).
Proof.
  assert (Hshift : forall (n m : nat) ev' st,
    returns_number (real_distance h n ev' st) -> n = m ->
    returns_number (real_distance h m ev' st)) by (now intros n m ev' st H <-).
  induction rest as [|st0 rest IH]; simpl; intros j c best bd H.
  - now eexists.
  - destruct (has_capacity st0) eqn:Hcap.
    + destruct (H 0%nat st0 eq_refl Hcap) as [d Hd].
      simpl in Hd. rewrite Nat.add_0_r in Hd. rewrite Hd. simpl.
      destruct (ltb d bd); apply IH; intros k st Hk Hc;
        specialize (H (S k) st Hk Hc); simpl in H; rewrite ?Hcap in H;
        (eapply Hshift; [exact H|lia]).
    + apply IH. intros k st Hk Hc.
      specialize (H (S k) st Hk Hc). simpl in H. rewrite ?Hcap in H.
      eapply Hshift; [exact H|lia].
Qed.

Lemma scan_full h ev rest : forall j c best bd,
  Forall (fun station => has_capacity station = false) rest ->
  scan h ev rest j c best bd = Ok (best, bd, c).
Proof.
  induction rest as [|st0 rest IH]; simpl; intros j c best bd H; [reflexivity|].
  inversion H as [|? ? H0 Hr]; subst. rewrite H0. now apply IH.
Qed.

(** ** One vehicle's turn *)

Lemma visit_spec h s i ev s' :
  visit h s i ev = Ok s' ->
  s_clock s' =
    (s_clock s + queries_before (s_stations s) (length (s_stations s)))%nat /\
  ((exists j station d,
      observed h ev (s_stations s) (s_clock s) j station d /\
      ltb d inf = true /\
      (forall k station' d',
         observed h ev (s_stations s) (s_clock s) k station' d' ->
         ltb d' d = false) /\
      (forall k station' d',
         (k < j)%nat ->
         observed h ev (s_stations s) (s_clock s) k station' d' ->
         SFeqb d' d = false) /\
      selected h s i ev j station d s') \/
   ((forall k station d,
       observed h ev (s_stations s) (s_clock s) k station d ->
       ltb d inf = false) /\
    skipped s s')).
Proof.
  unfold visit. intros H.
  destruct (scan h ev (s_stations s) 0 (s_clock s) None inf)
    as [[[best bd] c]|e] eqn:Hscan; [|discriminate].
  simpl in H. apply scan_spec in Hscan as (Hc & HB & HC).
  destruct HB as [[-> ->]|(j & st & -> & Hobs & Hlt & Hties)].
  - injection H as <-. simpl. split; [assumption|]. right. split; [assumption|].
    repeat split.
  - injection H as <-. simpl. split; [assumption|]. left.
    exists j, st, bd. split; [assumption|]. split; [assumption|].
    split; [exact HC|]. split; [exact Hties|]. repeat split.
Qed.

Lemma visit_returns h s i ev :
  (forall k station, s_stations s !! k = Some station ->
     has_capacity station = true ->
     returns_number
       (real_distance h (s_clock s + queries_before (s_stations s) k) ev station)) ->
  returns (visit h s i ev).
Proof.
  intros H. unfold visit.
  destruct (scan_returns h ev (s_stations s) 0 (s_clock s) None inf H)
    as [[[best bd] c] ->].
  simpl. destruct best as [[j st]|]; now eexists.
Qed.

Lemma visit_full h s i ev :
  Forall (fun station => has_capacity station = false) (s_stations s) ->
  visit h s i ev = Ok s.
Proof.
  intros H. unfold visit. rewrite scan_full by assumption. simpl.
  now destruct s.
Qed.

(** ** What a run preserves *)

Lemma visit_all_invariant h (P : state -> Prop) :
  (forall s i ev s', P s -> visit h s i ev = Ok s' -> P s') ->
  forall order s, P s -> P (fst (visit_all h order s)).
Proof.
  intros Hstep. induction order as [|[i ev] order IH]; simpl; intros s Hs.
  - assumption.
  - destruct (visit h s i ev) as [s'|e] eqn:Hv; [|assumption].
    apply IH. eapply Hstep; eassumption.
Qed.

Lemma grows_refl (stations : list Station) : Forall2 grows stations stations.
Proof.
  apply Forall_Forall2_diag, Forall_forall. intros st _.
  unfold grows. repeat split; lia.
Qed.

Lemma has_capacity_lt (station : Station) :
  has_capacity station = true <-> st_occupied station < st_capacity station.
Proof. unfold has_capacity. apply Z.ltb_lt. Qed.

Lemma has_capacity_ge (station : Station) :
  has_capacity station = false <-> st_capacity station <= st_occupied station.
Proof. unfold has_capacity. apply Z.ltb_ge. Qed.

Lemma visit_grows h stations0 s i ev s' :
  Forall2 grows stations0 (s_stations s) ->
  visit h s i ev = Ok s' ->
  Forall2 grows stations0 (s_stations s').
Proof.
  intros Hinv Hv. apply visit_spec in Hv as (_ & Hv).
  destruct Hv as [(j & st & d & (Hj & Hcap & _) & _ & _ & _ & _ & -> & _)
                 |(_ & _ & -> & _)]; [|assumption].
  apply Forall2_alter_r; [assumption|].
  intros st0 st' _ Hj' (Hid & Hlat & Hlon & Hc & Hlo & Hhi).
  rewrite Hj in Hj'. injection Hj' as <-.
  apply has_capacity_lt in Hcap.
  unfold grows, occupy. simpl. repeat split; try assumption; lia.
Qed.

Lemma assign_charging_grows h clock evs stations :
  Forall2 grows stations (s_stations (fst (assign_charging h clock evs stations))).
Proof.
  unfold assign_charging.
  pose proof (visit_all_invariant h
    (fun s => Forall2 grows stations (s_stations s))
    (fun s i ev s' => visit_grows h stations s i ev s')
    (evs_sorted evs) (initial clock evs stations) (grows_refl stations)) as H.
  destruct (visit_all _ _ _) as [s raised]. exact H.
Qed.

(** ** Counting chargers *)

Lemma total_occupied_le (stations : list Station) :
  Forall within_capacity stations ->
  total_occupied stations <= total_capacity stations.
Proof.
  induction 1 as [|st l H _ IH]; simpl; [lia|]. unfold within_capacity in H. lia.
Qed.

Lemma all_full (stations : list Station) :
  Forall within_capacity stations ->
  total_capacity stations <= total_occupied stations ->
  Forall (fun station => has_capacity station = false) stations.
Proof.
  induction 1 as [|st l H Hl IH]; simpl; intros Hle; [constructor|].
  pose proof (total_occupied_le l Hl). unfold within_capacity in H.
  constructor; [apply has_capacity_ge; lia|apply IH; lia].
Qed.

Lemma some_free (stations : list Station) :
  total_occupied stations < total_capacity stations ->
  exists k station, stations !! k = Some station /\ has_capacity station = true.
Proof.
  induction stations as [|st l IH]; simpl; intros Hlt; [lia|].
  destruct (has_capacity st) eqn:Hcap.
  - now exists 0%nat, st.
  - apply has_capacity_ge in Hcap.
    destruct IH as (k & st' & Hk & Hc); [lia|]. now exists (S k), st'.
Qed.

Lemma total_occupied_occupy (stations : list Station) j station :
  stations !! j = Some station ->
  total_occupied (alter occupy j stations) = total_occupied stations + 1.
Proof.
  revert j. induction stations as [|st l IH]; intros [|j] Hj; simpl in *;
    try discriminate.
  - injection Hj as ->. lia.
  - specialize (IH j Hj). unfold alter in IH. lia.
Qed.

Lemma total_capacity_occupy (stations : list Station) j :
  total_capacity (alter occupy j stations) = total_capacity stations.
Proof.
  revert j. induction stations as [|st l IH]; intros [|j]; simpl;
    try reflexivity. specialize (IH j). unfold alter in IH. lia.
Qed.

Lemma within_capacity_occupy (stations : list Station) j station :
  Forall within_capacity stations ->
  stations !! j = Some station -> has_capacity station = true ->
  Forall within_capacity (alter occupy j stations).
Proof.
  intros H Hj Hcap. apply Forall_alter; [assumption|].
  intros st Hj' _. rewrite Hj in Hj'. injection Hj' as <-.
  apply has_capacity_lt in Hcap. unfold within_capacity, occupy. simpl. lia.
Qed.

(** ** The resolver's contract *)

Lemma grows_place stations0 stations k station :
  Forall2 grows stations0 stations ->
  stations !! k = Some station ->
  place station ∈ map place stations0.
Proof.
  intros H Hk. destruct (Forall2_lookup_r _ _ _ _ _ H Hk) as (st0 & Hk0 & Hg).
  destruct Hg as (_ & Hlat & Hlon & _).
  replace (place station) with (place st0)
    by (unfold place; now rewrite Hlat, Hlon).
  apply list_elem_of_fmap. exists st0. split; [reflexivity|].
  eapply list_elem_of_lookup_2; eassumption.
Qed.

(** With that contract a turn selects a station as soon as one has a free
    charger. *)
Lemma visit_selects h evs stations0 s i ev :
  numeric h evs stations0 -> ev ∈ evs ->
  Forall2 grows stations0 (s_stations s) ->
  (exists k station,
     s_stations s !! k = Some station /\ has_capacity station = true) ->
  exists s' j station d,
    visit h s i ev = Ok s' /\
    observed h ev (s_stations s) (s_clock s) j station d /\
    selected h s i ev j station d s'.
Proof.
  intros Hnum Hev Hg (k & st & Hk & Hcap).
  destruct (visit_returns h s i ev) as [s' Hv].
  { intros k' st' Hk' _.
    destruct (Hnum (s_clock s + queries_before (s_stations s) k')%nat ev st' Hev)
      as (d & -> & _); [eapply grows_place; eassumption|now eexists]. }
  exists s'. destruct (visit_spec _ _ _ _ _ Hv) as (_ & [Hsel|[Hnone _]]).
  - destruct Hsel as (j & st' & d & Hobs & _ & _ & _ & Hsel). now exists j, st', d.
  - exfalso.
    destruct (Hnum (s_clock s + queries_before (s_stations s) k)%nat ev st Hev)
      as (d & Hd & Hlt); [eapply grows_place; eassumption|].
    rewrite (Hnone k st d) in Hlt; [discriminate|]. now split.
Qed.

(** ** The shape of a whole run *)

Lemma run_shape h evs stations0 : forall order s,
  numeric h evs stations0 ->
  Forall (fun p => snd p ∈ evs) order ->
  Forall2 grows stations0 (s_stations s) ->
  Forall within_capacity (s_stations s) ->
  exists s' new,
    visit_all h order s = (s', None) /\
    s_assignments s' = s_assignments s ++ new /\
    map a_ev new =
      map (fun p => ev_id (snd p)) (take (served order (s_stations s)) order) /\
    total_occupied (s_stations s') =
      total_occupied (s_stations s) + Z.of_nat (served order (s_stations s)) /\
    total_capacity (s_stations s') = total_capacity (s_stations s) /\
    (forall k, k ∉ map fst (take (served order (s_stations s)) order) ->
       s_evs s' !! k = s_evs s !! k).
Proof.
  intros order s Hnum. revert s.
  induction order as [|[i ev] order IH]; intros s Hevs Hg Hw.
  - exists s, []. simpl. rewrite app_nil_r.
    replace (served [] (s_stations s)) with 0%nat
      by (unfold served; simpl; lia).
    repeat split; try reflexivity; lia.
  - inversion Hevs as [|? ? Hev Hevs']; subst. simpl in Hev.
    pose proof (total_occupied_le _ Hw) as Hle.
    destruct (Z.eq_dec (total_occupied (s_stations s)) (total_capacity (s_stations s)))
      as [Hfull|Hfree].
    + assert (Hful : Forall (fun st => has_capacity st = false) (s_stations s))
        by (apply all_full; [assumption|lia]).
      simpl. rewrite (visit_full h s i ev Hful).
      destruct (IH s Hevs' Hg Hw) as (s' & new & Hrun & Ha & Hids & Hocc & Hcap & Hfr).
      assert (E0 : served ((i, ev) :: order) (s_stations s) = 0%nat)
        by (unfold served, free_chargers; lia).
      assert (E1 : served order (s_stations s) = 0%nat)
        by (unfold served, free_chargers; lia).
      rewrite E0. rewrite E1 in *. exists s', new. repeat split; assumption.
    + destruct (visit_selects h evs stations0 s i ev Hnum Hev Hg)
        as (s1 & j & st & d & Hv & (Hj & Hc & Hd) & Hevs1 & Hsts1 & Has1).
      { apply some_free. lia. }
      simpl. rewrite Hv.
      assert (Hg1 : Forall2 grows stations0 (s_stations s1))
        by (eapply visit_grows; eassumption).
      assert (Hw1 : Forall within_capacity (s_stations s1))
        by (rewrite Hsts1; eapply within_capacity_occupy; eassumption).
      assert (Ho1 : total_occupied (s_stations s1) = total_occupied (s_stations s) + 1)
        by (rewrite Hsts1; eapply total_occupied_occupy; eassumption).
      assert (Hc1 : total_capacity (s_stations s1) = total_capacity (s_stations s))
        by (rewrite Hsts1; apply total_capacity_occupy).
      destruct (IH s1 Hevs' Hg1 Hw1) as (s' & new & Hrun & Ha & Hids & Hocc & Hcap & Hfr).
      assert (E : served ((i, ev) :: order) (s_stations s)
                  = S (served order (s_stations s1))).
      { unfold served, free_chargers. rewrite Ho1, Hc1. simpl length. lia. }
      rewrite E.
      exists s', ({| a_ev := ev_id ev; a_station := st_id st;
                     a_distance_m := round2 h d |} :: new).
      split; [assumption|]. split.
      { rewrite Ha, Has1, <- app_assoc. reflexivity. }
      split; [simpl; now rewrite Hids|].
      split; [lia|]. split; [lia|].
      intros k Hk. simpl in Hk. rewrite Hfr.
      * rewrite Hevs1. apply list_lookup_alter_ne. intros ->. apply Hk. now left.
      * intros Hin. apply Hk. now right.
Qed.

(** ** The processing order *)

Lemma StronglySorted_weaken {A} (R1 R2 : A -> A -> Prop) (l : list A) :
  (forall a b, R1 a b -> R2 a b) ->
  StronglySorted R1 l -> StronglySorted R2 l.
Proof.
  intros Himp. induction 1 as [|a l _ IH Hall]; constructor; [assumption|].
  eapply Forall_impl; [eassumption|]. intros b. apply Himp.
Qed.

Lemma imap_pair_sorted {A} (l : list A) : forall k : nat,
  StronglySorted (fun p q => (fst p < fst q)%nat)
    (imap (fun i x => ((k + i)%nat, x)) l).
Proof.
  induction l as [|x l IH]; intros k; [constructor|].
  rewrite imap_cons.
  rewrite (imap_ext _ (fun i x => ((S k + i)%nat, x)))
    by (intros; simpl; f_equal; lia).
  constructor; [apply IH|].
  apply Forall_lookup. intros i [j y] Hi.
  rewrite list_lookup_imap in Hi. destruct (l !! i); [|discriminate].
  injection Hi as <- <-. simpl. lia.
Qed.

Lemma evs_sorted_perm (evs : list EV) :
  Permutation (imap pair evs) (evs_sorted evs).
Proof. apply py_sorted_perm. Qed.

Lemma evs_sorted_order (evs : list EV) :
  StronglySorted served_before (evs_sorted evs).
Proof.
  eapply StronglySorted_weaken;
    [|apply (py_sorted_before Z.ltb (fun p => ev_battery (snd p))
               (fun p q : nat * EV => (fst p < fst q)%nat) (fun _ => True))].
  - intros p q [H|[H Ho]]; unfold served_before.
    + left. now apply Z.ltb_lt.
    + apply Z.ltb_ge in H.
      destruct (Z.eq_dec (ev_battery (snd p)) (ev_battery (snd q))); [now right|left; lia].
  - intros a b H. apply Z.ltb_lt in H. apply Z.ltb_ge. lia.
  - intros a b c _ H. apply Z.ltb_lt in H.
    destruct (Z.ltb_spec a b); [now left|right]. apply Z.ltb_lt. lia.
  - apply Forall_forall. trivial.
  - rewrite (imap_ext _ (fun i x => ((0 + i)%nat, x))) by reflexivity.
    apply imap_pair_sorted.
Qed.

Lemma evs_sorted_lookup (evs : list EV) (i : nat) (ev : EV) :
  (i, ev) ∈ evs_sorted evs <-> evs !! i = Some ev.
Proof.
  rewrite <- evs_sorted_perm. rewrite list_elem_of_lookup. split.
  - intros (k & Hk). rewrite list_lookup_imap in Hk.
    destruct (evs !! k) eqn:E; [|discriminate]. injection Hk as <- <-. assumption.
  - intros H. exists i. now rewrite list_lookup_imap, H.
Qed.

Lemma evs_sorted_elem (evs : list EV) :
  Forall (fun p => snd p ∈ evs) (evs_sorted evs).
Proof.
  apply Forall_forall. intros [i ev] H. apply evs_sorted_lookup in H.
  eapply list_elem_of_lookup_2. eassumption.
Qed.

Lemma evs_sorted_positions (evs : list EV) :
  Permutation (map fst (evs_sorted evs)) (seq 0 (length evs)).
Proof.
  rewrite <- evs_sorted_perm.
  replace (map fst (imap pair evs)) with (seq 0 (length evs)); [reflexivity|].
  apply list_eq. intros i.
  change (map fst (imap pair evs)) with (fst <$> imap pair evs).
  rewrite list_lookup_fmap, list_lookup_imap.
  destruct (evs !! i) eqn:E; simpl.
  - apply lookup_seq. split; [reflexivity|]. eapply lookup_lt_Some. eassumption.
  - apply lookup_seq_ge. now apply lookup_ge_None.
Qed.

Lemma evs_sorted_ids (evs : list EV) :
  Permutation (map (fun p => ev_id (snd p)) (evs_sorted evs)) (map ev_id evs).
Proof.
  rewrite <- evs_sorted_perm.
  replace (map (fun p => ev_id (snd p)) (imap pair evs)) with (map ev_id evs);
    [reflexivity|].
  apply list_eq. intros i.
  change (map ?f ?l) with (f <$> l).
  rewrite !list_lookup_fmap, list_lookup_imap. now destruct (evs !! i).
Qed.

Lemma visit_all_app h (pre post : list (nat * EV)) (s : state) :
  visit_all h (pre ++ post) s =
    match visit_all h pre s with
    | (s1, None) => visit_all h post s1
    | stopped => stopped
    end.
Proof.
  revert s. induction pre as [|[i ev] pre IH]; intros s; simpl; [reflexivity|].
  destruct (visit h s i ev); [apply IH|reflexivity].
Qed.

(** A turn touches no vehicle but its own. *)
Lemma visit_frame h s i ev s' k :
  visit h s i ev = Ok s' -> k <> i -> s_evs s' !! k = s_evs s !! k.
Proof.
  intros Hv Hk. apply visit_spec in Hv as (_ & Hv).
  destruct Hv as [(j & st & d & _ & _ & _ & _ & -> & _)|(_ & -> & _)];
    [|reflexivity].
  apply list_lookup_alter_ne. congruence.
Qed.

Lemma visit_all_frame h order : forall s k,
  k ∉ map fst order ->
  s_evs (fst (visit_all h order s)) !! k = s_evs s !! k.
Proof.
  induction order as [|[i ev] order IH]; simpl; intros s k Hk; [reflexivity|].
  destruct (visit h s i ev) as [s'|e] eqn:Hv; [|reflexivity].
  rewrite IH by (intros Hin; apply Hk; now right).
  eapply visit_frame; [eassumption|]. intros ->. apply Hk. now left.
Qed.

(** The records come out in processing order, at most one per turn. *)
Lemma visit_all_records h order : forall s,
  exists new,
    s_assignments (fst (visit_all h order s)) = s_assignments s ++ new /\
    map a_ev new `sublist_of` map (fun p => ev_id (snd p)) order.
Proof.
  induction order as [|[i ev] order IH]; simpl; intros s.
  - exists []. rewrite app_nil_r. split; [reflexivity|constructor].
  - destruct (visit h s i ev) as [s'|e] eqn:Hv.
    + destruct (IH s') as (new & Hnew & Hsub). rewrite Hnew.
      apply visit_spec in Hv as (_ & Hv).
      destruct Hv as [(j & st & d & _ & _ & _ & _ & _ & _ & ->)|(_ & _ & _ & ->)].
      * eexists (_ :: new). rewrite <- app_assoc. split; [reflexivity|].
        simpl. now apply sublist_skip.
      * exists new. split; [reflexivity|]. now apply sublist_cons.
    + exists []. rewrite app_nil_r. split; [reflexivity|]. apply sublist_nil_l.
Qed.

Lemma assign_charging_unfold h clock evs stations :
  assign_charging h clock evs stations =
    (fst (visit_all h (evs_sorted evs) (initial clock evs stations)),
     match snd (visit_all h (evs_sorted evs) (initial clock evs stations)) with
     | None =>
         Ok (s_assignments
               (fst (visit_all h (evs_sorted evs) (initial clock evs stations))))
     | Some e => Raise e
     end).
Proof.
  unfold assign_charging. now destruct (visit_all _ _ _).
Qed.

(** A turn leaves every counter alone, but for the selected station's,
    which it finds below the capacity and raises by one. *)
Lemma visit_counters h s i ev s' :
  visit h s i ev = Ok s' ->
  Forall2 (fun station station' =>
             station' = station \/
             (st_occupied station < st_capacity station /\
              station' = occupy station))
    (s_stations s) (s_stations s').
Proof.
  intros Hv. apply visit_spec in Hv as (_ & Hv).
  destruct Hv as [(j & st & d & (Hj & Hcap & _) & _ & _ & _ & _ & -> & _)
                 |(_ & _ & -> & _)].
  - apply Forall2_alter_r.
    + apply Forall_Forall2_diag, Forall_forall. intros; now left.
    + intros x y Hx Hy _. rewrite Hj in Hx, Hy.
      injection Hx as <-. injection Hy as <-.
      right. split; [now apply has_capacity_lt|reflexivity].
  - apply Forall_Forall2_diag, Forall_forall. intros; now left.
Qed.

Lemma grows_from_zero stations0 stations :
  Forall (fun station => st_occupied station = 0) stations0 ->
  Forall2 grows stations0 stations ->
  Forall2 (fun station0 station =>
             st_capacity station = st_capacity station0 /\
             0 <= st_occupied station /\
             (0 <= st_capacity station ->
              st_occupied station <= st_capacity station))
    stations0 stations.
Proof.
  intros Hz Hg. induction Hg as [|a b l1 l2 Hab _ IH]; [constructor|].
  inversion Hz as [|? ? Ha Hl]; subst. constructor; [|now apply IH].
  destruct Hab as (_ & _ & _ & Hc & Hlo & Hhi). rewrite Ha in *.
  repeat split; [assumption|lia|]. intros Hcap. rewrite Hc in *. lia.
Qed.

(** ** Two vehicles and one charger *)

Lemma one_charger_two_vehicles h clock (V1 V2 : EV) (station : Station) (d1 : float) :
  ev_battery V1 < ev_battery V2 ->
  st_capacity station = 1 -> st_occupied station = 0 ->
  real_distance h clock V1 station = Ok d1 -> ltb d1 inf = true ->
  let record :=
    {| a_ev := ev_id V1; a_station := st_id station;
       a_distance_m := round2 h d1 |} in
  assign_charging h clock [V1; V2] [station] =
    ({| s_evs := [set_assigned_station (Some (st_id station)) V1; V2];
        s_stations := [occupy station];
        s_assignments := [record]; s_clock := S clock |},
     Ok [record]) /\
  assign_charging h clock [V2; V1] [station] =
    ({| s_evs := [V2; set_assigned_station (Some (st_id station)) V1];
        s_stations := [occupy station];
        s_assignments := [record]; s_clock := S clock |},
     Ok [record]).
Proof.
  intros Hbat Hcap Hocc Hd Hlt record.
  assert (Hfree : has_capacity station = true)
    by (apply has_capacity_lt; lia).
  assert (Hfull : has_capacity (occupy station) = false)
    by (apply has_capacity_ge; unfold occupy; simpl; lia).
  assert (H12 : (ev_battery V2 <? ev_battery V1) = false) by (apply Z.ltb_ge; lia).
  assert (H21 : (ev_battery V1 <? ev_battery V2) = true) by (apply Z.ltb_lt; lia).
  split.
  - unfold assign_charging, evs_sorted, py_sorted. simpl. rewrite H12. simpl.
    unfold visit at 1. simpl. rewrite Hfree, Hd. simpl. rewrite Hlt. simpl.
    unfold visit. simpl. rewrite Hfull. reflexivity.
  - unfold assign_charging, evs_sorted, py_sorted. simpl. rewrite H21. simpl.
    unfold visit at 1. simpl. rewrite Hfree, Hd. simpl. rewrite Hlt. simpl.
    unfold visit. simpl. rewrite Hfull. reflexivity.
Qed.

(** ** A turn inside a run *)

Lemma evs_sorted_split (evs : list EV) pre i ev post :
  evs_sorted evs = pre ++ (i, ev) :: post ->
  evs !! i = Some ev /\ (i ∉ map fst pre) /\ (i ∉ map fst post).
Proof.
  intros Hsplit. split.
  - apply evs_sorted_lookup. rewrite Hsplit.
    apply elem_of_app. right. now left.
  - assert (Hnd : NoDup (map fst (evs_sorted evs))).
    { rewrite evs_sorted_positions. apply NoDup_seq. }
    rewrite Hsplit, map_app in Hnd. simpl in Hnd.
    apply NoDup_app in Hnd as (_ & Hdisj & Hnd).
    apply NoDup_cons in Hnd as (Hpost & _). split; [|assumption].
    intros Hin. apply (Hdisj i Hin). now left.
Qed.

Lemma visit_all_full h order : forall s,
  Forall (fun station => has_capacity station = false) (s_stations s) ->
  visit_all h order s = (s, None).
Proof.
  induction order as [|[i ev] order IH]; intros s Hfull; simpl; [reflexivity|].
  rewrite visit_full by assumption. now apply IH.
Qed.

(** When every query of the turn returns a number below [inf] and a
    station has a free charger, the turn selects a station. *)
Lemma turn_selects h s i ev :
  (forall k station,
     s_stations s !! k = Some station -> has_capacity station = true ->
     exists d : float,
       real_distance h (s_clock s + queries_before (s_stations s) k) ev station
         = Ok d /\ ltb d inf = true) ->
  (exists k station,
     s_stations s !! k = Some station /\ has_capacity station = true) ->
  exists s' j station d,
    visit h s i ev = Ok s' /\
    observed h ev (s_stations s) (s_clock s) j station d /\
    (forall k station' d',
       observed h ev (s_stations s) (s_clock s) k station' d' ->
       ltb d' d = false) /\
    (forall k station' d',
       (k < j)%nat ->
       observed h ev (s_stations s) (s_clock s) k station' d' ->
       SFeqb d' d = false) /\
    selected h s i ev j station d s'.
Proof.
  intros Hnum (k & st & Hk & Hcap).
  destruct (visit_returns h s i ev) as [s' Hv].
  { intros k' st' Hk' Hc'. destruct (Hnum k' st' Hk' Hc') as (d & -> & _).
    now eexists. }
  exists s'. destruct (visit_spec _ _ _ _ _ Hv) as (_ & [Hsel|[Hnone _]]).
  - destruct Hsel as (j & st' & d & Hobs & _ & Hmin & Hties & Hsel).
    now exists j, st', d.
  - exfalso. destruct (Hnum k st Hk Hcap) as (d & Hd & Hlt).
    rewrite (Hnone k st d) in Hlt; [discriminate|]. now split.
Qed.

(** The run of [assign_charging] under the resolver's contract: it
    returns, the vehicles that get a record are the first [served] of the
    processing order, and no other vehicle is touched. *)
Lemma assign_charging_shape h clock evs stations :
  numeric h evs stations ->
  Forall within_capacity stations ->
  exists s records,
    assign_charging h clock evs stations = (s, Ok records) /\
    map a_ev records =
      map (fun p => ev_id (snd p))
        (take (served (evs_sorted evs) stations) (evs_sorted evs)) /\
    total_occupied (s_stations s) =
      total_occupied stations + Z.of_nat (served (evs_sorted evs) stations) /\
    (forall k,
       k ∉ map fst (take (served (evs_sorted evs) stations) (evs_sorted evs)) ->
       s_evs s !! k = evs !! k).
Proof.
  intros Hnum Hw.
  destruct (run_shape h evs stations (evs_sorted evs) (initial clock evs stations)
              Hnum (evs_sorted_elem evs) (grows_refl stations) Hw)
    as (s & new & Hrun & Ha & Hids & Hocc & _ & Hfr).
  exists s, new. simpl in Ha, Hids, Hocc, Hfr.
  unfold assign_charging. rewrite Hrun, Ha. auto.
Qed.

Lemma served_length (evs : list EV) (stations : list Station) :
  0 <= free_chargers stations ->
  Z.of_nat (served (evs_sorted evs) stations) =
    Z.min (Z.of_nat (length evs)) (free_chargers stations).
Proof.
  intros H. unfold served, evs_sorted.
  rewrite py_sorted_length, length_imap. lia.
Qed.

Lemma total_occupied_zero (stations : list Station) :
  Forall (fun station => st_occupied station = 0) stations ->
  total_occupied stations = 0.
Proof. induction 1 as [|st l H _ IH]; simpl; lia. Qed.

(** ** The fallback and the formula *)

Lemma math_1_value (r x v : float) : math_1 r x = Ok v -> v = r.
Proof.
  unfold math_1. destruct (is_nan r && negb (is_nan x)); [discriminate|].
  destruct (is_inf r && is_finite x); [discriminate|]. now intros [= <-].
Qed.

Lemma c_pow2_one (off : float -> bool) (x : float) :
  SFeqb (abs x) one = true -> c_pow2 off x = one.
Proof.
  intros H. apply eqb_cases in H as [H|(s1 & s2 & _ & H)]; [|discriminate H].
  destruct x as [s|s| |s m e]; try discriminate H.
  injection H as -> ->. unfold c_pow2.
  destruct (off _); vm_compute; reflexivity.
Qed.

(** Where the C library's [pow] rounds to nearest, the square is the
    IEEE product. *)
Lemma round_off_nearest (m : Z) (l : location) :
  round_off false m l = round_nearest_even m l.
Proof. destruct l; reflexivity. Qed.

Lemma faithful_round_nearest (sx : bool) (mx ex : Z) :
  faithful_round false sx mx ex = binary_round_aux prec emax sx mx ex loc_Exact.
Proof.
  unfold faithful_round, binary_round_aux.
  destruct (shr_fexp prec emax mx ex loc_Exact) as [mrs e].
  now rewrite round_off_nearest.
Qed.

Lemma c_pow2_nearest (off : float -> bool) (x : float) :
  off (abs x) = false -> c_pow2 off x = SFmul prec emax x x.
Proof.
  destruct x as [s|s| |s m e]; simpl.
  - now destruct s.
  - now destruct s.
  - reflexivity.
  - intros ->. rewrite faithful_round_nearest. now destruct s.
Qed.

(** What [x ** 2] returns is the C library's square. *)
Lemma pow2_value (off : float -> bool) (x a : float) :
  pow2 off x = Ok a -> a = c_pow2 off x.
Proof.
  destruct x as [s|s| |s m e]; simpl; try (now intros [= <-]).
  destruct (SFeqb (S754_finite false m e) one) eqn:Hone.
  - intros [= <-]. symmetry. exact (c_pow2_one off (S754_finite s m e) Hone).
  - destruct (is_inf _); [discriminate|]. now intros [= <-].
Qed.

Lemma radians_formula (x : float) :
  SFmul prec emax x (SFdiv prec emax PI (of_Z 180)) = radians x.
Proof. unfold radians, mul. f_equal. Qed.

(** What the fallback returns is the value of the formula. *)
Lemma flat_earth_value cosine off lat1 lon1 lat2 lon2 v :
  flat_earth cosine off lat1 lon1 lat2 lon2 = Ok v ->
  v = flat_earth_formula (c_cos cosine) (c_pow2 off) (lat1, lon1) (lat2, lon2).
Proof.
  unfold flat_earth, mbind, result_bind.
  destruct (cos cosine (radians lat1)) as [c|e] eqn:Hc; [|discriminate].
  apply math_1_value in Hc. subst c.
  destruct (pow2 off _) as [a|e] eqn:Ha; [|discriminate].
  apply pow2_value in Ha. subst a.
  destruct (pow2 off _) as [b|e] eqn:Hb; [|discriminate].
  apply pow2_value in Hb. subst b.
  intros H. apply math_1_value in H. subst v. reflexivity.
Qed.

Lemma flat_earth_infinite_latitude cosine off lat1 lon1 lat2 lon2 :
  is_inf lat1 = true ->
  flat_earth cosine off lat1 lon1 lat2 lon2 = Raise ValueError.
Proof.
  intros H. unfold flat_earth.
  destruct lat1 as [s|s| |s m e]; try discriminate. now destruct s.
Qed.

Lemma real_distance_fallback h n ev station :
  osrm (network h n) = None ->
  truthy (ORS_API_KEY h) = None \/ ors (network h n) = None ->
  real_distance h n ev station =
    as_json (flat_earth (libm_cos h) (libm_pow_off h)
               (ev_lat ev) (ev_lon ev) (st_lat station) (st_lon station)).
Proof.
  intros H1 H2. unfold real_distance, real_distance_run. rewrite H1.
  destruct H2 as [-> | ->]; [reflexivity|].
  now destruct (truthy (ORS_API_KEY h)).
Qed.

(** ** The simulator *)

Lemma randint_range g k a b : a <= b -> a <= randint g k a b <= b.
Proof.
  intros H. unfold randint.
  pose proof (Z.mod_pos_bound (entropy g k) (b - a + 1) ltac:(lia)). lia.
Qed.

Lemma drive_drained g k ev :
  drained (randint g (k + 2) 0 2) ev (drive g k ev).
Proof.
  unfold drained, drive.
  destruct (Z.eqb_spec (Z.max 0 (ev_battery ev - randint g (k + 2) 0 2)) 0)
    as [E|E]; simpl; repeat split; intros; try reflexivity; contradiction.
Qed.

Lemma drive_battery g k ev :
  0 <= ev_battery ev <= 100 -> 0 < ev_battery (drive g k ev) <= 100.
Proof.
  intros H. pose proof (randint_range g (k + 2) 0 2 ltac:(lia)) as Hr.
  unfold drive.
  destruct (Z.eqb_spec (Z.max 0 (ev_battery ev - randint g (k + 2) 0 2)) 0);
    simpl; lia.
Qed.

Lemma simulate_battery g evs : forall k,
  Forall (fun ev => 0 <= ev_battery ev <= 100) evs ->
  Forall (fun ev => 0 < ev_battery ev <= 100) (simulate_ev_movement g k evs).
Proof.
  induction evs as [|ev evs IH]; simpl; intros k H; [constructor|].
  inversion H; subst. constructor; [now apply drive_battery|now apply IH].
Qed.

Lemma run_scheduler_battery g ticks : forall k fleet,
  Forall (fun ev => 0 < ev_battery ev <= 100) (evs fleet) ->
  Forall (fun ev => 0 < ev_battery ev <= 100)
    (evs (run_scheduler g ticks k fleet)).
Proof.
  induction ticks as [|ticks IH]; simpl; intros k fleet H; [assumption|].
  apply IH. simpl. apply simulate_battery.
  eapply Forall_impl; [exact H|]. simpl. intros; lia.
Qed.

(** ** The broadcast *)

Lemma remove_first_middle (c : WebSocket) (kept rest : list WebSocket) :
  c ∉ kept -> remove_first c (kept ++ c :: rest) = kept ++ rest.
Proof.
  induction kept as [|x kept IH]; simpl; intros Hc.
  - now rewrite Nat.eqb_refl.
  - destruct (Nat.eqb_spec x c) as [->|_].
    + exfalso. apply Hc. now left.
    + rewrite IH; [reflexivity|]. intros Hin. apply Hc. now right.
Qed.

Lemma send_each_delivered wire snapshot : forall k active delivered,
  snd (send_each wire k snapshot active delivered) =
    delivered ++ succeeded wire k snapshot.
Proof.
  induction snapshot as [|c rest IH]; simpl; intros k active delivered.
  - now rewrite app_nil_r.
  - destruct (wire k c); rewrite IH; [now rewrite <- app_assoc|reflexivity].
Qed.

Lemma send_each_active wire rest : forall k kept delivered,
  NoDup (kept ++ rest) ->
  fst (send_each wire k rest (kept ++ rest) delivered) =
    kept ++ succeeded wire k rest.
Proof.
  induction rest as [|c rest IH]; simpl; intros k kept delivered Hnd.
  - reflexivity.
  - destruct (wire k c).
    + replace (kept ++ c :: rest) with ((kept ++ [c]) ++ rest)
        by now rewrite <- app_assoc.
      rewrite IH; [now rewrite <- app_assoc|]. now rewrite <- app_assoc.
    + apply NoDup_app in Hnd as (Hk & Hdisj & Hr).
      apply NoDup_cons in Hr as (Hc & Hr).
      rewrite remove_first_middle.
      * apply IH. apply NoDup_app. repeat split; [assumption| |assumption].
        intros x Hx Hin. apply (Hdisj x Hx). now right.
      * intros Hin. apply (Hdisj c Hin). now left.
Qed.

Lemma elem_of_succeeded wire snapshot : forall k c,
  c ∈ succeeded wire k snapshot <->
  exists i, snapshot !! i = Some c /\ wire (k + i)%nat c = true.
Proof.
  induction snapshot as [|x rest IH]; simpl; intros k c.
  - split; [intros H; inversion H|intros (i & H & _); discriminate].
  - split.
    + intros H. destruct (wire k x) eqn:E.
      * apply elem_of_cons in H as [->|H].
        -- exists 0%nat. now rewrite Nat.add_0_r.
        -- apply IH in H as (i & Hi & Hw). exists (S i).
           now rewrite Nat.add_succ_r.
      * apply IH in H as (i & Hi & Hw). exists (S i).
        now rewrite Nat.add_succ_r.
    + intros ([|i] & Hi & Hw); simpl in Hi.
      * injection Hi as ->. rewrite Nat.add_0_r in Hw. rewrite Hw. now left.
      * rewrite Nat.add_succ_r in Hw.
        assert (c ∈ succeeded wire (S k) rest) by (apply IH; eauto).
        destruct (wire k x); [now right|assumption].
Qed.

Lemma broadcast_spec {M} wire (message : M) m :
  NoDup (active_connections m) ->
  broadcast wire message m =
    ({| active_connections := succeeded wire 0 (active_connections m) |},
     map (fun connection => (connection, message))
       (succeeded wire 0 (active_connections m))).
Proof.
  intros Hnd. unfold broadcast.
  pose proof (send_each_active wire (active_connections m) 0 [] [] Hnd) as Ha.
  pose proof (send_each_delivered wire (active_connections m) 0
                (active_connections m) []) as Hd.
  simpl in Ha, Hd. destruct (send_each _ _ _ _ _) as [active delivered].
  simpl in Ha, Hd. now subst.
Qed.

(** ** The nearby-stations query *)

Lemma query_all_numbers h ev l : forall c,
  (forall n station,
     station ∈ l -> returns_number (real_distance h n ev station)) ->
  exists ds : list float,
    query_all h c ev l = Ok (map JNumber ds) /\
    Forall2 (answered h ev) l ds.
Proof.
  induction l as [|st l IH]; simpl; intros c H.
  - exists []. split; [reflexivity|constructor].
  - destruct (H c st ltac:(now left)) as [d Hd]. rewrite Hd. simpl.
    destruct (IH (S c)) as (ds & -> & Hds);
      [intros n st' Hin; apply H; now right|].
    exists (d :: ds). split; [reflexivity|].
    constructor; [now exists c|assumption].
Qed.

Lemma nearby_stations_numbers h ev l : forall c,
  (forall n station,
     station ∈ l -> returns_number (real_distance h n ev station)) ->
  exists ds : list float,
    nearby_stations h c ev l = Ok (zip (map st_id l) (map (round2 h) ds)) /\
    Forall2 (answered h ev) l ds.
Proof.
  induction l as [|st l IH]; simpl; intros c H.
  - exists []. split; [reflexivity|constructor].
  - destruct (H c st ltac:(now left)) as [d Hd]. rewrite Hd. simpl.
    destruct (IH (S c)) as (ds & -> & Hds);
      [intros n st' Hin; apply H; now right|].
    exists (d :: ds). split; [reflexivity|].
    constructor; [now exists c|assumption].
Qed.

(** On keys that are numbers, [sorted] compares them as floats. *)
Lemma insert_sorted_r_numbers {A} (x : float * A) (l : list (float * A)) :
  insert_sorted_r py_lt fst (JNumber (fst x), snd x)
      (map (fun p => (JNumber (fst p), snd p)) l) =
    Ok (map (fun p => (JNumber (fst p), snd p)) (insert_sorted ltb fst x l)).
Proof.
  destruct x as [kx ax].
  induction l as [|[ky ay] l IH]; simpl in *; [reflexivity|].
  unfold ltb in *. destruct (SFltb ky kx); simpl; [|reflexivity].
  rewrite IH. reflexivity.
Qed.

Lemma py_sorted_r_numbers {A} (l : list (float * A)) :
  py_sorted_r py_lt fst (map (fun p => (JNumber (fst p), snd p)) l) =
    Ok (map (fun p => (JNumber (fst p), snd p)) (py_sorted ltb fst l)).
Proof.
  induction l as [|x l IH]; simpl; [reflexivity|].
  rewrite IH. simpl. apply insert_sorted_r_numbers.
Qed.

Lemma zip_numbers {A} (keys : list float) (l : list A) :
  zip (map JNumber keys) l = map (fun p => (JNumber (fst p), snd p)) (zip keys l).
Proof.
  revert l. induction keys as [|k keys IH]; intros [|a l]; simpl;
    try reflexivity.
  now rewrite IH.
Qed.

Lemma numbers_map (ds : list float) : numbers (map JNumber ds) = Some ds.
Proof.
  unfold numbers. induction ds as [|d ds IH]; simpl; [reflexivity|].
  now rewrite IH.
Qed.

Lemma fst_number_keys {A} (l : list (float * A)) :
  map fst (map (fun p => (JNumber (fst p), snd p)) l) = map JNumber (map fst l).
Proof. rewrite !map_map. reflexivity. Qed.

Lemma snd_number_keys {A} (l : list (float * A)) :
  map snd (map (fun p => (JNumber (fst p), snd p)) l) = map snd l.
Proof. rewrite map_map. reflexivity. Qed.



Lemma snd_imap_pair {A B} (l : list A) : forall f : nat -> B,
  map snd (imap (fun i a => (f i, a)) l) = l.
Proof.
  induction l as [|a l IH]; intros f; simpl; [reflexivity|].
  f_equal. exact (IH (f ∘ S)).
Qed.

(** On keys that are numbers, [nan] or not, [sorted] returns a
    permutation. *)
Lemma sorted_by_key_perm {A} rank (l : list (float * A)) :
  exists sorted,
    sorted_by_key rank (map (fun p => (JNumber (fst p), snd p)) l) = Ok sorted /\
    Permutation (map snd sorted) (map snd l).
Proof.
  unfold sorted_by_key. rewrite fst_number_keys, numbers_map.
  destruct (existsb is_nan (map fst l)).
  - eexists. split; [reflexivity|].
    rewrite <- (py_sorted_perm Nat.ltb fst), snd_imap_pair.
    now rewrite snd_number_keys.
  - rewrite py_sorted_r_numbers. eexists. split; [reflexivity|].
    rewrite snd_number_keys. apply Permutation_map. symmetry.
    apply py_sorted_perm.
Qed.


Lemma StronglySorted_trivial {A} (l : list A) :
  StronglySorted (fun _ _ => True) l.
Proof.
  induction l; constructor; [assumption|]. apply Forall_forall. trivial.
Qed.


(** ** Rounding never overflows on moderate magnitudes *)

Lemma Zdigits2_log2 (m : Z) : 0 < m -> Zdigits2 m = Z.log2 m + 1.
Proof.
  destruct m as [|p|p]; try lia. intros _. simpl.
  assert (H : forall q, Zpos (digits2_pos q) = Z.log2 (Zpos q) + 1).
  { induction q as [q IH|q IH|]; simpl; try reflexivity;
      rewrite Pos2Z.inj_succ, IH; destruct q; simpl; try reflexivity;
      rewrite ?Pos2Z.inj_succ; lia. }
  apply H.
Qed.

Lemma Zdigits2_nonneg (m : Z) : 0 <= Zdigits2 m.
Proof. destruct m; simpl; lia. Qed.

Lemma Zdigits2_le (a b : Z) : 0 <= a <= b -> Zdigits2 a <= Zdigits2 b.
Proof.
  intros [Ha Hab]. destruct (Z.eq_dec a 0) as [->|Hne].
  - apply Zdigits2_nonneg.
  - rewrite !Zdigits2_log2 by lia. pose proof (Z.log2_le_mono a b Hab). lia.
Qed.

Lemma Zdigits2_succ (m : Z) : 0 <= m -> Zdigits2 (m + 1) <= Zdigits2 m + 1.
Proof.
  intros H. destruct (Z.eq_dec m 0) as [->|Hne]; [simpl; lia|].
  rewrite !Zdigits2_log2 by lia.
  pose proof (Z.log2_le_mono (m + 1) (2 * m) ltac:(lia)).
  rewrite Z.log2_double in H0 by lia. lia.
Qed.

Lemma Zdigits2_shiftr (m n : Z) :
  0 < m -> 0 <= n -> 0 < Z.shiftr m n -> Zdigits2 (Z.shiftr m n) = Zdigits2 m - n.
Proof.
  intros Hm Hn Hpos. rewrite !Zdigits2_log2 by lia.
  rewrite Z.log2_shiftr by lia.
  assert (n <= Z.log2 m); [|lia].
  destruct (Z.le_gt_cases n (Z.log2 m)) as [|Hgt]; [assumption|].
  rewrite Z.shiftr_eq_0 in Hpos by lia. lia.
Qed.

Lemma shr_1_m (mrs : shr_record) :
  0 <= shr_m mrs -> shr_m (shr_1 mrs) = Z.shiftr (shr_m mrs) 1.
Proof.
  destruct mrs as [m r s]. intros H. cbn [shr_m] in H.
  rewrite Z.shiftr_div_pow2 by lia. change (2 ^ 1) with 2.
  rewrite <- Z.div2_div.
  destruct m as [|[p|p|]|p]; try lia; reflexivity.
Qed.

Lemma iter_shr_1_m (p : positive) : forall mrs,
  0 <= shr_m mrs ->
  shr_m (SpecFloat.iter_pos shr_1 p mrs) = Z.shiftr (shr_m mrs) (Zpos p).
Proof.
  induction p as [p IH|p IH|]; intros mrs H; simpl.
  - assert (H1 : 0 <= shr_m (shr_1 mrs))
      by (rewrite shr_1_m by assumption; apply Z.shiftr_nonneg; assumption).
    assert (H2 : 0 <= shr_m (SpecFloat.iter_pos shr_1 p (shr_1 mrs)))
      by (rewrite IH by assumption; apply Z.shiftr_nonneg; assumption).
    rewrite IH, IH, shr_1_m by assumption.
    rewrite !Z.shiftr_shiftr by lia. f_equal. lia.
  - assert (H2 : 0 <= shr_m (SpecFloat.iter_pos shr_1 p mrs))
      by (rewrite IH by assumption; apply Z.shiftr_nonneg; assumption).
    rewrite IH, IH by assumption.
    rewrite !Z.shiftr_shiftr by lia. f_equal. lia.
  - now apply shr_1_m.
Qed.

Lemma shr_fexp_spec (m e : Z) (l : location) (mrs : shr_record) (e' : Z) :
  0 <= m ->
  shr_fexp prec emax m e l = (mrs, e') ->
  0 <= shr_m mrs <= m /\
  e' = Z.max e (fexp prec emax (Zdigits2 m + e)) /\
  (0 < shr_m mrs -> Zdigits2 (shr_m mrs) + e' = Zdigits2 m + e).
Proof.
  intros Hm. unfold shr_fexp, shr.
  assert (Hl : shr_m (shr_record_of_loc m l) = m) by (destruct l as [|[]]; reflexivity).
  destruct (fexp prec emax (Zdigits2 m + e) - e) as [|p|p] eqn:Hn; intros [= <- <-].
  - rewrite Hl. repeat split; lia.
  - rewrite iter_shr_1_m, Hl by lia.
    assert (Hle : Z.shiftr m (Z.pos p) <= m).
    { rewrite Z.shiftr_div_pow2 by lia.
      apply Z.div_le_upper_bound; [lia|].
      pose proof (Z.pow_pos_nonneg 2 (Z.pos p)). nia. }
    pose proof (Z.shiftr_nonneg m (Z.pos p)) as Hnn.
    split; [lia|]. split; [lia|].
    intros Hpos. rewrite Zdigits2_shiftr; lia.
  - rewrite Hl. repeat split; lia.
Qed.

Lemma round_nearest_even_cases (m : Z) (l : location) :
  round_nearest_even m l = m \/ round_nearest_even m l = m + 1.
Proof.
  destruct l as [|[]]; simpl; auto. destruct (Z.even m); auto.
Qed.

Lemma fexp_bounds (e : Z) :
  -1074 <= fexp prec emax e /\ e - 53 <= fexp prec emax e /\
  (fexp prec emax e = e - 53 \/ fexp prec emax e = -1074).
Proof. unfold fexp, SpecFloat.emin, prec, emax. lia. Qed.

(** Rounding a mantissa [mx >= 0] at exponent [ex] whose magnitude
    [Zdigits2 mx + ex] is at most [E], [-1074 <= E <= 970], gives a zero or a finite
    double of magnitude at most [E + 1], with the sign asked for. *)
Lemma binary_round_aux_finite_below (sx : bool) (mx ex : Z) (lx : location) (E : Z) :
  0 <= mx -> Zdigits2 mx + ex <= E -> ex <= E -> -1074 <= E <= 970 ->
  binary_round_aux prec emax sx mx ex lx = S754_zero sx \/
  exists m e, binary_round_aux prec emax sx mx ex lx = S754_finite sx m e /\
    -1074 <= e /\ Zpos (digits2_pos m) + e <= E + 1.
Proof.
  intros Hmx HD Hex HE. unfold binary_round_aux.
  destruct (shr_fexp prec emax mx ex lx) as [mrs1 e1] eqn:H1.
  destruct (shr_fexp prec emax _ e1 loc_Exact) as [mrs2 e2] eqn:H2.
  apply shr_fexp_spec in H1 as ([Hm1 _] & He1 & Hd1); [|assumption].
  set (m2 := round_nearest_even (shr_m mrs1) (loc_of_shr_record mrs1)) in *.
  assert (Hm2 : 0 <= m2 /\ Zdigits2 m2 + e1 <= E + 1).
  { pose proof (fexp_bounds (Zdigits2 mx + ex)) as Hf.
    destruct (round_nearest_even_cases (shr_m mrs1) (loc_of_shr_record mrs1))
      as [Hr|Hr]; fold m2 in Hr; rewrite Hr.
    - split; [lia|]. destruct (Z.eq_dec (shr_m mrs1) 0) as [->|Hne]; [simpl; lia|].
      specialize (Hd1 ltac:(lia)). lia.
    - split; [lia|]. pose proof (Zdigits2_succ (shr_m mrs1) Hm1) as Hs.
      destruct (Z.eq_dec (shr_m mrs1) 0) as [Hz|Hne].
      + rewrite Hz in *. simpl in *. lia.
      + specialize (Hd1 ltac:(lia)). lia. }
  destruct Hm2 as [Hm2 HD2].
  apply shr_fexp_spec in H2 as ([Hm3 _] & He2 & Hd2); [|assumption].
  pose proof (fexp_bounds (Zdigits2 mx + ex)) as Hf1.
  pose proof (fexp_bounds (Zdigits2 m2 + e1)) as Hf2.
  destruct (shr_m mrs2) as [|m|m] eqn:Hm; [left; reflexivity| |lia].
  right. specialize (Hd2 ltac:(lia)).
  replace (e2 <=? emax - prec) with true
    by (symmetry; apply Z.leb_le; unfold emax, prec; lia).
  exists m, e2. split; [reflexivity|]. simpl in Hd2. lia.
Qed.

Lemma finite_below_mono (E E' : Z) (x : float) : E <= E' -> finite_below E x -> finite_below E' x.
Proof. destruct x; simpl; try tauto. lia. Qed.

Lemma finite_below_finite (E : Z) (x : float) :
  finite_below E x -> is_finite x = true /\ is_nan x = false /\ is_inf x = false.
Proof. destruct x; simpl; intros H; try contradiction; auto. Qed.

Lemma binary_round_aux_signed (sx : bool) (mx ex : Z) (lx : location) (E : Z) :
  0 <= mx -> Zdigits2 mx + ex <= E -> ex <= E -> -1074 <= E <= 970 ->
  finite_below (E + 1) (binary_round_aux prec emax sx mx ex lx) /\
  (sx = false -> not_negative (binary_round_aux prec emax sx mx ex lx)).
Proof.
  intros H1 H2 H3 H4.
  destruct (binary_round_aux_finite_below sx mx ex lx E H1 H2 H3 H4)
    as [->|(m & e & -> & He)]; simpl; auto.
Qed.

Lemma round_off_cases (off : bool) (m : Z) (l : location) :
  round_off off m l = m \/ round_off off m l = m + 1.
Proof.
  unfold round_off. destruct l as [|c]; [now left|].
  destruct (round_nearest_even_cases m (loc_Inexact c)) as [H|H].
  - rewrite H, Z.eqb_refl. destruct off; auto.
  - rewrite H. replace (m + 1 =? m) with false by (symmetry; apply Z.eqb_neq; lia).
    destruct off; auto.
Qed.

(** The same for the rounding of the C library's [pow]. *)
Lemma faithful_round_finite_below (off sx : bool) (mx ex : Z) (E : Z) :
  0 <= mx -> Zdigits2 mx + ex <= E -> ex <= E -> -1074 <= E <= 970 ->
  finite_below (E + 1) (faithful_round off sx mx ex) /\
  (sx = false -> not_negative (faithful_round off sx mx ex)).
Proof.
  intros Hmx HD Hex HE. unfold faithful_round.
  destruct (shr_fexp prec emax mx ex loc_Exact) as [mrs1 e1] eqn:H1.
  destruct (shr_fexp prec emax _ e1 loc_Exact) as [mrs2 e2] eqn:H2.
  apply shr_fexp_spec in H1 as ([Hm1 _] & He1 & Hd1); [|assumption].
  set (m2 := round_off off (shr_m mrs1) (loc_of_shr_record mrs1)) in *.
  assert (Hm2 : 0 <= m2 /\ Zdigits2 m2 + e1 <= E + 1).
  { pose proof (fexp_bounds (Zdigits2 mx + ex)) as Hf.
    destruct (round_off_cases off (shr_m mrs1) (loc_of_shr_record mrs1))
      as [Hr|Hr]; fold m2 in Hr; rewrite Hr.
    - split; [lia|]. destruct (Z.eq_dec (shr_m mrs1) 0) as [->|Hne]; [simpl; lia|].
      specialize (Hd1 ltac:(lia)). lia.
    - split; [lia|]. pose proof (Zdigits2_succ (shr_m mrs1) Hm1) as Hs.
      destruct (Z.eq_dec (shr_m mrs1) 0) as [Hz|Hne].
      + rewrite Hz in *. simpl in *. lia.
      + specialize (Hd1 ltac:(lia)). lia. }
  destruct Hm2 as [Hm2 HD2].
  apply shr_fexp_spec in H2 as ([Hm3 _] & He2 & Hd2); [|assumption].
  pose proof (fexp_bounds (Zdigits2 mx + ex)) as Hf1.
  pose proof (fexp_bounds (Zdigits2 m2 + e1)) as Hf2.
  destruct (shr_m mrs2) as [|m|m] eqn:Hm; [simpl; auto| |lia].
  specialize (Hd2 ltac:(lia)).
  replace (e2 <=? emax - prec) with true
    by (symmetry; apply Z.leb_le; unfold emax, prec; lia).
  simpl in Hd2 |- *. split; [lia|auto].
Qed.

Lemma Zdigits2_mul (a b : Z) :
  0 < a -> 0 < b -> Zdigits2 (a * b) <= Zdigits2 a + Zdigits2 b.
Proof.
  intros Ha Hb. rewrite !Zdigits2_log2 by nia.
  pose proof (Z.log2_mul_above a b ltac:(lia) ltac:(lia)). lia.
Qed.

Lemma Zdigits2_add (a b : Z) :
  0 <= a -> 0 <= b -> Zdigits2 (a + b) <= Z.max (Zdigits2 a) (Zdigits2 b) + 1.
Proof.
  intros Ha Hb.
  assert (H : forall c, 0 <= c -> Zdigits2 (2 * c) <= Zdigits2 c + 1).
  { intros c Hc. destruct (Z.eq_dec c 0) as [->|Hne]; [simpl; lia|].
    rewrite !Zdigits2_log2 by lia. rewrite Z.log2_double by lia. lia. }
  destruct (Z.le_ge_cases a b).
  - pose proof (Zdigits2_le (a + b) (2 * b) ltac:(lia)). specialize (H b Hb). lia.
  - pose proof (Zdigits2_le (a + b) (2 * a) ltac:(lia)). specialize (H a Ha). lia.
Qed.

Lemma Zdigits2_abs (z : Z) : Zdigits2 z = Zdigits2 (Z.abs z).
Proof. destruct z; reflexivity. Qed.

Lemma digits2_pos_iter (m d : positive) :
  Zpos (digits2_pos (Pos.iter xO m d)) = Zpos (digits2_pos m) + Zpos d.
Proof.
  induction d as [|d IH] using Pos.peano_ind.
  - simpl. lia.
  - rewrite Pos.iter_succ. simpl. lia.
Qed.

Lemma shl_align_spec (mx : positive) (ex ex' : Z) :
  snd (shl_align mx ex ex') = Z.min ex ex' /\
  Zpos (digits2_pos (fst (shl_align mx ex ex'))) + snd (shl_align mx ex ex')
    = Zpos (digits2_pos mx) + ex.
Proof.
  unfold shl_align. destruct (ex' - ex) as [|d|d] eqn:Hd; simpl; try lia.
  rewrite digits2_pos_iter. lia.
Qed.

Lemma binary_round_finite_below (sx : bool) (m : positive) (e E : Z) :
  Zpos (digits2_pos m) + e <= E -> -1074 <= E <= 970 ->
  finite_below (E + 1) (binary_round prec emax sx m e) /\
  (sx = false -> not_negative (binary_round prec emax sx m e)).
Proof.
  intros HD HE. unfold binary_round.
  pose proof (shl_align_spec m e (fexp prec emax (Zpos (digits2_pos m) + e))) as [H1 H2].
  destruct (shl_align _ _ _) as [mz ez]. simpl in H1, H2.
  apply binary_round_aux_signed; simpl; lia.
Qed.

Lemma binary_normalize_finite_below (z e E : Z) :
  Zdigits2 z + e <= E -> -1074 <= E <= 970 ->
  finite_below (E + 1) (binary_normalize prec emax z e false) /\
  (0 <= z -> not_negative (binary_normalize prec emax z e false)).
Proof.
  intros HD HE. destruct z as [|m|m]; simpl.
  - split; [exact I|intros _; exact I].
  - destruct (binary_round_finite_below false m e E HD HE) as [H1 H2]. auto.
  - destruct (binary_round_finite_below true m e E HD HE) as [H1 _].
    split; [assumption|lia].
Qed.

Lemma mul_finite_below (Ex Ey : Z) (x y : float) :
  finite_below Ex x -> finite_below Ey y -> -1074 <= Ex + Ey <= 970 ->
  finite_below (Ex + Ey + 1) (mul x y).
Proof.
  destruct x as [sx|sx| |sx mx ex], y as [sy|sy| |sy my ey]; simpl;
    try tauto.
  intros [Hx1 Hx2] [Hy1 Hy2] HE.
  pose proof (Zdigits2_mul (Zpos mx) (Zpos my) ltac:(lia) ltac:(lia)) as Hd.
  simpl in Hd.
  apply binary_round_aux_signed; simpl; lia.
Qed.

Lemma aligned_sum (sx sy : bool) (mx my : positive) (ex ey : Z) (E : Z)
    (op : Z -> Z -> Z) :
  (forall a b, Z.abs (op a b) <= Z.abs a + Z.abs b) ->
  Zpos (digits2_pos mx) + ex <= E -> Zpos (digits2_pos my) + ey <= E ->
  let ez := Z.min ex ey in
  Zdigits2 (op (cond_Zopp sx (Zpos (fst (shl_align mx ex ez))))
               (cond_Zopp sy (Zpos (fst (shl_align my ey ez))))) + ez <= E + 1.
Proof.
  intros Hop Hx Hy ez.
  pose proof (shl_align_spec mx ex ez) as [Hx1 Hx2].
  pose proof (shl_align_spec my ey ez) as [Hy1 Hy2].
  set (ma := fst (shl_align mx ex ez)) in *.
  set (mb := fst (shl_align my ey ez)) in *.
  rewrite Zdigits2_abs.
  pose proof (Hop (cond_Zopp sx (Zpos ma)) (cond_Zopp sy (Zpos mb))) as Hle.
  assert (Ha : Z.abs (cond_Zopp sx (Zpos ma)) = Zpos ma) by (destruct sx; reflexivity).
  assert (Hb : Z.abs (cond_Zopp sy (Zpos mb)) = Zpos mb) by (destruct sy; reflexivity).
  rewrite Ha, Hb in Hle.
  pose proof (Zdigits2_le _ _ (conj (Z.abs_nonneg _) Hle)) as H1.
  pose proof (Zdigits2_add (Zpos ma) (Zpos mb) ltac:(lia) ltac:(lia)) as H2.
  simpl Zdigits2 in H2 at 2 3. subst ez. lia.
Qed.

Lemma sub_finite_below (E : Z) (x y : float) :
  finite_below E x -> finite_below E y -> -1075 <= E <= 969 ->
  finite_below (E + 2) (sub x y).
Proof.
  destruct x as [sx|sx| |sx mx ex], y as [sy|sy| |sy my ey]; simpl;
    try tauto.
  - intros _ _ _. destruct sx, sy; exact I.
  - lia.
  - lia.
  - intros [Hx1 Hx2] [Hy1 Hy2] HE.
    replace (E + 2) with ((E + 1) + 1) by lia.
    apply binary_normalize_finite_below; [|lia].
    apply aligned_sum; [intros; lia|assumption..].
Qed.

Lemma add_finite_below (E : Z) (x y : float) :
  finite_below E x -> finite_below E y -> -1075 <= E <= 969 ->
  finite_below (E + 2) (add x y).
Proof.
  destruct x as [sx|sx| |sx mx ex], y as [sy|sy| |sy my ey]; simpl;
    try tauto.
  - intros _ _ _. destruct sx, sy; exact I.
  - lia.
  - lia.
  - intros [Hx1 Hx2] [Hy1 Hy2] HE.
    replace (E + 2) with ((E + 1) + 1) by lia.
    apply binary_normalize_finite_below; [|lia].
    apply aligned_sum; [intros; lia|assumption..].
Qed.

Lemma add_not_negative (E : Z) (x y : float) :
  finite_below E x -> finite_below E y -> -1075 <= E <= 969 ->
  not_negative x -> not_negative y -> not_negative (add x y).
Proof.
  destruct x as [sx|sx| |sx mx ex], y as [sy|sy| |sy my ey]; simpl;
    try tauto.
  - intros _ _ _ _ _. destruct sx, sy; exact I.
  - intros [Hx1 Hx2] [Hy1 Hy2] HE -> ->.
    pose proof (binary_normalize_finite_below
      (cond_Zopp false (Zpos (fst (shl_align mx ex (Z.min ex ey)))) +
       cond_Zopp false (Zpos (fst (shl_align my ey (Z.min ex ey)))))
      (Z.min ex ey) (E + 1)) as [_ H2].
    + apply (aligned_sum false false mx my ex ey E Z.add); [intros; lia|assumption..].
    + lia.
    + apply H2. simpl. lia.
Qed.

Lemma pow2_finite_below (off : float -> bool) (E : Z) (x : float) :
  finite_below E x -> 0 <= E <= 485 ->
  exists a, pow2 off x = Ok a /\ finite_below (2 * E + 1) a /\ not_negative a.
Proof.
  destruct x as [sx|sx| |sx mx ex]; simpl; try tauto.
  - intros _ _. eexists. split; [reflexivity|]. split; exact I.
  - intros [H1 H2] HE.
    destruct (SFeqb (S754_finite false mx ex) one).
    { exists one. split; [reflexivity|]. unfold one. simpl.
      split; [lia|reflexivity]. }
    pose proof (Zdigits2_mul (Zpos mx) (Zpos mx) ltac:(lia) ltac:(lia)) as Hd.
    simpl in Hd.
    destruct (faithful_round_finite_below (off (S754_finite false mx ex)) false
                (Zpos (mx * mx)) (ex + ex) (2 * E)) as [Hm Hs]; simpl; try lia.
    pose proof (finite_below_finite _ _ Hm) as (_ & _ & Hinf).
    rewrite Hinf. eexists. split; [reflexivity|]. split; auto.
Qed.

Lemma shiftl_pos (a n : Z) : 0 < a -> 0 <= n -> 0 < Z.shiftl a n.
Proof.
  intros Ha Hn. rewrite Z.shiftl_mul_pow2 by assumption.
  apply Z.mul_pos_pos; [assumption|apply Z.pow_pos_nonneg; lia].
Qed.

Lemma sqrt_finite_below (E : Z) (x : float) :
  finite_below E x -> not_negative x -> -589 <= E <= 380 ->
  exists r, sqrt x = Ok r /\ finite_below (E + 590) r /\ not_negative r.
Proof.
  destruct x as [sx|sx| |sx mx ex]; simpl; try tauto.
  - intros _ _ _. exists (S754_zero sx). repeat split.
  - intros [H1 H2] -> HE. unfold sqrt, SFsqrt, SFsqrt_core_binary.
    set (d := Zdigits2 (Z.pos mx)).
    set (e' := Z.min (fexp prec emax (Z.div2 (d + ex + 1))) (Z.div2 ex)).
    set (m' := match ex - 2 * e' with
               | 0 => Z.pos mx
               | Z.pos _ => Z.shiftl (Z.pos mx) (ex - 2 * e')
               | Z.neg _ => 0
               end).
    pose proof (Z.sqrtrem_sqrt m') as Hq.
    destruct (Z.sqrtrem m') as [q r]. simpl in Hq.
    set (l := if r =? 0 then loc_Exact else loc_Inexact (if r <=? q then Lt else Gt)).
    assert (Hd : d = Z.pos (digits2_pos mx)) by reflexivity.
    pose proof (fexp_bounds (Z.div2 (d + ex + 1))) as Hf.
    assert (He' : -589 <= e' /\ 2 * e' <= ex /\ e' <= Z.max ex 0).
    { subst e'. rewrite !Z.div2_div in *.
      pose proof (Z.div_mod ex 2 ltac:(lia)) as A1.
      pose proof (Z.mod_pos_bound ex 2 ltac:(lia)) as A2.
      pose proof (Z.div_mod (d + ex + 1) 2 ltac:(lia)) as B1.
      pose proof (Z.mod_pos_bound (d + ex + 1) 2 ltac:(lia)) as B2.
      generalize dependent (fexp prec emax ((d + ex + 1) / 2)). intros f Hf.
      generalize dependent ((d + ex + 1) / 2). intros qa.
      generalize dependent ((d + ex + 1) mod 2). intros ra.
      generalize dependent (ex / 2). intros qb.
      generalize dependent (ex mod 2). intros rb.
      clearbody d. clear Hq l. intros. lia. }
    assert (Hm' : 0 < m' /\ Zdigits2 m' = d + (ex - 2 * e')).
    { subst m'. destruct (ex - 2 * e') as [|p|p] eqn:Hs; [split; lia| |lia].
      split; [apply shiftl_pos; lia|].
      rewrite !Zdigits2_log2 by (try apply shiftl_pos; lia).
      fold d. rewrite Z.log2_shiftl by lia.
      unfold d. rewrite Zdigits2_log2 by lia. lia. }
    assert (Hq' : 0 <= q <= m').
    { subst q. split; [apply Z.sqrt_nonneg|apply Z.sqrt_le_lin; lia]. }
    pose proof (Zdigits2_le q m' Hq') as Hdq.
    destruct (binary_round_aux_signed false q e' l (E + 589)) as [Hm Hs];
      try lia.
    pose proof (finite_below_finite _ _ Hm) as (_ & Hn & Hi).
    exists (binary_round_aux prec emax false q e' l).
    split; [|split; [replace (E + 590) with (E + 589 + 1) by lia; exact Hm|auto]].
    unfold math_1. rewrite Hn, Hi. reflexivity.
Qed.

Lemma cos_finite_below (cosine : float -> float) (x : float) (E : Z) :
  finite_below E x -> finite_below 1 (cosine x) ->
  cos cosine x = Ok (cosine x).
Proof.
  intros Hx Hc. unfold cos, c_cos, math_1.
  destruct (finite_below_finite _ _ Hx) as (-> & _ & _).
  destruct (finite_below_finite _ _ Hc) as (_ & -> & ->). reflexivity.
Qed.

Lemma of_Z_111320_finite_below : finite_below 17 (of_Z 111320).
Proof. vm_compute. split; discriminate. Qed.

Lemma degToRad_finite_below : finite_below (-5) degToRad.
Proof. vm_compute. split; discriminate. Qed.

(** The fallback on coordinates below [2^E]. *)
Lemma flat_earth_finite_below (cosine : float -> float) (off : float -> bool)
    (lat1 lon1 lat2 lon2 : float)
    (E : Z) :
  0 <= E <= 160 ->
  finite_below E lat1 -> finite_below E lon1 -> finite_below E lat2 -> finite_below E lon2 ->
  finite_below 1 (cosine (radians lat1)) ->
  exists d, flat_earth cosine off lat1 lon1 lat2 lon2 = Ok d /\
    finite_below (2 * E + 637) d /\ not_negative d.
Proof.
  intros HE Hlat1 Hlon1 Hlat2 Hlon2 Hc. unfold flat_earth, mbind, result_bind.
  assert (Hrad : finite_below (E - 4) (radians lat1)).
  { unfold radians. replace (E - 4) with (E + -5 + 1) by lia.
    apply mul_finite_below; [assumption|apply degToRad_finite_below|lia]. }
  rewrite (cos_finite_below cosine _ _ Hrad Hc).
  assert (Hdlat : finite_below (E + 20) (mul (sub lat1 lat2) (of_Z 111320))).
  { replace (E + 20) with (E + 2 + 17 + 1) by lia.
    apply mul_finite_below; [apply sub_finite_below; auto; lia|apply of_Z_111320_finite_below|lia]. }
  assert (Hdlon : finite_below (E + 22)
            (mul (mul (sub lon1 lon2) (of_Z 111320)) (cosine (radians lat1)))).
  { replace (E + 22) with (E + 20 + 1 + 1) by lia.
    apply mul_finite_below; [|assumption|lia].
    replace (E + 20) with (E + 2 + 17 + 1) by lia.
    apply mul_finite_below; [apply sub_finite_below; auto; lia|apply of_Z_111320_finite_below|lia]. }
  destruct (pow2_finite_below off _ _ Hdlat ltac:(lia)) as (a & Hpa & Ha & Hsa).
  destruct (pow2_finite_below off _ _ Hdlon ltac:(lia)) as (b & Hpb & Hb & Hsb).
  rewrite Hpa, Hpb.
  assert (Ha' : finite_below (2 * (E + 22) + 1) a)
    by (eapply finite_below_mono; [|exact Ha]; lia).
  pose proof (add_finite_below _ a b Ha' Hb ltac:(lia)) as Hab.
  pose proof (add_not_negative _ a b Ha' Hb ltac:(lia) Hsa Hsb) as Hsab.
  destruct (sqrt_finite_below _ _ Hab Hsab ltac:(lia)) as (r & Hr & Hmr & Hsr).
  exists r. split; [exact Hr|]. split; [|exact Hsr].
  eapply finite_below_mono; [|exact Hmr]. lia.
Qed.

Lemma finite_below_lt_inf (E : Z) (d : float) :
  finite_below E d -> ltb d inf = true.
Proof. destruct d as [s|s| |[] m e]; simpl; try tauto; reflexivity. Qed.

Lemma not_negative_ge_zero (E : Z) (d : float) :
  finite_below E d -> not_negative d -> ltb d (S754_zero false) = false.
Proof.
  destruct d as [s|s| |s m e]; simpl; try tauto; try reflexivity.
  intros _ ->. reflexivity.
Qed.

Lemma sub_diag (E : Z) (x : float) :
  finite_below E x -> sub x x = S754_zero false.
Proof.
  destruct x as [[]|s| |s m e]; simpl; try tauto; try reflexivity.
  intros _. rewrite Z.sub_diag. reflexivity.
Qed.

Lemma mul_zero_l (E : Z) (s : bool) (y : float) :
  finite_below E y -> exists s', mul (S754_zero s) y = S754_zero s'.
Proof. destruct y; simpl; try tauto; eauto. Qed.

(** A vehicle at the place of the station. *)
Lemma flat_earth_same_place (cosine : float -> float) (off : float -> bool)
    (lat lon : float) (E : Z) :
  0 <= E <= 160 ->
  finite_below E lat -> finite_below E lon ->
  finite_below 1 (cosine (radians lat)) ->
  flat_earth cosine off lat lon lat lon = Ok (S754_zero false).
Proof.
  intros HE Hlat Hlon Hc. unfold flat_earth, mbind, result_bind.
  assert (Hrad : finite_below (E - 4) (radians lat)).
  { unfold radians. replace (E - 4) with (E + -5 + 1) by lia.
    apply mul_finite_below; [assumption|apply degToRad_finite_below|lia]. }
  rewrite (cos_finite_below cosine _ _ Hrad Hc).
  rewrite (sub_diag E lat Hlat), (sub_diag E lon Hlon).
  destruct (mul_zero_l 17 false (of_Z 111320) of_Z_111320_finite_below) as [s ->].
  destruct (mul_zero_l 1 s _ Hc) as [s' ->].
  reflexivity.
Qed.


(** ** The fallback on a latitude that is not a number *)

Lemma mul_nan_r (x : float) : mul x nan = nan.
Proof. destruct x; reflexivity. Qed.

Lemma cos_nan (cosine : float -> float) : cos cosine (radians nan) = Ok nan.
Proof. reflexivity. Qed.

Lemma flat_earth_nan_latitude (cosine : float -> float) (off : float -> bool)
    (lon1 lat2 lon2 : float) :
  flat_earth cosine off nan lon1 lat2 lon2 = Ok nan.
Proof.
  unfold flat_earth, mbind, result_bind.
  rewrite cos_nan, mul_nan_r.
  reflexivity.
Qed.

(** ** The resolver on a bounded fleet *)

Lemma real_distance_cases h n ev station :
  (exists v, (osrm (network h n) = Some v \/ ors (network h n) = Some v) /\
     real_distance h n ev station = Ok v) \/
  real_distance h n ev station =
    as_json (flat_earth (libm_cos h) (libm_pow_off h)
               (ev_lat ev) (ev_lon ev) (st_lat station) (st_lon station)).
Proof.
  unfold real_distance, real_distance_run.
  destruct (osrm (network h n)) as [d|] eqn:H1; [left; eauto|].
  destruct (truthy (ORS_API_KEY h)) as [key|]; [|right; reflexivity].
  destruct (ors (network h n)) as [d|] eqn:H2; [left; eauto|right; reflexivity].
Qed.

Lemma real_distance_bounded h n ev station :
  finite_answers h -> bounded_vehicle h ev -> bounded_station station ->
  exists d : float, real_distance h n ev station = Ok d /\ ltb d inf = true.
Proof.
  intros Hans (Hlat & Hlon & Hc) (Hlat' & Hlon').
  destruct (real_distance_cases h n ev station) as [(v & Hv & ->)| ->].
  - destruct (Hans n v Hv) as (d & -> & Hlt). exists d. split; [reflexivity|exact Hlt].
  - destruct (flat_earth_finite_below (libm_cos h) (libm_pow_off h) _ _ _ _ 160
                ltac:(lia) Hlat Hlon Hlat' Hlon' Hc) as (d & Hd & Hm & _).
    exists d. rewrite Hd. split; [reflexivity|]. apply (finite_below_lt_inf _ _ Hm).
Qed.

Lemma numeric_bounded h evs stations :
  finite_answers h ->
  Forall (bounded_vehicle h) evs -> Forall bounded_station stations ->
  numeric h evs stations.
Proof.
  intros Hans Hevs Hst n ev station Hev Hplace.
  apply real_distance_bounded; [assumption|..].
  - rewrite Forall_forall in Hevs. auto.
  - apply list_elem_of_fmap in Hplace as (station0 & Heq & Hin).
    rewrite Forall_forall in Hst. specialize (Hst _ Hin).
    unfold place in Heq. injection Heq as Hl1 Hl2.
    unfold bounded_station. rewrite Hl1, Hl2. exact Hst.
Qed.

Lemma total_capacity_reset (stations : list Station) :
  total_capacity (map (set_occupied 0) stations) = total_capacity stations.
Proof. induction stations as [|st l IH]; simpl; [reflexivity|]. now rewrite IH. Qed.

Lemma total_occupied_reset (stations : list Station) :
  total_occupied (map (set_occupied 0) stations) = 0.
Proof. induction stations as [|st l IH]; simpl; [reflexivity|]. now rewrite IH. Qed.

Lemma total_capacity_nonneg (stations : list Station) :
  Forall (fun station => 0 <= st_capacity station) stations ->
  0 <= total_capacity stations.
Proof. induction 1; simpl; lia. Qed.

(** ** Turns that find no station within reach *)

Lemma visit_unreachable h s i ev :
  (forall k station,
     s_stations s !! k = Some station -> has_capacity station = true ->
     exists d : float,
       real_distance h (s_clock s + queries_before (s_stations s) k) ev station
         = Ok d /\ ltb d inf = false) ->
  exists s', visit h s i ev = Ok s' /\ skipped s s'.
Proof.
  intros Hq.
  destruct (visit_returns h s i ev) as [s' Hv].
  { intros k station Hk Hcap. destruct (Hq k station Hk Hcap) as (d & Hd & _).
    exists d. exact Hd. }
  exists s'. split; [exact Hv|].
  apply visit_spec in Hv as (_ & [(j & station & d & Hobs & Hlt & _)|(_ & Hsk)]);
    [|exact Hsk].
  destruct Hobs as (Hj & Hcap & Hd).
  destruct (Hq j station Hj Hcap) as (d' & Hd' & Hlt').
  rewrite Hd in Hd'. injection Hd' as <-. congruence.
Qed.

Lemma visit_all_unreachable h (evs : list EV) order : forall s,
  (forall n ev station,
     ev ∈ evs -> station ∈ s_stations s ->
     exists d : float, real_distance h n ev station = Ok d /\ ltb d inf = false) ->
  Forall (fun p => snd p ∈ evs) order ->
  exists c,
    visit_all h order s =
      ({| s_evs := s_evs s; s_stations := s_stations s;
          s_assignments := s_assignments s; s_clock := c |}, None).
Proof.
  induction order as [|[i ev] order IH]; intros s Hq Hord; simpl.
  - exists (s_clock s). destruct s; reflexivity.
  - apply Forall_cons in Hord as [Hev Hord]. simpl in Hev.
    destruct (visit_unreachable h s i ev) as (s' & -> & Hevs & Hst & Has).
    { intros k station Hk _. apply Hq; [assumption|].
      eapply list_elem_of_lookup_2. eassumption. }
    destruct (IH s') as [c Hc]; [rewrite Hst; exact Hq|exact Hord|].
    exists c. rewrite Hc, Hevs, Hst, Has. reflexivity.
Qed.

(** ** What a run changes of the vehicles *)

Lemma reassigned_refl stations (evs : list EV) :
  Forall2 (reassigned stations) evs evs.
Proof.
  apply Forall_Forall2_diag, Forall_forall. intros ev _.
  unfold reassigned. repeat split; try reflexivity. now left.
Qed.

Lemma visit_reassigned h stations0 evs0 s i ev s' :
  Forall2 grows stations0 (s_stations s) ->
  Forall2 (reassigned stations0) evs0 (s_evs s) ->
  visit h s i ev = Ok s' ->
  Forall2 (reassigned stations0) evs0 (s_evs s').
Proof.
  intros Hgr Hinv Hv. apply visit_spec in Hv as (_ & Hv).
  destruct Hv as [(j & st & d & (Hj & _ & _) & _ & _ & _ & -> & _)
                 |(_ & -> & _)]; [|assumption].
  apply Forall2_alter_r; [assumption|].
  intros ev0 ev' _ _ (Hid & Hb & Hlat & Hlon & _).
  unfold reassigned. simpl. repeat split; try assumption.
  right.
  destruct (Forall2_lookup_r _ _ _ _ _ Hgr Hj) as (st0 & Hj0 & Hg).
  exists st0. split; [eapply list_elem_of_lookup_2; eassumption|].
  destruct Hg as (-> & _). reflexivity.
Qed.

Lemma visit_all_reassigned h stations0 evs0 order s :
  Forall2 grows stations0 (s_stations s) ->
  Forall2 (reassigned stations0) evs0 (s_evs s) ->
  Forall2 (reassigned stations0) evs0 (s_evs (fst (visit_all h order s))).
Proof.
  intros Hgr Hre.
  apply (visit_all_invariant h
    (fun s => Forall2 grows stations0 (s_stations s) /\
              Forall2 (reassigned stations0) evs0 (s_evs s))); [|auto].
  intros s0 i ev s' [H1 H2] Hv. split.
  - eapply visit_grows; eassumption.
  - eapply visit_reassigned; eassumption.
Qed.

Lemma assign_charging_fst h clock evs stations :
  fst (assign_charging h clock evs stations) =
    fst (visit_all h (evs_sorted evs) (initial clock evs stations)).
Proof. rewrite assign_charging_unfold. reflexivity. Qed.

(** ** Records, counters and vehicles agree *)

Lemma visit_all_invariant_on h (P : state -> Prop) (Q : nat * EV -> Prop) :
  (forall s i ev s', Q (i, ev) -> P s -> visit h s i ev = Ok s' -> P s') ->
  forall order s, Forall Q order -> P s -> P (fst (visit_all h order s)).
Proof.
  intros Hstep. induction order as [|[i ev] order IH]; simpl; intros s Hord Hs.
  - assumption.
  - apply Forall_cons in Hord as [Hq Hord].
    destruct (visit h s i ev) as [s'|e] eqn:Hv; [|assumption].
    apply IH; [assumption|]. eapply Hstep; eassumption.
Qed.

Lemma visit_accounted h evs stations s i ev s' :
  ev ∈ evs -> accounted evs stations s -> visit h s i ev = Ok s' ->
  accounted evs stations s'.
Proof.
  intros Hev (Hgr & Hocc & Hrec) Hv.
  pose proof (visit_grows h stations s i ev s' Hgr Hv) as Hgr'.
  apply visit_spec in Hv as (_ & Hv).
  destruct Hv as [(j & st & d & (Hj & _ & _) & _ & _ & _ & _ & Hst & Has)
                 |(_ & _ & Hst & Has)].
  - split; [exact Hgr'|]. rewrite Hst, Has. split.
    + rewrite (total_occupied_occupy _ j st Hj), length_app. simpl. lia.
    + apply Forall_app. split; [exact Hrec|].
      apply Forall_singleton. simpl. split.
      * apply list_elem_of_fmap. exists ev. split; [reflexivity|exact Hev].
      * destruct (Forall2_lookup_r _ _ _ _ _ Hgr Hj) as (st0 & Hj0 & Hg).
        apply list_elem_of_fmap. exists st0.
        split; [destruct Hg as (-> & _); reflexivity|].
        eapply list_elem_of_lookup_2. eassumption.
  - split; [exact Hgr'|]. rewrite Hst, Has. split; assumption.
Qed.

Lemma set_assigned_station_reflected (evs : list EV) i ev_i ev station d :
  evs !! i = Some (set_assigned_station (Some (st_id station)) ev_i) ->
  ev_id ev_i = ev_id ev ->
  reflected evs
    {| a_ev := ev_id ev; a_station := st_id station; a_distance_m := d |}.
Proof.
  intros Hi Hid. exists i, (set_assigned_station (Some (st_id station)) ev_i).
  split; [exact Hi|]. split; [exact Hid|reflexivity].
Qed.

Lemma visit_all_reflected h order : forall s,
  NoDup (map fst order) ->
  Forall (fun p => exists ev_i,
            s_evs s !! fst p = Some ev_i /\ ev_id ev_i = ev_id (snd p)) order ->
  exists new,
    s_assignments (fst (visit_all h order s)) = s_assignments s ++ new /\
    Forall (reflected (s_evs (fst (visit_all h order s)))) new.
Proof.
  induction order as [|[i ev] order IH]; simpl; intros s Hnd Hord.
  - exists []. rewrite app_nil_r. split; [reflexivity|constructor].
  - apply NoDup_cons in Hnd as [Hi Hnd].
    apply Forall_cons in Hord as [(ev_i & Hev_i & Hid) Hord]. simpl in Hev_i, Hid.
    destruct (visit h s i ev) as [s1|e] eqn:Hv.
    2:{ exists []. rewrite app_nil_r. split; [reflexivity|constructor]. }
    assert (Hord1 : Forall (fun p => exists ev_i,
              s_evs s1 !! fst p = Some ev_i /\ ev_id ev_i = ev_id (snd p)) order).
    { rewrite Forall_forall in Hord |- *. intros p Hp.
      destruct (Hord p Hp) as (ev_p & Hp1 & Hp2). exists ev_p.
      split; [|exact Hp2].
      rewrite (visit_frame h s i ev s1 (fst p) Hv); [exact Hp1|].
      intros Heq. apply Hi. rewrite <- Heq.
      apply list_elem_of_fmap. exists p. split; [reflexivity|exact Hp]. }
    destruct (IH s1 Hnd Hord1) as (new & Hnew & Hrefl).
    pose proof (visit_all_frame h order s1 i Hi) as Hframe.
    apply visit_spec in Hv as (_ & Hv).
    destruct Hv as [(j & st & d & _ & _ & _ & _ & Hevs & _ & Has)
                   |(_ & _ & _ & Has)].
    + exists ({| a_ev := ev_id ev; a_station := st_id st;
                 a_distance_m := round2 h d |} :: new).
      split; [rewrite Hnew, Has, <- app_assoc; reflexivity|].
      apply Forall_cons. split; [|exact Hrefl].
      apply (set_assigned_station_reflected _ i ev_i); [|exact Hid].
      rewrite Hframe, Hevs, list_lookup_alter_eq, Hev_i. reflexivity.
    + exists new. split; [rewrite Hnew, Has; reflexivity|exact Hrefl].
Qed.

Lemma evs_sorted_NoDup (evs : list EV) : NoDup (map fst (evs_sorted evs)).
Proof.
  rewrite evs_sorted_positions. apply NoDup_seq.
Qed.

(** ** The number of distance queries *)

Lemma queries_before_le (rest : list Station) : forall k,
  (queries_before rest k <= length rest)%nat.
Proof.
  induction rest as [|st rest IH]; intros [|k]; simpl; try lia.
  specialize (IH k). destruct (has_capacity st); lia.
Qed.

Lemma visit_clock h s i ev s' :
  visit h s i ev = Ok s' ->
  length (s_stations s') = length (s_stations s) /\
  (s_clock s <= s_clock s' <= s_clock s + length (s_stations s))%nat.
Proof.
  intros Hv. apply visit_spec in Hv as (Hc & Hv).
  pose proof (queries_before_le (s_stations s) (length (s_stations s))) as Hle.
  split; [|lia].
  destruct Hv as [(j & st & d & _ & _ & _ & _ & _ & -> & _)|(_ & _ & -> & _)];
    [apply length_alter|reflexivity].
Qed.

Lemma visit_all_clock h order : forall s,
  (s_clock s <= s_clock (fst (visit_all h order s))
     <= s_clock s + length order * length (s_stations s))%nat.
Proof.
  induction order as [|[i ev] order IH]; simpl; intros s; [lia|].
  destruct (visit h s i ev) as [s1|e] eqn:Hv; simpl; [|lia].
  apply visit_clock in Hv as [Hlen Hc]. specialize (IH s1).
  rewrite Hlen in IH. lia.
Qed.

(** The queries of a turn are about the stations with a free charger. *)
Lemma queries_before_all (rest : list Station) :
  queries_before rest (length rest) = length (List.filter has_capacity rest).
Proof.
  induction rest as [|st rest IH]; simpl; [reflexivity|].
  rewrite IH. now destruct (has_capacity st).
Qed.

Lemma scan_asks h h' ev rest : forall j c best bd,
  (forall q station,
     List.filter has_capacity rest !! q = Some station ->
     real_distance h' (c + q) ev station = real_distance h (c + q) ev station) ->
  scan h' ev rest j c best bd = scan h ev rest j c best bd.
Proof.
  induction rest as [|st rest IH]; intros j c best bd H; simpl; [reflexivity|].
  simpl in H. destruct (has_capacity st) eqn:Hc.
  - pose proof (H 0%nat st eq_refl) as H0. rewrite Nat.add_0_r in H0.
    rewrite H0. unfold mbind, result_bind.
    destruct (real_distance h c ev st) as [v|e]; [|reflexivity].
    assert (Hrest : forall q station,
              List.filter has_capacity rest !! q = Some station ->
              real_distance h' (S c + q) ev station =
                real_distance h (S c + q) ev station).
    { intros q station Hq. specialize (H (S q) station Hq).
      now rewrite Nat.add_succ_r in H. }
    destruct (number v) as [d|e]; [|reflexivity].
    destruct (ltb d bd); now apply IH.
  - now apply IH.
Qed.

(** ** The registry of connections *)

Lemma remove_first_notin (w : WebSocket) (l : list WebSocket) :
  w ∉ l -> remove_first w l = l.
Proof.
  induction l as [|a l IH]; simpl; intros Hw; [reflexivity|].
  destruct (Nat.eqb_spec a w) as [->|Hne].
  - exfalso. apply Hw. left.
  - rewrite IH; [reflexivity|]. intros Hin. apply Hw. now right.
Qed.

Lemma remove_first_perm (w : WebSocket) (l : list WebSocket) :
  w ∈ l -> l ≡ₚ w :: remove_first w l.
Proof.
  induction l as [|a l IH]; simpl; intros Hw.
  - now apply not_elem_of_nil in Hw.
  - destruct (Nat.eqb_spec a w) as [->|Hne]; [reflexivity|].
    apply elem_of_cons in Hw as [->|Hw]; [congruence|].
    rewrite (IH Hw) at 1. apply Permutation_swap.
Qed.

Lemma remove_first_app (w : WebSocket) (l l' : list WebSocket) :
  w ∈ l -> remove_first w (l ++ l') = remove_first w l ++ l'.
Proof.
  induction l as [|a l IH]; simpl; intros Hw.
  - now apply not_elem_of_nil in Hw.
  - destruct (Nat.eqb_spec a w) as [->|Hne]; [reflexivity|].
    apply elem_of_cons in Hw as [->|Hw]; [congruence|].
    now rewrite IH.
Qed.

Lemma remove_first_last (w : WebSocket) (l : list WebSocket) :
  w ∉ l -> remove_first w (l ++ [w]) = l.
Proof.
  induction l as [|a l IH]; simpl; intros Hw.
  - now rewrite Nat.eqb_refl.
  - destruct (Nat.eqb_spec a w) as [->|Hne].
    + exfalso. apply Hw. left.
    + rewrite IH; [reflexivity|]. intros Hin. apply Hw. now right.
Qed.

Lemma remove_first_sublist (w : WebSocket) (l : list WebSocket) :
  remove_first w l `sublist_of` l.
Proof.
  induction l as [|a l IH]; simpl; [constructor|].
  destruct (Nat.eqb a w); [now apply sublist_cons|now apply sublist_skip].
Qed.

Lemma remove_first_length (w : WebSocket) (l : list WebSocket) :
  w ∈ l -> S (length (remove_first w l)) = length l.
Proof.
  intros Hw. apply remove_first_perm in Hw.
  now rewrite Hw at 2.
Qed.

Lemma send_each_sublist wire rest : forall k active delivered,
  fst (send_each wire k rest active delivered) `sublist_of` active.
Proof.
  induction rest as [|c rest IH]; simpl; intros k active delivered; [reflexivity|].
  destruct (wire k c); [apply IH|].
  etransitivity; [apply IH|apply remove_first_sublist].
Qed.

Lemma send_each_perm wire rest : forall k active delivered extra,
  active ≡ₚ rest ++ extra ->
  fst (send_each wire k rest active delivered) ≡ₚ succeeded wire k rest ++ extra.
Proof.
  induction rest as [|c rest IH]; simpl; intros k active delivered extra Hperm.
  - exact Hperm.
  - destruct (wire k c).
    + rewrite (IH (S k) active (delivered ++ [c]) (c :: extra)).
      * simpl. symmetry. apply Permutation_middle.
      * rewrite Hperm. apply Permutation_middle.
    + apply IH.
      assert (Hin : c ∈ active) by (rewrite Hperm; left).
      apply remove_first_perm in Hin. rewrite Hin in Hperm.
      eapply Permutation_cons_inv. exact Hperm.
Qed.

Lemma succeeded_sublist wire snapshot : forall k,
  succeeded wire k snapshot `sublist_of` snapshot.
Proof.
  induction snapshot as [|c rest IH]; simpl; intros k; [constructor|].
  destruct (wire k c); [apply sublist_skip|apply sublist_cons]; apply IH.
Qed.

(** ** The simulator *)

(** What ticks may change of a vehicle's assignment: clear it. *)
Lemma drive_assigned g k ev :
  ev_id (drive g k ev) = ev_id ev /\
  (ev_assigned_station (drive g k ev) = ev_assigned_station ev \/
   ev_assigned_station (drive g k ev) = None).
Proof. unfold drive. destruct (_ =? 0); simpl; auto. Qed.

Lemma kept_or_cleared_trans ev1 ev2 ev3 :
  kept_or_cleared ev1 ev2 -> kept_or_cleared ev2 ev3 -> kept_or_cleared ev1 ev3.
Proof.
  intros [H1 H2] [H3 H4]. split; [congruence|].
  destruct H4 as [H4|H4]; [rewrite H4; exact H2|now right].
Qed.

Lemma simulate_kept g evs : forall k,
  Forall2 kept_or_cleared evs (simulate_ev_movement g k evs).
Proof.
  induction evs as [|ev evs IH]; simpl; intros k; constructor.
  - apply drive_assigned.
  - apply IH.
Qed.


(** ** Runs on fleets that differ in assignments and counters only *)

Lemma real_distance_same_vehicle h n ev ev' station :
  same_vehicle ev ev' ->
  real_distance h n ev' station = real_distance h n ev station.
Proof.
  intros (_ & _ & Hlat & Hlon).
  unfold real_distance, real_distance_run. rewrite Hlat, Hlon. reflexivity.
Qed.

Lemma scan_same h ev ev' rest : forall j c c' best bd,
  timeless h -> same_vehicle ev ev' ->
  scan_choice (scan h ev' rest j c' best bd) =
    scan_choice (scan h ev rest j c best bd).
Proof.
  induction rest as [|st rest IH]; simpl; intros j c c' best bd Ht Hs;
    [reflexivity|].
  destruct (has_capacity st); [|now apply IH].
  rewrite (real_distance_same_vehicle h c' ev ev' st Hs), (Ht c' c ev st).
  destruct (real_distance h c ev st) as [[d| |]|e]; simpl; try reflexivity.
  destruct (ltb d bd); now apply IH.
Qed.

Lemma visit_same h s t i ev ev' :
  timeless h -> same_vehicle ev ev' -> same_state s t ->
  match visit h s i ev, visit h t i ev' with
  | Ok s', Ok t' => same_state s' t'
  | Raise e, Raise e' => e = e'
  | _, _ => False
  end.
Proof.
  intros Ht Hs (Hevs & Hst & Has). unfold visit. rewrite Hst, Has.
  pose proof (scan_same h ev ev' (s_stations s) 0 (s_clock s) (s_clock t)
                None inf Ht Hs) as Hscan.
  destruct (scan h ev (s_stations s) 0 (s_clock s) None inf)
    as [[[best bd] c]|e];
    destruct (scan h ev' (s_stations s) 0 (s_clock t) None inf)
    as [[[best' bd'] c']|e']; simpl in Hscan; try discriminate Hscan.
  - injection Hscan as -> ->. simpl.
    destruct best as [[j station]|]; simpl.
    + split; [|split].
      * simpl. apply Forall2_alter; [exact Hevs|].
        intros x y _ _ Hxy. exact Hxy.
      * reflexivity.
      * simpl. destruct Hs as (-> & _). reflexivity.
    + split; [exact Hevs|]. split; reflexivity.
  - injection Hscan as ->. reflexivity.
Qed.

Lemma visit_all_same h order order' : forall s t,
  timeless h ->
  Forall2 (fun p q => fst q = fst p /\ same_vehicle (snd p) (snd q)) order order' ->
  same_state s t ->
  same_state (fst (visit_all h order s)) (fst (visit_all h order' t)) /\
  snd (visit_all h order' t) = snd (visit_all h order s).
Proof.
  intros s t Ht Hord. revert s t.
  induction Hord as [|[i ev] [i' ev'] order order' [Hi Hev] Hord IH];
    simpl; intros s t Hst; [split; [exact Hst|reflexivity]|].
  simpl in Hi, Hev. subst i'.
  pose proof (visit_same h s t i ev ev' Ht Hev Hst) as Hv.
  destruct (visit h s i ev) as [s'|e]; destruct (visit h t i ev') as [t'|e'];
    try contradiction.
  - now apply IH.
  - simpl. split; [exact Hst|]. now subst.
Qed.

Lemma insert_sorted_same {A K} (lt : K -> K -> bool) (key : A -> K)
    (R : A -> A -> Prop) x y l l' :
  (forall a b, R a b -> key b = key a) ->
  R x y -> Forall2 R l l' ->
  Forall2 R (insert_sorted lt key x l) (insert_sorted lt key y l').
Proof.
  intros Hkey Hxy Hl. induction Hl as [|a b l l' Hab Hl IH]; simpl.
  - constructor; [exact Hxy|constructor].
  - rewrite (Hkey _ _ Hab), (Hkey _ _ Hxy).
    destruct (lt (key a) (key x)); constructor; auto.
Qed.

Lemma py_sorted_same {A K} (lt : K -> K -> bool) (key : A -> K)
    (R : A -> A -> Prop) l l' :
  (forall a b, R a b -> key b = key a) ->
  Forall2 R l l' ->
  Forall2 R (py_sorted lt key l) (py_sorted lt key l').
Proof.
  intros Hkey Hl. induction Hl as [|a b l l' Hab Hl IH]; simpl; [constructor|].
  now apply insert_sorted_same.
Qed.

Lemma evs_sorted_same (evs evs' : list EV) :
  Forall2 same_vehicle evs evs' ->
  Forall2 (fun p q => fst q = fst p /\ same_vehicle (snd p) (snd q))
    (evs_sorted evs) (evs_sorted evs').
Proof.
  intros H. apply py_sorted_same.
  - intros p q (_ & _ & Hb & _). exact Hb.
  - apply Forall2_lookup. intros i. rewrite !list_lookup_imap.
    rewrite Forall2_lookup in H. specialize (H i).
    destruct H as [ev ev' Hev|]; simpl; constructor.
    split; [reflexivity|exact Hev].
Qed.

Lemma reset_same_station (stations stations' : list Station) :
  Forall2 same_station stations stations' ->
  map (set_occupied 0) stations' = map (set_occupied 0) stations.
Proof.
  induction 1 as [|st st' l l' (Hid & Hlat & Hlon & Hcap) _ IH]; simpl;
    [reflexivity|].
  rewrite IH. unfold set_occupied. now rewrite Hid, Hlat, Hlon, Hcap.
Qed.

Lemma assign_charging_same h clock clock' evs evs' stations :
  timeless h -> Forall2 same_vehicle evs evs' ->
  snd (assign_charging h clock' evs' stations) =
    snd (assign_charging h clock evs stations).
Proof.
  intros Ht Hevs. rewrite !assign_charging_unfold. simpl.
  destruct (visit_all_same h (evs_sorted evs) (evs_sorted evs')
              (initial clock evs stations) (initial clock' evs' stations) Ht
              (evs_sorted_same evs evs' Hevs)) as [(_ & _ & Has) Hr].
  { split; [exact Hevs|]. split; reflexivity. }
  rewrite Hr, Has. reflexivity.
Qed.

Lemma assign_charging_reassigned h clock evs stations :
  Forall2 (reassigned stations) evs
    (s_evs (fst (assign_charging h clock evs stations))).
Proof.
  rewrite assign_charging_fst.
  apply visit_all_reassigned; simpl.
  - apply grows_refl.
  - apply reassigned_refl.
Qed.

Lemma reassigned_same_vehicle stations ev ev' :
  reassigned stations ev ev' -> same_vehicle ev ev'.
Proof. intros (H1 & H2 & H3 & H4 & _). repeat split; assumption. Qed.

Lemma grows_same_station station station' :
  grows station station' -> same_station station station'.
Proof. intros (H1 & H2 & H3 & H4 & _). repeat split; assumption. Qed.

(** ** Positions after a tick *)

Lemma step_finite_below :
  finite_below (-10) (decimal 5 4) /\ finite_below (-10) (SFopp (decimal 5 4)).
Proof. vm_compute. repeat split; discriminate. Qed.

Lemma uniform_finite_below g k :
  finite_below 0 (random g k) ->
  finite_below (-5) (uniform g k (SFopp (decimal 5 4)) (decimal 5 4)).
Proof.
  intros Hr. destruct step_finite_below as [Hb Ha]. unfold uniform.
  change (-5) with (-7 + 2). apply add_finite_below; [|  |lia].
  - eapply finite_below_mono; [|exact Ha]. lia.
  - change (-7) with (-8 + 0 + 1). apply mul_finite_below; [|exact Hr|lia].
    change (-8) with (-10 + 2). apply sub_finite_below; [exact Hb|exact Ha|lia].
Qed.

Lemma drive_position g k ev :
  ev_lat (drive g k ev) =
    add (ev_lat ev) (uniform g k (SFopp (decimal 5 4)) (decimal 5 4)) /\
  ev_lon (drive g k ev) =
    add (ev_lon ev) (uniform g (k + 1) (SFopp (decimal 5 4)) (decimal 5 4)).
Proof. unfold drive. destruct (_ =? 0); split; reflexivity. Qed.

(** ** A query that fails *)

Lemma query_all_raises h ev station post e : forall pre c,
  (forall k st, pre !! k = Some st ->
     returns (real_distance h (c + k) ev st)) ->
  real_distance h (c + length pre) ev station = Raise e ->
  query_all h c ev (pre ++ station :: post) = Raise e.
Proof.
  induction pre as [|st pre IH]; simpl; intros c Hpre Hraise.
  - rewrite Nat.add_0_r in Hraise. rewrite Hraise. reflexivity.
  - destruct (Hpre 0%nat st eq_refl) as [d Hd].
    rewrite Nat.add_0_r in Hd. rewrite Hd. simpl.
    rewrite (IH (S c)); [reflexivity| |].
    + intros k st' Hk. replace (S c + k)%nat with (c + S k)%nat by lia.
      apply Hpre. exact Hk.
    + replace (S c + length pre)%nat with (c + S (length pre))%nat by lia.
      exact Hraise.
Qed.

(** ** Priority by battery level *)

Lemma NoDup_fmap_eq {A B} (f : A -> B) (l : list A) x y :
  NoDup (map f l) -> x ∈ l -> y ∈ l -> f x = f y -> x = y.
Proof.
  induction l as [|a l IH]; simpl; intros Hnd Hx Hy Hf.
  - now apply not_elem_of_nil in Hx.
  - apply NoDup_cons in Hnd as [Ha Hnd].
    apply elem_of_cons in Hx as [->|Hx]; apply elem_of_cons in Hy as [->|Hy].
    + reflexivity.
    + exfalso. apply Ha. rewrite Hf. apply list_elem_of_fmap. eauto.
    + exfalso. apply Ha. rewrite <- Hf. apply list_elem_of_fmap. eauto.
    + now apply IH.
Qed.

Lemma StronglySorted_app_order {A} (R : A -> A -> Prop) (l1 l2 : list A) x y :
  StronglySorted R (l1 ++ l2) -> x ∈ l1 -> y ∈ l2 -> R x y.
Proof.
  induction l1 as [|a l1 IH]; simpl; intros Hs Hx Hy.
  - now apply not_elem_of_nil in Hx.
  - apply StronglySorted_inv in Hs as [Hs Ha].
    apply elem_of_cons in Hx as [->|Hx]; [|now apply IH].
    rewrite List.Forall_forall in Ha. apply Ha.
    apply list_elem_of_In, elem_of_app. now right.
Qed.

(** ** Records per station *)

Lemma assigned_to_app id records r :
  assigned_to id (records ++ [r]) =
    assigned_to id records + (if String.eqb (a_station r) id then 1 else 0).
Proof.
  unfold assigned_to. rewrite List.filter_app, length_app. simpl.
  destruct (String.eqb (a_station r) id); simpl; lia.
Qed.

Lemma visit_counted h stations0 s i ev s' :
  NoDup (map st_id stations0) ->
  Forall2 grows stations0 (s_stations s) ->
  Forall2 (counted (s_assignments s)) stations0 (s_stations s) ->
  visit h s i ev = Ok s' ->
  Forall2 (counted (s_assignments s')) stations0 (s_stations s').
Proof.
  intros Hnd Hgr Hinv Hv. apply visit_spec in Hv as (_ & Hv).
  destruct Hv as [(j & st & d & (Hj & _ & _) & _ & _ & _ & _ & Hst & Has)
                 |(_ & _ & Hst & Has)]; rewrite Hst, Has; [|exact Hinv].
  destruct (Forall2_lookup_r _ _ _ _ _ Hgr Hj) as (st0 & Hj0 & Hg).
  apply Forall2_same_length_lookup. split.
  - rewrite length_alter. eapply Forall2_length. eassumption.
  - intros k x y Hx Hy. unfold counted. rewrite assigned_to_app. simpl.
    destruct (decide (k = j)) as [->|Hne].
    + rewrite list_lookup_alter_eq, Hj in Hy. injection Hy as <-.
      rewrite Hj0 in Hx. injection Hx as <-.
      pose proof (Forall2_lookup_lr _ _ _ _ _ _ Hinv Hj0 Hj) as Hc.
      unfold counted in Hc. destruct Hg as (Hid & _). rewrite Hid, String.eqb_refl.
      simpl. lia.
    + rewrite list_lookup_alter_ne in Hy by congruence.
      pose proof (Forall2_lookup_lr _ _ _ _ _ _ Hinv Hx Hy) as Hc.
      unfold counted in Hc. rewrite Hc.
      destruct Hg as (Hid & _). rewrite Hid.
      destruct (String.eqb_spec (st_id st0) (st_id x)) as [Heq|_]; [|lia].
      exfalso. apply Hne.
      eapply NoDup_lookup; [exact Hnd| |].
      * rewrite list_lookup_fmap, Hx. reflexivity.
      * rewrite list_lookup_fmap, Hj0. simpl. now rewrite Heq.
Qed.

(** ** The order of the vehicle list *)

Lemma visit_chargers h s t i i' ev :
  same_chargers s t ->
  match visit h s i ev, visit h t i' ev with
  | Ok s', Ok t' => same_chargers s' t'
  | Raise e, Raise e' => e = e'
  | _, _ => False
  end.
Proof.
  intros (Hst & Has & Hc). unfold visit. rewrite Hst, Has, Hc.
  destruct (scan h ev (s_stations s) 0 (s_clock s) None inf)
    as [[[best bd] c]|e]; simpl; [|reflexivity].
  destruct best as [[j station]|]; simpl; repeat split.
Qed.

Lemma visit_all_chargers h order : forall order' s t,
  map snd order' = map snd order ->
  same_chargers s t ->
  same_chargers (fst (visit_all h order s)) (fst (visit_all h order' t)) /\
  snd (visit_all h order' t) = snd (visit_all h order s).
Proof.
  induction order as [|[i ev] order IH]; intros [|[i' ev'] order'] s t Hmap Hst;
    try discriminate Hmap; simpl.
  - split; [exact Hst|reflexivity].
  - simpl in Hmap. injection Hmap as -> Hmap.
    pose proof (visit_chargers h s t i i' ev Hst) as Hv.
    destruct (visit h s i ev) as [s'|e]; destruct (visit h t i' ev) as [t'|e'];
      try contradiction.
    + now apply IH.
    + simpl. split; [exact Hst|]. now subst.
Qed.

Lemma map_snd_insert_sorted {A B K} (lt : K -> K -> bool) (key : B -> K)
    (x : A * B) (l : list (A * B)) :
  map snd (insert_sorted lt (fun p => key (snd p)) x l) =
    insert_sorted lt key (snd x) (map snd l).
Proof.
  induction l as [|y l IH]; simpl; [reflexivity|].
  destruct (lt (key (snd y)) (key (snd x))); simpl; [now rewrite IH|reflexivity].
Qed.

Lemma map_snd_py_sorted {A B K} (lt : K -> K -> bool) (key : B -> K)
    (l : list (A * B)) :
  map snd (py_sorted lt (fun p => key (snd p)) l) = py_sorted lt key (map snd l).
Proof.
  induction l as [|x l IH]; simpl; [reflexivity|].
  now rewrite map_snd_insert_sorted, IH.
Qed.

Lemma map_snd_evs_sorted (evs : list EV) :
  map snd (evs_sorted evs) = py_sorted Z.ltb ev_battery evs.
Proof.
  unfold evs_sorted. rewrite map_snd_py_sorted. f_equal.
  apply list_eq. intros i.
  change (map snd (imap pair evs)) with (snd <$> imap pair evs).
  rewrite list_lookup_fmap, list_lookup_imap. now destruct (evs !! i).
Qed.

Lemma py_sorted_battery (evs : list EV) :
  StronglySorted (fun a b => ev_battery a <= ev_battery b)
    (py_sorted Z.ltb ev_battery evs).
Proof.
  eapply StronglySorted_weaken;
    [|apply (py_sorted_before Z.ltb ev_battery (fun _ _ => True) (fun _ => True))].
  - intros a b [H|[H _]]; [apply Z.ltb_lt in H|apply Z.ltb_ge in H]; lia.
  - intros a b H. apply Z.ltb_lt in H. apply Z.ltb_ge. lia.
  - intros a b c _ H. apply Z.ltb_lt in H.
    destruct (Z.ltb_spec a b); [now left|right]. apply Z.ltb_lt. lia.
  - apply Forall_forall. trivial.
  - apply StronglySorted_trivial.
Qed.

Lemma sorted_unique {A} (R : A -> A -> Prop) : forall l1 l2 : list A,
  (forall x1 x2, x1 ∈ l1 -> x2 ∈ l2 -> R x1 x2 -> R x2 x1 -> x1 = x2) ->
  StronglySorted R l1 -> StronglySorted R l2 -> l1 ≡ₚ l2 -> l1 = l2.
Proof.
  induction l1 as [|x1 l1 IH]; intros l2 Hanti Hs1 Hs2 Hperm.
  - symmetry. now apply Permutation_nil.
  - destruct l2 as [|x2 l2];
      [symmetry in Hperm; now apply Permutation_nil_cons in Hperm|].
    apply StronglySorted_inv in Hs1 as [Hs1 Hx1].
    apply StronglySorted_inv in Hs2 as [Hs2 Hx2].
    rewrite List.Forall_forall in Hx1, Hx2.
    assert (Heq : x1 = x2).
    { assert (H2 : x2 ∈ x1 :: l1) by (rewrite Hperm; left).
      assert (H1 : x1 ∈ x2 :: l2) by (rewrite <- Hperm; left).
      apply elem_of_cons in H2 as [->|H2]; [reflexivity|].
      apply elem_of_cons in H1 as [->|H1]; [reflexivity|].
      apply Hanti; [left|left| |].
      - apply Hx1. now apply list_elem_of_In.
      - apply Hx2. now apply list_elem_of_In. }
    subst x2. f_equal. apply IH; [|assumption..|].
    + intros y1 y2 Hy1 Hy2. apply Hanti; now right.
    + eapply Permutation_cons_inv. exact Hperm.
Qed.

Lemma py_sorted_battery_unique (evs evs' : list EV) :
  evs ≡ₚ evs' -> NoDup (map ev_battery evs) ->
  py_sorted Z.ltb ev_battery evs' = py_sorted Z.ltb ev_battery evs.
Proof.
  intros Hperm Hnd.
  apply (sorted_unique (fun a b => ev_battery a <= ev_battery b)).
  - intros x1 x2 H1 H2 Hle Hge.
    apply (NoDup_fmap_eq ev_battery evs); [exact Hnd| | |lia].
    + rewrite Hperm, (py_sorted_perm Z.ltb ev_battery evs'). exact H1.
    + rewrite (py_sorted_perm Z.ltb ev_battery evs). exact H2.
  - apply py_sorted_battery.
  - apply py_sorted_battery.
  - rewrite <- !py_sorted_perm. now symmetry.
Qed.

(** * The properties of the specification *)

(** ** C1 *)

(** C1.  A run of [assign_charging] that starts with every counter at 0
    ends, whether it returns or raises, with every station at
    [0 <= occupied], and at [occupied <= capacity] when the capacity, a
    number of chargers, is not negative; the capacities are those on entry.
    A turn raises a counter by one, and only one it found below the
    capacity; it lowers none.  The endpoint starts every run that way. *)
Theorem occupied_within_capacity (h : host) (clock : nat)
    (evs : list EV) (stations : list Station) :
  Forall (fun station => st_occupied station = 0) stations ->
  Forall2 (fun station0 station =>
             st_capacity station = st_capacity station0 /\
             0 <= st_occupied station /\
             (0 <= st_capacity station ->
              st_occupied station <= st_capacity station))
    stations (s_stations (fst (assign_charging h clock evs stations))) /\
  (forall s i ev s',
     visit h s i ev = Ok s' ->
     Forall2 (fun station station' =>
                station' = station \/
                (st_occupied station < st_capacity station /\
                 st_occupied station' = st_occupied station + 1))
       (s_stations s) (s_stations s')) /\
  (forall fleet : FleetData,
     Forall (fun station =>
               0 <= st_occupied station /\
               (0 <= st_capacity station ->
                st_occupied station <= st_capacity station))
       (s_stations (fst (assign_charging_endpoint h clock fleet)))).
Proof.
  intros Hzero. split; [|split].
  - apply grows_from_zero; [assumption|]. apply assign_charging_grows.
  - intros s i ev s' Hv.
    eapply Forall2_impl; [apply (visit_counters _ _ _ _ _ Hv)|].
    intros st st' [->|[Hlt ->]]; [now left|right]. split; [assumption|reflexivity].
  - intros fleet. unfold assign_charging_endpoint.
    eapply Forall2_Forall_r.
    + apply grows_from_zero; [|apply assign_charging_grows].
      apply Forall_forall. intros st Hin.
      apply list_elem_of_fmap in Hin as (st0 & -> & _). reflexivity.
    + apply Forall_forall. intros st0 _ st (_ & Hlo & Hhi). now split.
Qed.

(** ** C2 *)

(** C2.  [assign_charging] visits the vehicles in the order [evs_sorted]:
    a permutation of the vehicles, by ascending battery level, two
    vehicles of equal level in their order in [evs]; the records come out
    in that order.  In particular, with [V1] at battery 20, [V2] at battery
    80 and one station of capacity 1 that the resolver reports closer to
    [V2], in either order of the list [V1] is assigned the station and the
    only record is [V1]'s. *)
Theorem lowest_battery_first :
  (forall (h : host) (clock : nat) (evs : list EV) (stations : list Station),
     Permutation (imap pair evs) (evs_sorted evs) /\
     StronglySorted served_before (evs_sorted evs) /\
     fst (assign_charging h clock evs stations) =
       fst (visit_all h (evs_sorted evs) (initial clock evs stations)) /\
     (forall records,
        snd (assign_charging h clock evs stations) = Ok records ->
        map a_ev records `sublist_of`
          map (fun p => ev_id (snd p)) (evs_sorted evs))) /\
  (forall (h : host) (clock : nat) (V1 V2 : EV) (station : Station)
          (d1 d2 : float),
     ev_battery V1 = 20 -> ev_battery V2 = 80 ->
     st_capacity station = 1 -> st_occupied station = 0 ->
     real_distance h clock V1 station = Ok d1 -> ltb d1 inf = true ->
     real_distance h clock V2 station = Ok d2 -> ltb d2 d1 = true ->
     let record :=
       {| a_ev := ev_id V1; a_station := st_id station;
          a_distance_m := round2 h d1 |} in
     assign_charging h clock [V1; V2] [station] =
       ({| s_evs := [set_assigned_station (Some (st_id station)) V1; V2];
           s_stations := [occupy station];
           s_assignments := [record]; s_clock := S clock |},
        Ok [record]) /\
     assign_charging h clock [V2; V1] [station] =
       ({| s_evs := [V2; set_assigned_station (Some (st_id station)) V1];
           s_stations := [occupy station];
           s_assignments := [record]; s_clock := S clock |},
        Ok [record])).
Proof.
  split.
  - intros h clock evs stations.
    split; [apply evs_sorted_perm|]. split; [apply evs_sorted_order|].
    rewrite assign_charging_unfold. simpl. split; [reflexivity|].
    intros records Hret.
    destruct (visit_all_records h (evs_sorted evs) (initial clock evs stations))
      as (new & Hnew & Hsub).
    destruct (snd (visit_all h (evs_sorted evs) (initial clock evs stations)));
      [discriminate|].
    injection Hret as <-. rewrite Hnew. exact Hsub.
  - intros h clock V1 V2 station d1 d2 H1 H2 Hcap Hocc Hd1 Hlt1 _ _.
    apply one_charger_two_vehicles; try assumption. lia.
Qed.

(** ** C3 *)

(** C3.  At the turn of a vehicle, when every distance query of the turn
    returns a number below [inf] and some station has
    [occupied < capacity], the turn selects a station [j] among those: no
    such station is at a smaller distance, and none at an equal distance
    comes before [j].  The vehicle, which is the object at position [i]
    of [evs], keeps its identifier, battery level and coordinates and has
    the station's identifier as its [assigned_station]; the station keeps
    its identifier, coordinates and capacity and its [occupied] is one
    more than it was; the record of the vehicle's identifier, the
    station's and the rounded distance is appended; no other vehicle and
    no other station changes. *)
Theorem nearest_free_station (h : host) (clock : nat)
    (evs : list EV) (stations : list Station)
    (pre post : list (nat * EV)) (i : nat) (ev : EV) (s : state) :
  evs_sorted evs = pre ++ (i, ev) :: post ->
  visit_all h pre (initial clock evs stations) = (s, None) ->
  (forall k station,
     s_stations s !! k = Some station ->
     st_occupied station < st_capacity station ->
     exists d : float,
       real_distance h (s_clock s + queries_before (s_stations s) k) ev station
         = Ok d /\ ltb d inf = true) ->
  (exists k station,
     s_stations s !! k = Some station /\
     st_occupied station < st_capacity station) ->
  exists (s' : state) (j : nat) (station : Station) (d : float),
    visit_all h (pre ++ [(i, ev)]) (initial clock evs stations) = (s', None) /\
    s_stations s !! j = Some station /\
    st_occupied station < st_capacity station /\
    real_distance h (s_clock s + queries_before (s_stations s) j) ev station
      = Ok d /\
    (forall k station' d',
       observed h ev (s_stations s) (s_clock s) k station' d' ->
       ltb d' d = false) /\
    (forall k station' d',
       observed h ev (s_stations s) (s_clock s) k station' d' ->
       SFeqb d' d = true -> (j <= k)%nat) /\
    s_evs s' !! i =
      Some {| ev_id := ev_id ev; ev_battery := ev_battery ev;
              ev_lat := ev_lat ev; ev_lon := ev_lon ev;
              ev_assigned_station := Some (st_id station) |} /\
    (forall k, k <> i -> s_evs s' !! k = s_evs s !! k) /\
    s_stations s' !! j =
      Some {| st_id := st_id station; st_lat := st_lat station;
              st_lon := st_lon station; st_capacity := st_capacity station;
              st_occupied := st_occupied station + 1 |} /\
    (forall k, k <> j -> s_stations s' !! k = s_stations s !! k) /\
    s_assignments s' =
      s_assignments s ++
        [ {| a_ev := ev_id ev; a_station := st_id station;
             a_distance_m := round2 h d |} ].
Proof.
  intros Hsplit Hpre Hnum (k0 & st0 & Hk0 & Hfree0).
  destruct (turn_selects h s i ev) as
    (s' & j & st & d & Hv & (Hj & Hcap & Hd) & Hmin & Hties & Hevs & Hsts & Has).
  { intros k st Hk Hc. apply Hnum; [assumption|now apply has_capacity_lt]. }
  { exists k0, st0. split; [assumption|now apply has_capacity_lt]. }
  exists s', j, st, d.
  split; [rewrite visit_all_app, Hpre; simpl; now rewrite Hv|].
  split; [assumption|]. split; [now apply has_capacity_lt|].
  split; [assumption|]. split; [assumption|].
  split.
  { intros k st' d' Hobs Heq.
    destruct (Nat.le_gt_cases j k) as [|Hlt]; [assumption|].
    rewrite (Hties k st' d' Hlt Hobs) in Heq. discriminate. }
  destruct (evs_sorted_split _ _ _ _ _ Hsplit) as (Hi & Hfresh & _).
  assert (Hsi : s_evs s !! i = Some ev).
  { pose proof (visit_all_frame h pre (initial clock evs stations) i Hfresh) as Hf.
    rewrite Hpre in Hf. simpl in Hf. now rewrite Hf. }
  split; [rewrite Hevs, list_lookup_alter_eq, Hsi; reflexivity|].
  split; [intros k Hk; rewrite Hevs; apply list_lookup_alter_ne; congruence|].
  split; [rewrite Hsts, list_lookup_alter_eq, Hj; reflexivity|].
  split; [intros k Hk; rewrite Hsts; apply list_lookup_alter_ne; congruence|].
  assumption.
Qed.

(** ** C4 *)

(** C4.  At the turn of a vehicle for which no station has
    [occupied < capacity], the turn changes nothing and asks nothing: no
    record is added, then or later, and the vehicle in [evs] is as it was
    on entry, its [assigned_station] included.  In particular, with three
    vehicles and one station of capacity 1, under the resolver's contract,
    the run returns exactly one record, for the first vehicle of the
    processing order, and leaves the other two vehicles as they were. *)
Theorem full_stations_skip :
  (forall (h : host) (clock : nat) (evs : list EV) (stations : list Station)
          (pre post : list (nat * EV)) (i : nat) (ev : EV) (s : state),
     evs_sorted evs = pre ++ (i, ev) :: post ->
     visit_all h pre (initial clock evs stations) = (s, None) ->
     Forall (fun station => ~ st_occupied station < st_capacity station)
       (s_stations s) ->
     visit h s i ev = Ok s /\
     assign_charging h clock evs stations = (s, Ok (s_assignments s)) /\
     s_evs s !! i = evs !! i) /\
  (forall (h : host) (clock : nat) (v1 v2 v3 : EV) (station : Station),
     st_capacity station = 1 -> st_occupied station = 0 ->
     numeric h [v1; v2; v3] [station] ->
     exists s i ev record,
       evs_sorted [v1; v2; v3] !! 0%nat = Some (i, ev) /\
       assign_charging h clock [v1; v2; v3] [station] = (s, Ok [record]) /\
       a_ev record = ev_id ev /\
       (forall k, k <> i -> s_evs s !! k = [v1; v2; v3] !! k)).
Proof.
  split.
  - intros h clock evs stations pre post i ev s Hsplit Hpre Hfull.
    assert (Hful : Forall (fun st => has_capacity st = false) (s_stations s)).
    { eapply Forall_impl; [exact Hfull|]. intros st Hst. simpl in Hst.
      apply has_capacity_ge. lia. }
    split; [now apply visit_full|]. split.
    + unfold assign_charging.
      rewrite Hsplit, visit_all_app, Hpre. simpl.
      change (match visit h s i ev with
              | Ok s' => visit_all h post s'
              | Raise e => (s, Some e)
              end) with (visit_all h ((i, ev) :: post) s).
      rewrite visit_all_full by assumption. reflexivity.
    + destruct (evs_sorted_split _ _ _ _ _ Hsplit) as (_ & Hfresh & _).
      pose proof (visit_all_frame h pre (initial clock evs stations) i Hfresh) as Hf.
      rewrite Hpre in Hf. exact Hf.
  - intros h clock v1 v2 v3 station Hcap Hocc Hnum.
    destruct (assign_charging_shape h clock [v1; v2; v3] [station] Hnum)
      as (s & records & Hrun & Hids & _ & Hfr).
    { repeat constructor. unfold within_capacity. lia. }
    assert (Hserved : served (evs_sorted [v1; v2; v3]) [station] = 1%nat).
    { apply Nat2Z.inj. rewrite served_length;
        unfold free_chargers; simpl; lia. }
    rewrite Hserved in *.
    destruct (evs_sorted [v1; v2; v3]) as [|[i ev] order] eqn:Horder.
    { apply (f_equal length) in Horder. unfold evs_sorted in Horder.
      rewrite py_sorted_length in Horder. discriminate. }
    simpl in Hids, Hfr.
    destruct records as [|record [|record' records]]; try discriminate.
    injection Hids as Hid.
    exists s, i, ev, record. repeat split; try assumption.
    intros k Hk. apply Hfr. rewrite ?take_0. simpl. intros Hin.
    apply list_elem_of_singleton in Hin. congruence.
Qed.

(** ** C5 *)

(** C5.  When the primary provider fails and the secondary one is not
    configured or fails too, what [real_distance] returns is the float
    [flat_earth_formula]: the square root of the sum of the squares of the
    latitude delta times 111320 and of the longitude delta times 111320
    times the cosine of the vehicle's latitude in radians, each operation
    being that of binary64 arithmetic and the cosine and the square those
    of the C library.  It returns it for every vehicle and station with
    bounded coordinates.  Where the C library's [pow] rounds to nearest,
    the squares are the IEEE products.  The result is the same for any
    query, vehicle and station with the same four coordinates, on the same
    platform. *)
Theorem flat_earth_fallback (h : host) (n : nat) (ev : EV) (station : Station) :
  osrm (network h n) = None ->
  truthy (ORS_API_KEY h) = None \/ ors (network h n) = None ->
  let formula cosine square :=
    flat_earth_formula cosine square
      (ev_lat ev, ev_lon ev) (st_lat station, st_lon station) in
  (forall v,
     real_distance h n ev station = Ok v ->
     v = JNumber (formula (c_cos (libm_cos h)) (c_pow2 (libm_pow_off h)))) /\
  (bounded_vehicle h ev -> bounded_station station ->
   real_distance h n ev station =
     Ok (JNumber (formula (libm_cos h) (c_pow2 (libm_pow_off h))))) /\
  ((forall x, libm_pow_off h x = false) ->
   forall cosine,
     formula cosine (c_pow2 (libm_pow_off h)) =
       formula cosine (fun x => SFmul prec emax x x)) /\
  (forall (h' : host) (n' : nat) (ev' : EV) (station' : Station),
     osrm (network h' n') = None ->
     truthy (ORS_API_KEY h') = None \/ ors (network h' n') = None ->
     libm_cos h' = libm_cos h -> libm_pow_off h' = libm_pow_off h ->
     ev_lat ev' = ev_lat ev -> ev_lon ev' = ev_lon ev ->
     st_lat station' = st_lat station -> st_lon station' = st_lon station ->
     real_distance h' n' ev' station' = real_distance h n ev station).
Proof.
  intros H1 H2 formula.
  assert (Hval : forall v,
            real_distance h n ev station = Ok v ->
            v = JNumber (formula (c_cos (libm_cos h)) (c_pow2 (libm_pow_off h)))).
  { intros v. rewrite (real_distance_fallback h n ev station H1 H2).
    unfold as_json, mbind, result_bind.
    destruct (flat_earth _ _ _ _ _ _) as [d|e] eqn:Hd; [|discriminate].
    intros [= <-]. f_equal. now apply flat_earth_value. }
  split; [exact Hval|]. split; [|split].
  - intros (Hlat & Hlon & Hc) (Hlat' & Hlon').
    destruct (flat_earth_finite_below (libm_cos h) (libm_pow_off h) _ _ _ _ 160
                ltac:(lia) Hlat Hlon Hlat' Hlon' Hc) as (d & Hd & _).
    assert (Hr : real_distance h n ev station = Ok (JNumber d)).
    { rewrite (real_distance_fallback h n ev station H1 H2), Hd. reflexivity. }
    rewrite Hr, (Hval _ Hr). do 2 f_equal.
    assert (Hfin : is_finite (radians (ev_lat ev)) = true).
    { apply (finite_below_finite (160 + -5 + 1)).
      apply mul_finite_below; [assumption|apply degToRad_finite_below|lia]. }
    unfold formula, flat_earth_formula, c_cos. cbn [fst snd].
    rewrite radians_formula, Hfin. reflexivity.
  - intros Hoff cosine. unfold formula, flat_earth_formula, euclidean_norm.
    rewrite !c_pow2_nearest by apply Hoff. reflexivity.
  - intros h' n' ev' station' H1' H2' Hcos Hpow Hlat Hlon Hlat' Hlon'.
    rewrite (real_distance_fallback h n ev station H1 H2).
    rewrite (real_distance_fallback h' n' ev' station' H1' H2').
    now rewrite Hcos, Hpow, Hlat, Hlon, Hlat', Hlon'.
Qed.

(** ** C6 *)



(** ** C7 *)

(** C7.  A tick takes from the battery of every vehicle an integer [r]
    between 0 and 2 and stops at 0; when that leaves exactly 0 the battery
    is 100 and [assigned_station] is [None] after the tick, otherwise the
    battery is what is left and [assigned_station] is kept.  From
    batteries in [0, 100] the tick leaves every battery in (0, 100], and
    so does every later tick of the scheduler. *)
Theorem battery_never_rests_at_zero (g : generator) (k : nat) (fleet : FleetData) :
  Forall (fun ev => 0 <= ev_battery ev <= 100) (evs fleet) ->
  Forall2 (fun ev ev' =>
             (exists r, 0 <= r <= 2 /\ drained r ev ev') /\
             0 < ev_battery ev' <= 100)
    (evs fleet) (evs (scheduled_job g k fleet)) /\
  (forall ticks,
     Forall (fun ev => 0 < ev_battery ev <= 100)
       (evs (run_scheduler g (S ticks) k fleet))).
Proof.
  intros H. split.
  - simpl. revert k. induction H as [|ev l Hev _ IH]; intros k; simpl; constructor.
    + split; [|now apply drive_battery].
      exists (randint g (k + 2) 0 2).
      split; [apply randint_range; lia|apply drive_drained].
    + apply IH.
  - intros ticks. simpl.
    apply run_scheduler_battery. simpl. now apply simulate_battery.
Qed.

(** ** C8 *)



(** ** C9 *)

(** C9.  When the fleet is broadcast over a registry without repetition,
    every registered observer is written to once; an observer whose write
    succeeds receives the payload and stays registered, one whose write
    fails is no longer registered afterwards, and nobody else is
    registered.  In particular, of three observers of which one fails, the
    other two receive the payload and are the registry afterwards. *)
Theorem broadcast_drops_failed_observers
    (wire : nat -> WebSocket -> bool) (fleet : FleetData) (m : ConnectionManager) :
  NoDup (active_connections m) ->
  exists m' delivered,
    broadcast_fleet wire fleet m = (m', delivered) /\
    (forall i c,
       active_connections m !! i = Some c -> wire i c = true ->
       (c ∈ active_connections m') /\ ((c, fleet) ∈ delivered)) /\
    (forall i c,
       active_connections m !! i = Some c -> wire i c = false ->
       (c ∉ active_connections m') /\ ((c, fleet) ∉ delivered)) /\
    (forall c, c ∈ active_connections m' -> c ∈ active_connections m) /\
    (forall a b c,
       active_connections m = [a; b; c] ->
       (wire 0%nat a = false -> wire 1%nat b = true -> wire 2%nat c = true ->
        active_connections m' = [b; c] /\
        delivered = [(b, fleet); (c, fleet)]) /\
       (wire 0%nat a = true -> wire 1%nat b = false -> wire 2%nat c = true ->
        active_connections m' = [a; c] /\
        delivered = [(a, fleet); (c, fleet)]) /\
       (wire 0%nat a = true -> wire 1%nat b = true -> wire 2%nat c = false ->
        active_connections m' = [a; b] /\
        delivered = [(a, fleet); (b, fleet)])).
Proof.
  intros Hnd. unfold broadcast_fleet.
  rewrite (broadcast_spec wire fleet m Hnd).
  eexists _, _. split; [reflexivity|]. simpl.
  assert (Hlog : forall c,
            (c, fleet) ∈ map (fun connection => (connection, fleet))
                           (succeeded wire 0 (active_connections m)) <->
            c ∈ succeeded wire 0 (active_connections m)).
  { intros c. change (map ?f ?l) with (f <$> l). rewrite list_elem_of_fmap. split.
    - intros (x & [= ->] & Hx). exact Hx.
    - intros Hc. now exists c. }
  split; [|split; [|split]].
  - intros i c Hi Hw.
    assert (c ∈ succeeded wire 0 (active_connections m))
      by (apply elem_of_succeeded; eauto).
    split; [assumption|now apply Hlog].
  - intros i c Hi Hw.
    assert (Hnot : c ∉ succeeded wire 0 (active_connections m)).
    { intros Hin. apply elem_of_succeeded in Hin as (i' & Hi' & Hw').
      simpl in Hw'. rewrite (NoDup_lookup _ _ _ _ Hnd Hi' Hi) in Hw'. congruence. }
    split; [assumption|]. intros Hin. apply Hnot. now apply Hlog.
  - intros c Hin. apply elem_of_succeeded in Hin as (i & Hi & _).
    eapply list_elem_of_lookup_2. eassumption.
  - intros a b c ->. simpl.
    split; [|split]; intros Ha Hb Hc; rewrite Ha, Hb, Hc; split; reflexivity.
Qed.

(** ** C10 *)

(** C10.  For vehicles with pairwise distinct identifiers, as the fleet
    has them, stations of positive capacity with their counters at 0 and a
    resolver that answers every query with a number below [inf],
    [assign_charging] returns, the number of records is the smaller of
    the number of vehicles and the sum of the capacities, no identifier is
    in two records and the counters add up to the number of records. *)
Theorem records_fill_capacity (h : host) (clock : nat)
    (evs : list EV) (stations : list Station) :
  NoDup (map ev_id evs) ->
  Forall (fun station => 0 < st_capacity station /\ st_occupied station = 0)
    stations ->
  numeric h evs stations ->
  exists s records,
    assign_charging h clock evs stations = (s, Ok records) /\
    Z.of_nat (length records) =
      Z.min (Z.of_nat (length evs)) (total_capacity stations) /\
    NoDup (map a_ev records) /\
    total_occupied (s_stations s) = Z.of_nat (length records).
Proof.
  intros Hids Hst Hnum.
  assert (Hzero : total_occupied stations = 0).
  { apply total_occupied_zero. eapply Forall_impl; [exact Hst|]. now intros st [_ ?]. }
  assert (Hw : Forall within_capacity stations).
  { eapply Forall_impl; [exact Hst|]. intros st [? ?]. unfold within_capacity. lia. }
  pose proof (total_occupied_le _ Hw) as Hle.
  destruct (assign_charging_shape h clock evs stations Hnum Hw)
    as (s & records & Hrun & Hrec & Hocc & _).
  pose proof (served_length evs stations) as Hserved.
  unfold free_chargers in Hserved. rewrite Hzero, Z.sub_0_r in Hserved.
  specialize (Hserved ltac:(lia)).
  assert (Hlen : length records = served (evs_sorted evs) stations).
  { rewrite <- (length_map a_ev), Hrec, length_map, length_take.
    unfold evs_sorted at 2. rewrite py_sorted_length, length_imap. lia. }
  exists s, records. split; [assumption|]. split; [lia|]. split.
  - rewrite Hrec.
    change (map ?f ?l) with (f <$> l). rewrite fmap_take.
    eapply sublist_NoDup; [|apply sublist_take].
    change (?f <$> ?l) with (map f l). now rewrite evs_sorted_ids.
  - lia.
Qed.

(** * Instances on the sample fleet *)

Lemma occupied_within_capacity_witness :
  Forall (fun station => st_occupied station = 0) (stations fleet_data) /\
  Forall2 (fun station0 station =>
             st_capacity station = st_capacity station0 /\
             0 <= st_occupied station /\
             (0 <= st_capacity station ->
              st_occupied station <= st_capacity station))
    (stations fleet_data)
    (s_stations
       (fst (assign_charging offline 0 (evs fleet_data) (stations fleet_data)))).
Proof.
  assert (Hzero : Forall (fun station => st_occupied station = 0)
                    (stations fleet_data))
    by (repeat constructor).
  split; [exact Hzero|].
  exact (proj1 (occupied_within_capacity offline 0 (evs fleet_data)
                  (stations fleet_data) Hzero)).
Defined.

Lemma lowest_battery_first_witness :
  let V1 := mkEV "V1" 20 (decimal 408000 4) (decimal (-740100) 4) in
  let V2 := mkEV "V2" 80 (decimal 407201 4) (decimal (-740100) 4) in
  let station := mkStation "Station-A" (decimal 407200 4) (decimal (-740100) 4) 1 in
  exists d1 d2 : float,
    real_distance offline 0 V1 station = Ok d1 /\ ltb d1 inf = true /\
    real_distance offline 0 V2 station = Ok d2 /\ ltb d2 d1 = true /\
    snd (assign_charging offline 0 [V2; V1] [station]) =
      Ok [ {| a_ev := "V1"; a_station := "Station-A";
              a_distance_m := round_2 d1 |} ].
Proof.
  intros V1 V2 station.
  set (distance (ev : EV) :=
         flat_earth_formula (c_cos poly_cos) (c_pow2 (fun _ => false))
           (ev_lat ev, ev_lon ev) (st_lat station, st_lon station)).
  assert (H1 : real_distance offline 0 V1 station = Ok (JNumber (distance V1)))
    by (vm_compute; reflexivity).
  assert (H2 : real_distance offline 0 V2 station = Ok (JNumber (distance V2)))
    by (vm_compute; reflexivity).
  assert (Hlt1 : ltb (distance V1) inf = true) by (vm_compute; reflexivity).
  assert (Hlt2 : ltb (distance V2) (distance V1) = true)
    by (vm_compute; reflexivity).
  exists (distance V1), (distance V2).
  split; [exact H1|]. split; [exact Hlt1|]. split; [exact H2|].
  split; [exact Hlt2|].
  destruct (proj2 lowest_battery_first offline 0%nat V1 V2 station
              (distance V1) (distance V2)
              eq_refl eq_refl eq_refl eq_refl H1 Hlt1 H2 Hlt2) as [_ ->].
  reflexivity.
Defined.

Lemma nearest_free_station_witness :
  let ev := mkEV "DUO-Y" 20 (decimal 407138 4) (decimal (-740050) 4) in
  let s := initial 0 (evs fleet_data) (stations fleet_data) in
  exists post,
    evs_sorted (evs fleet_data) = [] ++ (1%nat, ev) :: post /\
    visit_all offline [] s = (s, None) /\
    (forall k station,
       s_stations s !! k = Some station ->
       st_occupied station < st_capacity station ->
       exists d : float,
         real_distance offline (s_clock s + queries_before (s_stations s) k)
           ev station = Ok d /\ ltb d inf = true) /\
    (exists k station,
       s_stations s !! k = Some station /\
       st_occupied station < st_capacity station) /\
    exists (s' : state) (j : nat) (station : Station) (d : float),
      visit_all offline ([] ++ [(1%nat, ev)]) s = (s', None) /\
      s_stations s !! j = Some station /\
      ev_assigned_station <$> s_evs s' !! 1%nat = Some (Some (st_id station)) /\
      st_occupied <$> s_stations s' !! j = Some (st_occupied station + 1) /\
      s_assignments s' =
        s_assignments s ++
          [ {| a_ev := ev_id ev; a_station := st_id station;
               a_distance_m := round2 offline d |} ].
Proof.
  intros ev s.
  assert (Hnum : forall k station,
            s_stations s !! k = Some station ->
            st_occupied station < st_capacity station ->
            exists d : float,
              real_distance offline (s_clock s + queries_before (s_stations s) k)
                ev station = Ok d /\ ltb d inf = true).
  { intros [|[|[|k]]] station Hk _; try discriminate;
      injection Hk as <-; eexists; split; vm_compute; reflexivity. }
  assert (Hfree : exists k station,
            s_stations s !! k = Some station /\
            st_occupied station < st_capacity station).
  { exists 0%nat. eexists. split; [reflexivity|]. simpl. lia. }
  eexists. split; [vm_compute; reflexivity|]. split; [reflexivity|].
  split; [exact Hnum|]. split; [exact Hfree|].
  destruct (nearest_free_station offline 0 (evs fleet_data) (stations fleet_data)
              [] _ 1%nat ev s eq_refl eq_refl Hnum Hfree)
    as (s' & j & station & d & Hrun & Hj & _ & _ & _ & _ & Hev & _ & Hst & _ & Has).
  exists s', j, station, d. split; [exact Hrun|]. split; [exact Hj|].
  split; [now rewrite Hev|]. split; [now rewrite Hst|]. exact Has.
Defined.

Lemma full_stations_skip_witness :
  let v1 := mkEV "UNO" 30 (decimal 407128 4) (decimal (-740060) 4) in
  let v2 := mkEV "DUO-Y" 20 (decimal 407138 4) (decimal (-740050) 4) in
  let v3 := mkEV "LIVRO" 60 (decimal 407150 4) (decimal (-740070) 4) in
  let station := mkStation "Station-B" (decimal 407300 4) (decimal (-740000) 4) 1 in
  let h := online (fun _ => of_Z 1200) in
  st_capacity station = 1 /\ st_occupied station = 0 /\
  numeric h [v1; v2; v3] [station] /\
  exists s i ev record,
    evs_sorted [v1; v2; v3] !! 0%nat = Some (i, ev) /\
    assign_charging h 0 [v1; v2; v3] [station] = (s, Ok [record]) /\
    a_ev record = ev_id ev /\
    (forall k, k <> i -> s_evs s !! k = [v1; v2; v3] !! k).
Proof.
  intros v1 v2 v3 station h.
  assert (Hnum : numeric h [v1; v2; v3] [station]).
  { intros n ev st _ _. exists (of_Z 1200). split; reflexivity. }
  split; [reflexivity|]. split; [reflexivity|]. split; [exact Hnum|].
  exact (proj2 full_stations_skip h 0%nat v1 v2 v3 station eq_refl eq_refl Hnum).
Defined.

Lemma flat_earth_fallback_witness :
  let ev := mkEV "UNO" 30 (decimal 407128 4) (decimal (-740060) 4) in
  let station := mkStation "Station-A" (decimal 407200 4) (decimal (-740100) 4) 2 in
  osrm (network offline 0) = None /\
  (truthy (ORS_API_KEY offline) = None \/ ors (network offline 0) = None) /\
  bounded_vehicle offline ev /\ bounded_station station /\
  real_distance offline 0 ev station =
    Ok (JNumber
          (flat_earth_formula poly_cos (c_pow2 (fun _ => false))
             (ev_lat ev, ev_lon ev) (st_lat station, st_lon station))).
Proof.
  intros ev station.
  assert (Hev : bounded_vehicle offline ev)
    by (vm_compute; repeat split; discriminate).
  assert (Hst : bounded_station station)
    by (vm_compute; repeat split; discriminate).
  split; [reflexivity|]. split; [left; reflexivity|].
  split; [exact Hev|]. split; [exact Hst|].
  exact (proj1 (proj2 (flat_earth_fallback offline 0 ev station eq_refl
                         (or_introl eq_refl))) Hev Hst).
Defined.


Lemma battery_never_rests_at_zero_witness :
  Forall (fun ev => 0 <= ev_battery ev <= 100) (evs fleet_data) /\
  Forall2 (fun ev ev' =>
             (exists r, 0 <= r <= 2 /\ drained r ev ev') /\
             0 < ev_battery ev' <= 100)
    (evs fleet_data) (evs (scheduled_job sample_generator 0 fleet_data)).
Proof.
  assert (H : Forall (fun ev => 0 <= ev_battery ev <= 100) (evs fleet_data))
    by (repeat (constructor; [simpl; lia|]); constructor).
  split; [exact H|].
  exact (proj1 (battery_never_rests_at_zero sample_generator 0 fleet_data H)).
Defined.


Lemma broadcast_drops_failed_observers_witness :
  let m := {| active_connections := [5; 7; 9]%nat |} in
  let wire := fun (_ : nat) (c : WebSocket) => negb (Nat.eqb c 7) in
  NoDup (active_connections m) /\
  exists m' delivered,
    broadcast_fleet wire fleet_data m = (m', delivered) /\
    active_connections m' = [5; 9]%nat /\
    delivered = [(5%nat, fleet_data); (9%nat, fleet_data)].
Proof.
  intros m wire.
  assert (Hnd : NoDup (active_connections m)).
  { apply (bool_decide_unpack _). vm_compute. exact I. }
  split; [exact Hnd|].
  destruct (broadcast_drops_failed_observers wire fleet_data m Hnd)
    as (m' & delivered & Hjob & _ & _ & _ & Hthree).
  destruct (Hthree 5%nat 7%nat 9%nat eq_refl) as (_ & Hmid & _).
  destruct (Hmid eq_refl eq_refl eq_refl) as [Hactive Hdelivered].
  exists m', delivered. split; [exact Hjob|]. split; [exact Hactive|].
  exact Hdelivered.
Defined.

Lemma records_fill_capacity_witness :
  let h := online (fun _ => of_Z 1200) in
  NoDup (map ev_id (evs fleet_data)) /\
  Forall (fun station => 0 < st_capacity station /\ st_occupied station = 0)
    (stations fleet_data) /\
  numeric h (evs fleet_data) (stations fleet_data) /\
  exists s records,
    assign_charging h 0 (evs fleet_data) (stations fleet_data) = (s, Ok records) /\
    Z.of_nat (length records) =
      Z.min (Z.of_nat (length (evs fleet_data)))
        (total_capacity (stations fleet_data)) /\
    NoDup (map a_ev records) /\
    total_occupied (s_stations s) = Z.of_nat (length records).
Proof.
  intros h.
  assert (Hids : NoDup (map ev_id (evs fleet_data))).
  { apply (bool_decide_unpack _). vm_compute. exact I. }
  assert (Hst : Forall (fun station =>
                          0 < st_capacity station /\ st_occupied station = 0)
                  (stations fleet_data))
    by (repeat (constructor; [simpl; split; [lia|reflexivity]|]); constructor).
  assert (Hnum : numeric h (evs fleet_data) (stations fleet_data)).
  { intros n ev st _ _. exists (of_Z 1200). split; reflexivity. }
  split; [exact Hids|]. split; [exact Hst|]. split; [exact Hnum|].
  exact (records_fill_capacity h 0 (evs fleet_data) (stations fleet_data)
           Hids Hst Hnum).
Defined.

(** * Further properties of the code *)

(** ** The distance resolver on bounded coordinates *)

(** X1.  When neither provider gives a distance, [real_distance] returns a
    finite distance that is not negative, and raises nothing, for every
    vehicle and station whose four coordinates are finite doubles below
    [2^160] in magnitude, provided the C library's cosine of the vehicle's
    latitude in radians is a finite double below [2] in magnitude. *)
Theorem fallback_returns_on_bounded_coordinates
    (h : host) (n : nat) (ev : EV) (station : Station) :
  osrm (network h n) = None ->
  truthy (ORS_API_KEY h) = None \/ ors (network h n) = None ->
  finite_below 160 (ev_lat ev) -> finite_below 160 (ev_lon ev) ->
  finite_below 160 (st_lat station) -> finite_below 160 (st_lon station) ->
  finite_below 1 (libm_cos h (radians (ev_lat ev))) ->
  exists d : float, real_distance h n ev station = Ok d /\
    is_finite d = true /\ ltb d (S754_zero false) = false /\ ltb d inf = true.
Proof.
  intros H1 H2 Hlat Hlon Hlat' Hlon' Hc.
  rewrite (real_distance_fallback h n ev station H1 H2).
  destruct (flat_earth_finite_below (libm_cos h) (libm_pow_off h) _ _ _ _ 160
              ltac:(lia) Hlat Hlon Hlat' Hlon' Hc) as (d & Hd & Hm & Hs).
  exists d. split; [now rewrite Hd|].
  split; [apply (finite_below_finite _ _ Hm)|].
  split; [apply (not_negative_ge_zero _ _ Hm Hs)|apply (finite_below_lt_inf _ _ Hm)].
Qed.

Lemma fallback_returns_on_bounded_coordinates_witness :
  let ev := mkEV "UNO" 30 (decimal 407128 4) (decimal (-740060) 4) in
  let station := mkStation "Station-A" (decimal 407200 4) (decimal (-740100) 4) 2 in
  exists d : float, real_distance offline 0 ev station = Ok d /\
    is_finite d = true /\ ltb d (S754_zero false) = false /\ ltb d inf = true.
Proof.
  intros ev station.
  apply (fallback_returns_on_bounded_coordinates offline 0 ev station).
  - reflexivity.
  - left. reflexivity.
  - vm_compute. split; discriminate.
  - vm_compute. split; discriminate.
  - vm_compute. split; discriminate.
  - vm_compute. split; discriminate.
  - vm_compute. split; discriminate.
Defined.

(** X2.  When neither provider gives a distance, the distance from a
    vehicle to a station at the vehicle's own coordinates is exactly
    [0.0], for coordinates and a cosine bounded as above. *)
Theorem same_place_is_at_distance_zero
    (h : host) (n : nat) (ev : EV) (station : Station) :
  osrm (network h n) = None ->
  truthy (ORS_API_KEY h) = None \/ ors (network h n) = None ->
  finite_below 160 (ev_lat ev) -> finite_below 160 (ev_lon ev) ->
  finite_below 1 (libm_cos h (radians (ev_lat ev))) ->
  st_lat station = ev_lat ev -> st_lon station = ev_lon ev ->
  real_distance h n ev station = Ok (S754_zero false).
Proof.
  intros H1 H2 Hlat Hlon Hc Hlat' Hlon'.
  rewrite (real_distance_fallback h n ev station H1 H2), Hlat', Hlon'.
  now rewrite (flat_earth_same_place (libm_cos h) (libm_pow_off h)
                 (ev_lat ev) (ev_lon ev) 160 ltac:(lia) Hlat Hlon Hc).
Qed.

Lemma same_place_is_at_distance_zero_witness :
  let ev := mkEV "UNO" 30 (decimal 407200 4) (decimal (-740100) 4) in
  let station := mkStation "Station-A" (decimal 407200 4) (decimal (-740100) 4) 2 in
  real_distance offline 0 ev station = Ok (S754_zero false).
Proof.
  intros ev station.
  apply (same_place_is_at_distance_zero offline 0 ev station).
  - reflexivity.
  - left. reflexivity.
  - vm_compute. split; discriminate.
  - vm_compute. split; discriminate.
  - vm_compute. split; discriminate.
  - reflexivity.
  - reflexivity.
Defined.

(** X3.  When neither provider gives a distance and the vehicle's latitude
    is [nan], [real_distance] raises nothing and returns [nan], whatever
    the other coordinates are. *)
Theorem nan_latitude_gives_nan (h : host) (n : nat) (ev : EV) (station : Station) :
  osrm (network h n) = None ->
  truthy (ORS_API_KEY h) = None \/ ors (network h n) = None ->
  is_nan (ev_lat ev) = true ->
  real_distance h n ev station = Ok nan.
Proof.
  intros H1 H2 Hnan.
  rewrite (real_distance_fallback h n ev station H1 H2).
  destruct (ev_lat ev); try discriminate Hnan.
  now rewrite flat_earth_nan_latitude.
Qed.

Lemma nan_latitude_gives_nan_witness :
  let ev := mkEV "UNO" 30 nan (decimal (-740060) 4) in
  let station := mkStation "Station-A" (decimal 407200 4) (decimal (-740100) 4) 2 in
  real_distance offline 0 ev station = Ok nan.
Proof.
  intros ev station.
  apply (nan_latitude_gives_nan offline 0 ev station).
  - reflexivity.
  - left. reflexivity.
  - reflexivity.
Defined.

(** ** The assignment endpoint on a bounded fleet *)

(** X4.  On a fleet whose vehicles and stations have bounded coordinates
    and whose stations have capacities that are not negative, with
    providers whose answers are numbers below [inf], the assignment
    endpoint raises nothing: it returns
    [min (number of vehicles) (sum of the capacities)] records. *)
Theorem endpoint_returns_on_bounded_fleet (h : host) (clock : nat)
    (fleet : FleetData) :
  finite_answers h ->
  Forall (bounded_vehicle h) (evs fleet) ->
  Forall (fun station => bounded_station station /\ 0 <= st_capacity station)
    (stations fleet) ->
  exists s records,
    assign_charging_endpoint h clock fleet = (s, Ok records) /\
    Z.of_nat (length records) =
      Z.min (Z.of_nat (length (evs fleet))) (total_capacity (stations fleet)).
Proof.
  intros Hans Hevs Hst. unfold assign_charging_endpoint.
  set (stations' := map (set_occupied 0) (stations fleet)).
  assert (Hnum : numeric h (evs fleet) stations').
  { apply numeric_bounded; [assumption..|].
    subst stations'. apply Forall_fmap. eapply Forall_impl; [exact Hst|].
    intros st [Hb _]. exact Hb. }
  assert (Hwithin : Forall within_capacity stations').
  { subst stations'. apply Forall_fmap. eapply Forall_impl; [exact Hst|].
    intros st [_ Hc]. unfold within_capacity. simpl. exact Hc. }
  destruct (assign_charging_shape h clock (evs fleet) stations' Hnum Hwithin)
    as (s & records & Hrun & Hrec & _).
  exists s, records. split; [exact Hrun|].
  assert (Hfree : free_chargers stations' = total_capacity (stations fleet)).
  { unfold free_chargers. subst stations'.
    rewrite total_capacity_reset, total_occupied_reset. lia. }
  assert (Hnn : 0 <= total_capacity (stations fleet)).
  { apply total_capacity_nonneg. eapply Forall_impl; [exact Hst|].
    intros st [_ Hc]. exact Hc. }
  rewrite <- Hfree, <- served_length by lia.
  apply (f_equal length) in Hrec. rewrite !length_map, length_take in Hrec.
  rewrite Hrec. unfold served in *. 
  pose proof (py_sorted_length Z.ltb (fun p => ev_battery (snd p)) (imap pair (evs fleet))) as Hl.
  fold (evs_sorted (evs fleet)) in Hl. lia.
Qed.

Lemma endpoint_returns_on_bounded_fleet_witness :
  exists s records,
    assign_charging_endpoint offline 0 fleet_data = (s, Ok records) /\
    Z.of_nat (length records) =
      Z.min (Z.of_nat (length (evs fleet_data))) (total_capacity (stations fleet_data)).
Proof.
  apply (endpoint_returns_on_bounded_fleet offline 0 fleet_data).
  - intros n d [H|H]; discriminate H.
  - unfold fleet_data. cbn [evs].
    repeat (apply List.Forall_cons; [vm_compute; repeat split; discriminate|]).
    apply List.Forall_nil.
  - unfold fleet_data. cbn [stations].
    repeat (apply List.Forall_cons; [vm_compute; repeat split; discriminate|]).
    apply List.Forall_nil.
Defined.

(** ** The assignment engine *)

(** X5.  When every distance the resolver returns for the vehicles and
    stations of a run is [inf] or [nan], no vehicle is assigned, free
    chargers or not: the run returns the empty list and leaves the
    vehicles and the stations as they were. *)
Theorem unreachable_stations_assign_nothing (h : host) (clock : nat)
    (evs : list EV) (stations : list Station) :
  (forall n ev station,
     ev ∈ evs -> station ∈ stations ->
     exists d : float, real_distance h n ev station = Ok d /\ ltb d inf = false) ->
  exists c,
    assign_charging h clock evs stations =
      ({| s_evs := evs; s_stations := stations; s_assignments := [];
          s_clock := c |}, Ok []).
Proof.
  intros Hq. unfold assign_charging.
  destruct (visit_all_unreachable h evs (evs_sorted evs)
              (initial clock evs stations) Hq (evs_sorted_elem evs)) as [c ->].
  exists c. reflexivity.
Qed.

Lemma unreachable_stations_assign_nothing_witness :
  exists c,
    assign_charging (online (fun _ => inf)) 0 (evs fleet_data) (stations fleet_data) =
      ({| s_evs := evs fleet_data; s_stations := stations fleet_data;
          s_assignments := []; s_clock := c |}, Ok []).
Proof.
  apply (unreachable_stations_assign_nothing (online (fun _ => inf)) 0).
  intros n ev station _ _. exists inf. split; reflexivity.
Defined.

(** X6.  Whether it returns or raises, a run of [assign_charging] leaves
    every vehicle at its position in the list with its identifier,
    battery level and coordinates; the station a vehicle is assigned to
    either stays as it was (a run never clears it) or becomes the
    identifier of one of the stations of the run.  Every station keeps
    its position, identifier, coordinates and capacity. *)
Theorem run_changes_assignments_and_counters_only (h : host) (clock : nat)
    (evs : list EV) (stations : list Station) :
  let s := fst (assign_charging h clock evs stations) in
  Forall2 (reassigned stations) evs (s_evs s) /\
  Forall2 same_station stations (s_stations s).
Proof.
  intros s. subst s. split.
  - apply assign_charging_reassigned.
  - eapply Forall2_impl; [apply assign_charging_grows|].
    intros st st'. apply grows_same_station.
Qed.

(** X7.  Whether a run of [assign_charging] returns or raises, the
    counters it leaves count the records it made: the sum of [occupied]
    over the stations is the sum on entry plus the number of records;
    and every record names the identifier of a vehicle and of a station of
    the run. *)
Theorem counters_count_the_records (h : host) (clock : nat)
    (evs : list EV) (stations : list Station) :
  let s := fst (assign_charging h clock evs stations) in
  total_occupied (s_stations s) =
    total_occupied stations + Z.of_nat (length (s_assignments s)) /\
  Forall (fun r => a_ev r ∈ map ev_id evs /\ a_station r ∈ map st_id stations)
    (s_assignments s).
Proof.
  intros s. subst s. rewrite assign_charging_fst.
  apply (visit_all_invariant_on h (accounted evs stations)
           (fun p => snd p ∈ evs)).
  - intros s i ev s' Hev Hs Hv. eapply visit_accounted; eassumption.
  - apply evs_sorted_elem.
  - split; [apply grows_refl|]. simpl. split; [lia|constructor].
Qed.

(** X8.  Every record of a run shows in the vehicles as the run leaves
    them: some vehicle with the record's identifier is assigned to the
    record's station, also when the run raises later on. *)
Theorem records_show_in_the_vehicles (h : host) (clock : nat)
    (evs : list EV) (stations : list Station) :
  let s := fst (assign_charging h clock evs stations) in
  Forall (reflected (s_evs s)) (s_assignments s).
Proof.
  intros s. subst s. rewrite assign_charging_fst.
  destruct (visit_all_reflected h (evs_sorted evs) (initial clock evs stations))
    as (new & Hnew & Hrefl).
  - apply evs_sorted_NoDup.
  - apply Forall_forall. intros [i ev] Hp. simpl.
    exists ev. split; [|reflexivity]. now apply evs_sorted_lookup.
  - rewrite Hnew. simpl. exact Hrefl.
Qed.

(** X9.  In a turn, [assign_charging] asks the resolver once about every
    station that has a free charger when the turn starts, in the order of
    the stations, and about no other station: a completed turn has made as
    many queries as there are such stations, and what a turn does, or
    raises, depends on the resolver through the answers to these queries
    only.  So, up to its last completed turn, a run has made at most as
    many queries as the number of vehicles times the number of
    stations. *)
Theorem queries_are_bounded (h : host) (clock : nat)
    (evs : list EV) (stations : list Station) :
  (forall s i ev s',
     visit h s i ev = Ok s' ->
     s_clock s' =
       (s_clock s + length (List.filter has_capacity (s_stations s)))%nat) /\
  (forall h' s i ev,
     round2 h' = round2 h ->
     (forall q station,
        List.filter has_capacity (s_stations s) !! q = Some station ->
        real_distance h' (s_clock s + q) ev station =
          real_distance h (s_clock s + q) ev station) ->
     visit h' s i ev = visit h s i ev) /\
  (let s := fst (assign_charging h clock evs stations) in
   (clock <= s_clock s <= clock + length evs * length stations)%nat).
Proof.
  split; [|split].
  - intros s i ev s' Hv. apply visit_spec in Hv as [Hc _].
    now rewrite Hc, queries_before_all.
  - intros h' s i ev Hround Hsame. unfold visit.
    rewrite (scan_asks h h' ev (s_stations s) 0 (s_clock s) None inf Hsame).
    now rewrite Hround.
  - intros s. subst s. rewrite assign_charging_fst.
    pose proof (visit_all_clock h (evs_sorted evs) (initial clock evs stations)) as H.
    unfold evs_sorted in H at 3. rewrite py_sorted_length, length_imap in H.
    exact H.
Qed.

(** ** The nearby-stations query *)

(** X10.  For a known vehicle and a resolver that returns a number on
    every query about the stations of the fleet, whatever the numbers
    ([nan] and [inf] included), the nearby-stations query answers with the
    vehicle's identifier and battery level and lists every station of the
    fleet exactly once. *)
Theorem nearby_lists_every_station (h : host) (clock : nat) (fleet : FleetData)
    (id : string) (ev : EV) :
  List.find (fun e => String.eqb (ev_id e) id) (evs fleet) = Some ev ->
  (forall n station,
     station ∈ stations fleet ->
     returns_number (real_distance h n ev station)) ->
  exists entries,
    get_nearby_stations h clock fleet id =
      Ok (Nearby (ev_id ev) (ev_battery ev) entries) /\
    map fst entries ≡ₚ map st_id (stations fleet).
Proof.
  intros Hfind Hret. unfold get_nearby_stations. rewrite Hfind.
  destruct (query_all_numbers h ev (stations fleet) clock Hret)
    as (keys & Hkeys & Hans).
  rewrite Hkeys. unfold mbind, result_bind. rewrite zip_numbers.
  destruct (sorted_by_key_perm (list_sort h) (zip keys (stations fleet)))
    as (sorted & -> & Hperm).
  apply Forall2_length in Hans.
  assert (Hperm' : map snd sorted ≡ₚ stations fleet).
  { rewrite Hperm. change (map snd ?l) with (l.*2).
    rewrite snd_zip by lia. reflexivity. }
  destruct (nearby_stations_numbers h ev (map snd sorted)
              (clock + length (stations fleet))%nat) as (ds & -> & Hans').
  { intros n station Hin. apply Hret. rewrite <- Hperm'. exact Hin. }
  apply Forall2_length in Hans'. rewrite length_map in Hans'.
  eexists. split; [reflexivity|].
  change (map fst ?l) with (l.*1).
  rewrite fst_zip by (rewrite !length_map; lia).
  now rewrite Hperm'.
Qed.

Lemma nearby_lists_every_station_witness :
  exists entries,
    get_nearby_stations offline 0 fleet_data "DUO-Y" =
      Ok (Nearby "DUO-Y" 20 entries) /\
    map fst entries ≡ₚ map st_id (stations fleet_data).
Proof.
  apply (nearby_lists_every_station offline 0 fleet_data "DUO-Y"
           (mkEV "DUO-Y" 20 (decimal 407138 4) (decimal (-740050) 4))).
  - reflexivity.
  - intros n station Hin.
    destruct (real_distance_bounded offline n
                (mkEV "DUO-Y" 20 (decimal 407138 4) (decimal (-740050) 4)) station)
      as (d & Hd & _).
    + intros k d [H|H]; discriminate H.
    + vm_compute. repeat split; discriminate.
    + unfold fleet_data in Hin. cbn [stations] in Hin.
      repeat (apply elem_of_cons in Hin as [->|Hin];
              [vm_compute; repeat split; discriminate|]).
      now apply not_elem_of_nil in Hin.
    + exists d. exact Hd.
Defined.

(** X11.  The nearby-stations query does not recover from a resolver that
    raises: for a known vehicle, when the queries about the first
    stations of the fleet return and the next one raises, the query
    raises that exception, and answers neither a list nor not-found. *)
Theorem nearby_surfaces_resolver_failure (h : host) (clock : nat)
    (fleet : FleetData) (id : string) (ev : EV)
    (pre : list Station) (station : Station) (post : list Station) (e : exn) :
  List.find (fun e => String.eqb (ev_id e) id) (evs fleet) = Some ev ->
  stations fleet = pre ++ station :: post ->
  (forall k st, pre !! k = Some st ->
     returns (real_distance h (clock + k) ev st)) ->
  real_distance h (clock + length pre) ev station = Raise e ->
  get_nearby_stations h clock fleet id = Raise e.
Proof.
  intros Hfind Hst Hpre Hraise. unfold get_nearby_stations.
  rewrite Hfind, Hst.
  rewrite (query_all_raises h ev station post e pre clock Hpre Hraise).
  reflexivity.
Qed.

Lemma nearby_surfaces_resolver_failure_witness :
  let ev := mkEV "UNO" 30 inf (decimal (-740060) 4) in
  get_nearby_stations offline 0
    {| evs := [ev]; stations := stations fleet_data |} "UNO" = Raise ValueError.
Proof.
  intros ev.
  apply (nearby_surfaces_resolver_failure offline 0
           {| evs := [ev]; stations := stations fleet_data |} "UNO" ev []
           (mkStation "Station-A" (decimal 407200 4) (decimal (-740100) 4) 2)
           [ mkStation "Station-B" (decimal 407300 4) (decimal (-740000) 4) 1;
             mkStation "Station-C" (decimal 407400 4) (decimal (-740020) 4) 2 ]
           ValueError).
  - reflexivity.
  - reflexivity.
  - intros k st Hk. discriminate Hk.
  - reflexivity.
Defined.

(** ** The connection manager *)

(** X12.  Registering a connection and then unregistering it gives back
    the registry as a collection; it gives back the very list when the
    connection was not registered before.  When it was, the earlier
    registration is the one removed. *)
Theorem connect_then_disconnect (websocket : WebSocket) (m : ConnectionManager) :
  active_connections (disconnect websocket (connect websocket m))
    ≡ₚ active_connections m /\
  (websocket ∉ active_connections m ->
   disconnect websocket (connect websocket m) = m) /\
  (websocket ∈ active_connections m ->
   active_connections (disconnect websocket (connect websocket m)) =
     remove_first websocket (active_connections m) ++ [websocket]).
Proof.
  destruct m as [l]. unfold disconnect, connect. simpl.
  destruct (decide (websocket ∈ l)) as [Hin|Hout].
  - rewrite (remove_first_app _ _ _ Hin). split; [|split].
    + rewrite (remove_first_perm websocket l Hin) at 2.
      symmetry. apply Permutation_cons_append.
    + intros Hout. contradiction.
    + intros _. reflexivity.
  - rewrite (remove_first_last _ _ Hout). split; [|split].
    + reflexivity.
    + intros _. reflexivity.
    + intros Hin. contradiction.
Qed.

(** X13.  Unregistering removes one registration of the connection, the
    first, and keeps the others in their order; a connection that is not
    registered leaves the registry as it is, without an error. *)
Theorem disconnect_removes_one_registration
    (websocket : WebSocket) (m : ConnectionManager) :
  active_connections (disconnect websocket m) `sublist_of` active_connections m /\
  (websocket ∉ active_connections m -> disconnect websocket m = m) /\
  (websocket ∈ active_connections m ->
   active_connections m
     ≡ₚ websocket :: active_connections (disconnect websocket m)) /\
  (forall kept rest,
     active_connections m = kept ++ websocket :: rest -> websocket ∉ kept ->
     active_connections (disconnect websocket m) = kept ++ rest).
Proof.
  destruct m as [l]. unfold disconnect. simpl. split; [|split; [|split]].
  - apply remove_first_sublist.
  - intros Hout. now rewrite remove_first_notin.
  - apply remove_first_perm.
  - intros kept rest -> Hk. now apply remove_first_middle.
Qed.

(** X14.  Whatever the registry holds, a connection registered more than
    once included, after a broadcast it holds the connections the message
    was written to, as many times: a failed write costs one
    registration.  A broadcast registers nobody, and every delivery is of
    the message to a registered connection. *)
Theorem broadcast_keeps_whom_it_reached {M : Type}
    (wire : nat -> WebSocket -> bool) (message : M) (m : ConnectionManager) :
  let after := fst (broadcast wire message m) in
  let delivered := snd (broadcast wire message m) in
  active_connections after ≡ₚ map fst delivered /\
  active_connections after `sublist_of` active_connections m /\
  map fst delivered `sublist_of` active_connections m /\
  Forall (fun delivery => snd delivery = message) delivered.
Proof.
  unfold broadcast.
  pose proof (send_each_perm wire (active_connections m) 0
                (active_connections m) [] []) as Hperm.
  pose proof (send_each_sublist wire (active_connections m) 0
                (active_connections m) []) as Hsub.
  pose proof (send_each_delivered wire (active_connections m) 0
                (active_connections m) []) as Hdel.
  destruct (send_each _ _ _ _ _) as [active delivered]. simpl in *.
  rewrite !app_nil_r in Hperm. specialize (Hperm (reflexivity _)).
  rewrite map_map. simpl. rewrite map_id, Hdel.
  split; [exact Hperm|]. split; [exact Hsub|].
  split; [apply succeeded_sublist|].
  apply Forall_forall. intros [c msg] Hin.
  apply list_elem_of_fmap in Hin as (c' & [= _ ->] & _). reflexivity.
Qed.

(** ** The scheduler *)

(** X15.  However many ticks the scheduler runs, the stations stay as
    they were, counters included, and the vehicles stay the same ones in
    the same order with their identifiers; the station a vehicle is
    assigned to is either kept or cleared, never set. *)
Theorem scheduler_keeps_the_fleet (g : generator) (ticks k : nat) (fleet : FleetData) :
  stations (run_scheduler g ticks k fleet) = stations fleet /\
  Forall2 kept_or_cleared (evs fleet) (evs (run_scheduler g ticks k fleet)).
Proof.
  revert k fleet. induction ticks as [|ticks IH]; intros k fleet.
  - split; [reflexivity|].
    apply Forall_Forall2_diag, Forall_forall. intros ev _. split; auto.
  - change (run_scheduler g (S ticks) k fleet)
      with (run_scheduler g ticks (k + 3 * length (evs fleet))
              (scheduled_job g k fleet)).
    destruct (IH (k + 3 * length (evs fleet))%nat (scheduled_job g k fleet))
      as [Hst Hevs].
    split; [rewrite Hst; reflexivity|].
    eapply Forall2_trans; [|apply (simulate_kept g (evs fleet) k)|exact Hevs].
    intros ev1 ev2 ev3. apply kept_or_cleared_trans.
Qed.

(** ** The assignment endpoint, run again *)

(** X16.  With a resolver whose answer about a vehicle and a station does
    not depend on when it is asked, what the assignment endpoint returns
    or raises depends on the identifiers, battery levels, coordinates and
    capacities only: not on the counters of the stations nor on the
    stations the vehicles are assigned to.  So the endpoint run a second
    time, on the fleet as the first run left it, returns the same
    records. *)
Theorem endpoint_forgets_earlier_runs (h : host) (clock clock' : nat)
    (fleet : FleetData) :
  timeless h ->
  (forall fleet',
     Forall2 same_vehicle (evs fleet) (evs fleet') ->
     Forall2 same_station (stations fleet) (stations fleet') ->
     snd (assign_charging_endpoint h clock' fleet') =
       snd (assign_charging_endpoint h clock fleet)) /\
  (let s := fst (assign_charging_endpoint h clock fleet) in
   snd (assign_charging_endpoint h clock'
          {| evs := s_evs s; stations := s_stations s |}) =
     snd (assign_charging_endpoint h clock fleet)).
Proof.
  intros Ht.
  assert (Hsame : forall fleet',
     Forall2 same_vehicle (evs fleet) (evs fleet') ->
     Forall2 same_station (stations fleet) (stations fleet') ->
     snd (assign_charging_endpoint h clock' fleet') =
       snd (assign_charging_endpoint h clock fleet)).
  { intros fleet' Hevs Hst. unfold assign_charging_endpoint.
    rewrite (reset_same_station _ _ Hst).
    now apply assign_charging_same. }
  split; [exact Hsame|].
  intros s. apply Hsame; simpl; subst s; unfold assign_charging_endpoint.
  - eapply Forall2_impl; [apply assign_charging_reassigned|].
    intros ev ev'. apply reassigned_same_vehicle.
  - apply (Forall2_trans (fun st st' => st' = set_occupied 0 st) grows same_station
             _ (map (set_occupied 0) (stations fleet))).
    + intros st0 st1 st2 -> H12. apply grows_same_station in H12.
      destruct H12 as (H5 & H6 & H7 & H8). repeat split; assumption.
    + apply Forall2_fmap_r, Forall_Forall2_diag, Forall_forall.
      intros st _. reflexivity.
    + apply assign_charging_grows.
Qed.

Lemma endpoint_forgets_earlier_runs_witness :
  let s := fst (assign_charging_endpoint offline 0 fleet_data) in
  snd (assign_charging_endpoint offline 7 {| evs := s_evs s; stations := s_stations s |}) =
    snd (assign_charging_endpoint offline 0 fleet_data).
Proof.
  apply (proj2 (endpoint_forgets_earlier_runs offline 0 7 fleet_data
                  (fun n n' ev station => eq_refl))).
Defined.

(** ** The simulator *)

(** X17.  A tick keeps positions finite: with a generator whose
    [random()] is a double below [1] in magnitude, vehicles whose
    coordinates are finite doubles below [2^E] ([-5 <= E <= 969]) have
    coordinates that are finite doubles below [2^(E+2)] after the tick;
    no coordinate becomes [inf] or [nan]. *)
Theorem tick_keeps_positions_finite (g : generator) (k : nat) (evs : list EV)
    (E : Z) :
  -5 <= E <= 969 ->
  (forall j, finite_below 0 (random g j)) ->
  Forall (fun ev => finite_below E (ev_lat ev) /\ finite_below E (ev_lon ev)) evs ->
  Forall (fun ev => finite_below (E + 2) (ev_lat ev) /\
                    finite_below (E + 2) (ev_lon ev) /\
                    is_finite (ev_lat ev) = true /\ is_finite (ev_lon ev) = true)
    (simulate_ev_movement g k evs).
Proof.
  intros HE Hr Hevs. revert k.
  induction Hevs as [|ev evs [Hlat Hlon] _ IH]; intros k; simpl; constructor;
    [|apply IH].
  destruct (drive_position g k ev) as [-> ->].
  assert (H1 : finite_below (E + 2)
                 (add (ev_lat ev) (uniform g k (SFopp (decimal 5 4)) (decimal 5 4)))).
  { apply add_finite_below; [exact Hlat| |lia].
    eapply finite_below_mono; [|apply uniform_finite_below, Hr]. lia. }
  assert (H2 : finite_below (E + 2)
                 (add (ev_lon ev)
                    (uniform g (k + 1) (SFopp (decimal 5 4)) (decimal 5 4)))).
  { apply add_finite_below; [exact Hlon| |lia].
    eapply finite_below_mono; [|apply uniform_finite_below, Hr]. lia. }
  split; [exact H1|]. split; [exact H2|].
  split; [apply (finite_below_finite _ _ H1)|apply (finite_below_finite _ _ H2)].
Qed.

Lemma tick_keeps_positions_finite_witness :
  Forall (fun ev => finite_below 12 (ev_lat ev) /\
                    finite_below 12 (ev_lon ev) /\
                    is_finite (ev_lat ev) = true /\ is_finite (ev_lon ev) = true)
    (simulate_ev_movement sample_generator 0 (evs fleet_data)).
Proof.
  apply (tick_keeps_positions_finite sample_generator 0 (evs fleet_data) 10).
  - lia.
  - intros j. vm_compute. split; discriminate.
  - unfold fleet_data. cbn [evs].
    repeat (apply List.Forall_cons; [vm_compute; repeat split; discriminate|]).
    apply List.Forall_nil.
Defined.

(** ** Who is served, and where *)

(** X18.  A vehicle with a lower battery level never loses a charger to
    one with a higher level: in a run on vehicles with distinct
    identifiers, with a resolver that answers every query with a number
    below [inf] and no station above its capacity, whenever a vehicle
    gets a record, so does every vehicle of the list with a strictly
    lower battery level. *)
Theorem lower_battery_is_served_first (h : host) (clock : nat)
    (evs : list EV) (stations : list Station) :
  NoDup (map ev_id evs) ->
  numeric h evs stations ->
  Forall within_capacity stations ->
  exists s records,
    assign_charging h clock evs stations = (s, Ok records) /\
    forall ev ev',
      ev ∈ evs -> ev' ∈ evs ->
      ev_id ev ∈ map a_ev records ->
      ev_battery ev' < ev_battery ev ->
      ev_id ev' ∈ map a_ev records.
Proof.
  intros Hnd Hnum Hw.
  destruct (assign_charging_shape h clock evs stations Hnum Hw)
    as (s & records & Hrun & Hids & _).
  exists s, records. split; [exact Hrun|].
  intros ev ev' Hev Hev' Hserved Hlt. rewrite Hids in Hserved |- *.
  set (n := served (evs_sorted evs) stations) in *.
  apply list_elem_of_fmap in Hserved as ([i p] & Hid & Hp). simpl in Hid.
  assert (Hpin : (i, p) ∈ evs_sorted evs)
    by (eapply subseteq_take; eassumption).
  assert (p = ev) as ->.
  { apply (NoDup_fmap_eq ev_id evs); [exact Hnd| |exact Hev|now symmetry].
    apply evs_sorted_lookup in Hpin. eapply list_elem_of_lookup_2. eassumption. }
  apply list_elem_of_lookup_1 in Hev' as [i' Hi'].
  apply evs_sorted_lookup in Hi'.
  rewrite <- (take_drop n (evs_sorted evs)) in Hi'.
  apply elem_of_app in Hi' as [Hin|Hin].
  - apply list_elem_of_fmap. exists (i', ev'). split; [reflexivity|exact Hin].
  - exfalso.
    pose proof (evs_sorted_order evs) as Hs.
    rewrite <- (take_drop n (evs_sorted evs)) in Hs.
    pose proof (StronglySorted_app_order _ _ _ _ _ Hs Hp Hin) as Hb.
    unfold served_before in Hb. simpl in Hb. lia.
Qed.

Lemma lower_battery_is_served_first_witness :
  let h := online (fun _ => of_Z 1200) in
  exists s records,
    assign_charging h 0 (evs fleet_data) (stations fleet_data) = (s, Ok records) /\
    forall ev ev',
      ev ∈ evs fleet_data -> ev' ∈ evs fleet_data ->
      ev_id ev ∈ map a_ev records ->
      ev_battery ev' < ev_battery ev ->
      ev_id ev' ∈ map a_ev records.
Proof.
  intros h.
  apply (lower_battery_is_served_first h 0 (evs fleet_data) (stations fleet_data)).
  - apply (bool_decide_unpack _). vm_compute. exact I.
  - intros n ev st _ _. exists (of_Z 1200). split; reflexivity.
  - repeat (constructor; [unfold within_capacity; simpl; lia|]). constructor.
Defined.

(** X19.  With stations of distinct identifiers, whether a run of
    [assign_charging] returns or raises, the counter of every station is
    its value on entry plus the number of records that name the station;
    so a station that was not above its capacity on entry is named by at
    most [capacity - occupied] records. *)
Theorem stations_count_their_records (h : host) (clock : nat)
    (evs : list EV) (stations : list Station) :
  NoDup (map st_id stations) ->
  let s := fst (assign_charging h clock evs stations) in
  Forall2 (counted (s_assignments s)) stations (s_stations s) /\
  Forall (fun station0 =>
            st_occupied station0 <= st_capacity station0 ->
            assigned_to (st_id station0) (s_assignments s)
              <= st_capacity station0 - st_occupied station0) stations.
Proof.
  intros Hnd s.
  assert (Hinv : Forall2 grows stations (s_stations s) /\
                 Forall2 (counted (s_assignments s)) stations (s_stations s)).
  { subst s. rewrite assign_charging_fst.
    apply (visit_all_invariant h
      (fun s => Forall2 grows stations (s_stations s) /\
                Forall2 (counted (s_assignments s)) stations (s_stations s))).
    - intros s0 i ev s' [Hg Hc] Hv. split.
      + eapply visit_grows; eassumption.
      + eapply visit_counted; eassumption.
    - split; [apply grows_refl|]. simpl.
      apply Forall_Forall2_diag, Forall_forall. intros st _.
      unfold counted, assigned_to. simpl. lia. }
  destruct Hinv as [Hg Hc]. split; [exact Hc|].
  apply Forall_lookup. intros j st0 Hj Hle.
  destruct (Forall2_lookup_l _ _ _ _ _ Hc Hj) as (st & Hj' & Hcount).
  pose proof (Forall2_lookup_lr _ _ _ _ _ _ Hg Hj Hj') as (_ & _ & _ & _ & _ & Hmax).
  unfold counted in Hcount. lia.
Qed.

Lemma stations_count_their_records_witness :
  let s := fst (assign_charging offline 0 (evs fleet_data) (stations fleet_data)) in
  Forall2 (counted (s_assignments s)) (stations fleet_data) (s_stations s) /\
  Forall (fun station0 =>
            st_occupied station0 <= st_capacity station0 ->
            assigned_to (st_id station0) (s_assignments s)
              <= st_capacity station0 - st_occupied station0)
    (stations fleet_data).
Proof.
  apply (stations_count_their_records offline 0 (evs fleet_data)
           (stations fleet_data)).
  apply (bool_decide_unpack _). vm_compute. exact I.
Defined.

(** X20.  When the battery levels are pairwise distinct, the order of the
    vehicle list is irrelevant: a run on the same vehicles listed in
    another order returns the same records, or raises the same
    exception, and leaves the same stations. *)
Theorem order_of_the_list_is_irrelevant (h : host) (clock : nat)
    (evs evs' : list EV) (stations : list Station) :
  evs ≡ₚ evs' ->
  NoDup (map ev_battery evs) ->
  snd (assign_charging h clock evs' stations) =
    snd (assign_charging h clock evs stations) /\
  s_stations (fst (assign_charging h clock evs' stations)) =
    s_stations (fst (assign_charging h clock evs stations)).
Proof.
  intros Hperm Hnd. rewrite !assign_charging_unfold. simpl.
  destruct (visit_all_chargers h (evs_sorted evs) (evs_sorted evs')
              (initial clock evs stations) (initial clock evs' stations))
    as [(Hst & Has & _) Hr].
  - rewrite !map_snd_evs_sorted. now apply py_sorted_battery_unique.
  - repeat split.
  - rewrite Hr, Has. split; [reflexivity|exact Hst].
Qed.

Lemma order_of_the_list_is_irrelevant_witness :
  snd (assign_charging offline 0 (List.rev (evs fleet_data)) (stations fleet_data)) =
    snd (assign_charging offline 0 (evs fleet_data) (stations fleet_data)) /\
  s_stations (fst (assign_charging offline 0 (List.rev (evs fleet_data))
                     (stations fleet_data))) =
    s_stations (fst (assign_charging offline 0 (evs fleet_data) (stations fleet_data))).
Proof.
  apply (order_of_the_list_is_irrelevant offline 0 (evs fleet_data)
           (List.rev (evs fleet_data)) (stations fleet_data)).
  - apply Permutation_rev.
  - apply (bool_decide_unpack _). vm_compute. exact I.
Defined.
